(** * Adjacency-map graphs of [algorithms/graph.py]

    A shallow embedding of the classes [Vertex], [Edge], [Digraph] and
    [Graph] of [src/algorithms/graph.py], of the FIFO queue of
    [src/algorithms/linkedqueue.py], and of the breadth-first traversal that
    [src/chap14/bfs.py] runs, followed by the properties of the
    specification that concern them.

    Modelling conventions.
    - A Python object is known by its identity.  A [Vertex] is the identity
      of a vertex object ([Vertex.__eq__] is [is], [Vertex.__hash__] hashes
      [id]); an [Edge] is a record of the object's slots together with its
      identity [eid], so that Leibniz equality of edges is [is] and
      [Edge_eq] is [Edge.__eq__].
    - A [dict] is an association list in insertion order with pairwise
      distinct keys, the order in which Python iterates it; a [set] of
      edges is the list of its elements, no two of them equal by
      [Edge.__eq__].
    - A method is a computation in the monad [M]: it receives the object
      state, returns a value or raises, and leaves a state behind in both
      cases.
    - [isinstance(v, Vertex)] always holds: the argument types exclude the
      [TypeError] branches.
    - A query returns the value of a dictionary; callers that would write
      through the dictionary objects [vertices()], [successors()] and
      [predecessors()] hand out are not modelled. *)

From Stdlib Require Import List Arith Bool Lia ZArith String Permutation.
Import ListNotations.

Set Implicit Arguments.

(** ** Objects and exceptions *)

Definition Vertex := nat.

Record Edge := mkEdge {
  eid : nat;
  _head : Vertex;
  _tail : Vertex;
  _tag : string;
  distance : Z
}.

(** [Edge.endpoints] *)
Definition endpoints (e : Edge) : Vertex * Vertex := (_head e, _tail e).

(** [Edge.__eq__]: same head object and same tail object. *)
Definition Edge_eq (a b : Edge) : bool :=
  (_head a =? _head b) && (_tail a =? _tail b).

Inductive exn := TypeError | ValueError | KeyError | EmptyQueueError.

Inductive Res (A : Type) : Type :=
| Ok (a : A)
| Raise (e : exn).
Arguments Ok {A} a.
Arguments Raise {A} e.

(** ** Python dictionaries keyed by vertices *)

Section Dict.
Variable V : Type.

Definition dict := list (Vertex * V).

Fixpoint dict_get (k : Vertex) (d : dict) : option V :=
  match d with
  | [] => None
  | (k', x) :: d' => if k =? k' then Some x else dict_get k d'
  end.

(** [k in d] *)
Definition dict_mem (k : Vertex) (d : dict) : bool :=
  match dict_get k d with Some _ => true | None => false end.

(** [d[k] = x]: an existing key keeps its place, a new one goes last. *)
Fixpoint dict_set (k : Vertex) (x : V) (d : dict) : dict :=
  match d with
  | [] => [(k, x)]
  | (k', y) :: d' =>
      if k =? k' then (k, x) :: d' else (k', y) :: dict_set k x d'
  end.

(** the dictionary left by [d.pop(k)]; the keys of a dictionary are
    pairwise distinct, so that one entry at most goes *)
Definition dict_pop (k : Vertex) (d : dict) : dict :=
  filter (fun kv => negb (k =? fst kv)) d.

Definition dict_keys (d : dict) : list Vertex := map fst d.
Definition dict_values (d : dict) : list V := map snd d.
Definition len (d : dict) : nat := List.length d.

Definition dict_wf (d : dict) : Prop := NoDup (dict_keys d).
End Dict.

Definition AdjMap := dict (dict Edge).

(** [m[u][v]] when both keys are there *)
Definition get2 (m : AdjMap) (u v : Vertex) : option Edge :=
  match dict_get u m with
  | Some d => dict_get v d
  | None => None
  end.

(** ** The state of a [Digraph] object and the method monad *)

Record Digraph := mkDigraph {
  _outgoing : AdjMap;
  _incoming : AdjMap
}.

Definition M (A : Type) : Type := Digraph -> Res A * Digraph.

Definition ret {A} (a : A) : M A := fun s => (Ok a, s).

Definition raise {A} (e : exn) : M A := fun s => (Raise e, s).

Definition bind {A B} (m : M A) (f : A -> M B) : M B :=
  fun s =>
    match m s with
    | (Ok a, s') => f a s'
    | (Raise e, s') => (Raise e, s')
    end.

Notation "x <- m ;; k" := (bind m (fun x => k))
  (at level 61, m at next level, right associativity).
Notation "m ;;; k" := (bind m (fun _ => k))
  (at level 61, right associativity).

Definition eval {A} (m : M A) (s : Digraph) : Res A := fst (m s).
Definition exec {A} (m : M A) (s : Digraph) : Digraph := snd (m s).

Fixpoint for_each {A} (l : list A) (body : A -> M unit) : M unit :=
  match l with
  | [] => ret tt
  | x :: l' => body x ;;; for_each l' body
  end.

(** The two attributes of the object. *)
Inductive Field := Outgoing | Incoming.

Definition field (f : Field) (s : Digraph) : AdjMap :=
  match f with Outgoing => _outgoing s | Incoming => _incoming s end.

Definition with_field (f : Field) (m : AdjMap) (s : Digraph) : Digraph :=
  match f with
  | Outgoing => mkDigraph m (_incoming s)
  | Incoming => mkDigraph (_outgoing s) m
  end.

(** [self.f] *)
Definition read (f : Field) : M AdjMap := fun s => (Ok (field f s), s).

(** [d[k]], raising [KeyError] *)
Definition getitem {V} (k : Vertex) (d : dict V) : M V :=
  match dict_get k d with
  | Some x => ret x
  | None => raise KeyError
  end.

(** [self.f[k] = d] *)
Definition setitem (f : Field) (k : Vertex) (d : dict Edge) : M unit :=
  fun s => (Ok tt, with_field f (dict_set k d (field f s)) s).

(** [self.f[u][v] = e] *)
Definition setitem2 (f : Field) (u v : Vertex) (e : Edge) : M unit :=
  m <- read f ;;
  d <- getitem u m ;;
  setitem f u (dict_set v e d).

(** [self.f[u].pop(v)] *)
Definition pop2 (f : Field) (u v : Vertex) : M Edge :=
  m <- read f ;;
  d <- getitem u m ;;
  e <- getitem v d ;;
  setitem f u (dict_pop v d) ;;;
  ret e.

(** [self.f.pop(v)] *)
Definition pop1 (f : Field) (v : Vertex) : M (dict Edge) :=
  m <- read f ;;
  d <- getitem v m ;;
  (fun s => (Ok d, with_field f (dict_pop v m) s)).

(** ** class Digraph *)

(** [Digraph.__init__] *)
Definition Digraph_init : Digraph := mkDigraph [] [].

(** [Digraph.vertices] returns the outgoing map itself. *)
Definition vertices : M AdjMap := read Outgoing.

(** [Digraph.__contains__] *)
Definition contains (v : Vertex) : M bool :=
  vs <- vertices ;;
  if dict_mem v vs then ret true else ret false.

Definition _validate_vertex (v : Vertex) : M unit :=
  b <- contains v ;;
  if negb b then raise ValueError else ret tt.

Definition vertex_count : M nat :=
  m <- read Outgoing ;; ret (len m).

Fixpoint sum_for (l : list Vertex) (term : Vertex -> M nat) : M nat :=
  match l with
  | [] => ret 0
  | v :: l' => n <- term v ;; total <- sum_for l' term ;; ret (n + total)
  end.

Definition edge_count : M nat :=
  m <- read Outgoing ;;
  sum_for (dict_keys m)
    (fun v => m' <- read Outgoing ;; d <- getitem v m' ;; ret (len d)).

(** A Python [set] of edges: membership is decided by [Edge.__eq__], an
    element equal to one already inside is not added. *)
Definition set_add (e : Edge) (s : list Edge) : list Edge :=
  if existsb (Edge_eq e) s then s else s ++ [e].

Definition set_update (s : list Edge) (l : list Edge) : list Edge :=
  fold_left (fun acc e => set_add e acc) l s.

Definition edges : M (list Edge) :=
  m <- read Outgoing ;;
  ret (fold_left (fun result secondary_map =>
                    set_update result (dict_values secondary_map))
                 (dict_values m) []).

Definition edge (u v : Vertex) : M (option Edge) :=
  _validate_vertex u ;;;
  _validate_vertex v ;;;
  m <- read Outgoing ;;
  d <- getitem u m ;;
  if dict_mem v d then
    m' <- read Outgoing ;; d' <- getitem u m' ;; e <- getitem v d' ;;
    ret (Some e)
  else ret None.

Definition out_degree (v : Vertex) : M nat :=
  _validate_vertex v ;;;
  m <- read Outgoing ;; d <- getitem v m ;; ret (len d).

Definition in_degree (v : Vertex) : M nat :=
  _validate_vertex v ;;;
  m <- read Incoming ;; d <- getitem v m ;; ret (len d).

Definition predecessors (v : Vertex) : M (dict Edge) :=
  _validate_vertex v ;;;
  m <- read Incoming ;; getitem v m.

Definition successors (v : Vertex) : M (dict Edge) :=
  _validate_vertex v ;;;
  m <- read Outgoing ;; getitem v m.

Definition outgoing_edges (v : Vertex) : M (list Edge) :=
  _validate_vertex v ;;;
  m <- read Outgoing ;; d <- getitem v m ;; ret (dict_values d).

Definition incoming_edges (v : Vertex) : M (list Edge) :=
  _validate_vertex v ;;;
  m <- read Incoming ;; d <- getitem v m ;; ret (dict_values d).

Definition insert_vertex (v : Vertex) : M Vertex :=
  b <- contains v ;;
  (if negb b then
     setitem Outgoing v [] ;;;
     setitem Incoming v []
   else ret tt) ;;;
  ret v.

Definition Digraph_insert_edge (e : Edge) : M Edge :=
  let (u, v) := endpoints e in
  b <- contains u ;;
  (if negb b then insert_vertex u ;;; ret tt else ret tt) ;;;
  b' <- contains v ;;
  (if negb b' then insert_vertex v ;;; ret tt else ret tt) ;;;
  setitem2 Outgoing u v e ;;;
  setitem2 Incoming v u e ;;;
  ret e.

(** An [Edge] object defines neither [__bool__] nor [__len__], so [if e:]
    asks whether [e] is not [None]. *)
Definition Digraph_remove_edge (u v : Vertex) : M (option Edge) :=
  e <- edge u v ;;
  (match e with
   | Some _ => pop2 Outgoing u v ;;; pop2 Incoming v u ;;; ret tt
   | None => ret tt
   end) ;;;
  ret e.

Definition reverse : M unit :=
  fun s => (Ok tt, mkDigraph (_incoming s) (_outgoing s)).

(** ** class Graph(Digraph) *)

Definition Graph_insert_edge (e : Edge) : M Edge :=
  let (u, v) := endpoints e in
  b <- contains u ;;
  (if negb b then insert_vertex u ;;; ret tt else ret tt) ;;;
  b' <- contains v ;;
  (if negb b' then insert_vertex v ;;; ret tt else ret tt) ;;;
  setitem2 Outgoing u v e ;;;
  setitem2 Incoming v u e ;;;
  setitem2 Outgoing v u e ;;;
  setitem2 Incoming u v e ;;;
  ret e.

Definition Graph_remove_edge (u v : Vertex) : M (option Edge) :=
  Digraph_remove_edge u v ;;;
  Digraph_remove_edge v u.

(** ** Method resolution

    [insert_edge] and [remove_edge] are overridden by [Graph];
    [remove_vertex] is inherited and calls [self.remove_edge]. *)

Inductive Class := DigraphClass | GraphClass.

Definition insert_edge (c : Class) : Edge -> M Edge :=
  match c with
  | DigraphClass => Digraph_insert_edge
  | GraphClass => Graph_insert_edge
  end.

Definition remove_edge (c : Class) : Vertex -> Vertex -> M (option Edge) :=
  match c with
  | DigraphClass => Digraph_remove_edge
  | GraphClass => Graph_remove_edge
  end.

(** The loop of [remove_vertex].  The body changes inner dictionaries only,
    so the keys the loop walks are those of the outer dictionary at entry. *)
Definition remove_incident (c : Class) (v : Vertex) : M unit :=
  vs <- vertices ;;
  for_each (dict_keys vs)
    (fun u => remove_edge c u v ;;; remove_edge c v u ;;; ret tt).

Definition remove_vertex (c : Class) (v : Vertex) : M unit :=
  _validate_vertex v ;;;
  remove_incident c v ;;;
  pop1 Incoming v ;;;
  pop1 Outgoing v ;;;
  ret tt.

(** ** Graphs a program can build *)

Inductive Call :=
| call_insert_vertex (v : Vertex)
| call_insert_edge (e : Edge)
| call_remove_edge (u v : Vertex)
| call_remove_vertex (v : Vertex)
| call_reverse.

(** The state a call leaves behind, whether it returns or raises. *)
Definition run_call (c : Class) (k : Call) (s : Digraph) : Digraph :=
  match k with
  | call_insert_vertex v => exec (insert_vertex v) s
  | call_insert_edge e => exec (insert_edge c e) s
  | call_remove_edge u v => exec (remove_edge c u v) s
  | call_remove_vertex v => exec (remove_vertex c v) s
  | call_reverse => exec reverse s
  end.

Definition run_calls (c : Class) (ks : list Call) (s : Digraph) : Digraph :=
  fold_left (fun s k => run_call c k s) ks s.

Inductive reachable (c : Class) : Digraph -> Prop :=
| reach_init : reachable c Digraph_init
| reach_call : forall s k, reachable c s -> reachable c (run_call c k s).

(** ** class Vertex: the attributes a traversal writes *)

Module Vtx.
Inductive Color := white | gray | black.

(** [float('inf')], or a number of edges *)
Inductive Dist := Inf | Fin (n : nat).

Record attrs := mk {
  color : Color;
  predecessor : option Vertex;
  distance : Dist;
  discover : nat;
  finish : nat
}.

(** [Vertex.__init__] *)
Definition init : attrs := mk white None Inf 0 0.

Definition succ (d : Dist) : Dist :=
  match d with Inf => Inf | Fin n => Fin (S n) end.
End Vtx.

(** The attributes of every vertex object, by identity. *)
Definition Heap := Vertex -> Vtx.attrs.

Definition heap_set (h : Heap) (v : Vertex) (x : Vtx.attrs) : Heap :=
  fun w => if w =? v then x else h w.

(** ** class LinkedQueue

    The doubly linked list behind the queue is a list here: [push_back]
    appends, [pop_front] takes the head. *)

Definition LinkedQueue := list Vertex.

Definition is_empty (q : LinkedQueue) : bool :=
  match q with [] => true | _ :: _ => false end.

Definition enqueue (x : Vertex) (q : LinkedQueue) : LinkedQueue := q ++ [x].

Definition dequeue (q : LinkedQueue) : Res (Vertex * LinkedQueue) :=
  if is_empty q then Raise EmptyQueueError
  else match q with
       | x :: q' => Ok (x, q')
       | [] => Raise EmptyQueueError
       end.

(** ** Breadth-first traversal *)

(** Modelled from the spec: the vertex attributes, the counter behind the
    discover and finish numbers, and the FIFO frontier of a traversal. *)
Record Traversal := mkTraversal {
  heap : Heap;
  clock : nat;
  frontier : LinkedQueue
}.

(** Modelled from the spec: [algorithms/graphalgo.py], which defines the
    traversal that [chap14/bfs.py] calls, is not among the sources.  The
    definitions from here to [complete_breadth_first_search] follow section
    4.5 of the specification: every vertex starts white, at distance
    infinity and without predecessor; a source turns gray at distance zero;
    the vertex taken from the FIFO frontier has its successors scanned, each
    white one receiving predecessor, distance plus one and the colour gray
    before it is enqueued; the scanned vertex then turns black.  The
    discover and finish numbers come from one counter, advanced before each
    use. *)
Definition whiten (vs : list Vertex) (h : Heap) : Heap :=
  fold_left
    (fun h v => heap_set h v
       (Vtx.mk Vtx.white None Vtx.Inf (Vtx.discover (h v)) (Vtx.finish (h v))))
    vs h.

(** Modelled from the spec: a vertex turns gray and joins the frontier. *)
Definition discover_vertex (v : Vertex) (p : option Vertex) (d : Vtx.Dist)
                           (t : Traversal) : Traversal :=
  let n := S (clock t) in
  mkTraversal
    (heap_set (heap t) v (Vtx.mk Vtx.gray p d n (Vtx.finish (heap t v))))
    n (enqueue v (frontier t)).

(** Modelled from the spec: one successor [v] of the scanned vertex [u]. *)
Definition visit (u v : Vertex) (t : Traversal) : Traversal :=
  match Vtx.color (heap t v) with
  | Vtx.white =>
      discover_vertex v (Some u) (Vtx.succ (Vtx.distance (heap t u))) t
  | _ => t
  end.

(** Modelled from the spec: the scanned vertex turns black. *)
Definition finish_vertex (u : Vertex) (t : Traversal) : Traversal :=
  let n := S (clock t) in
  let x := heap t u in
  mkTraversal
    (heap_set (heap t) u
       (Vtx.mk Vtx.black (Vtx.predecessor x) (Vtx.distance x)
               (Vtx.discover x) n))
    n (frontier t).

(** Modelled from the spec: the loop over the frontier, which runs while
    the queue is not empty.  [fuel] bounds the number of vertices taken
    from the frontier; [None] is fuel exhausted. *)
Fixpoint bfs_loop (fuel : nat) (g : Digraph) (t : Traversal)
  : option (Res Traversal) :=
  if is_empty (frontier t) then Some (Ok t)
  else
    match fuel with
    | 0 => None
    | S fuel' =>
        match dequeue (frontier t) with
        | Raise x => Some (Raise x)
        | Ok (u, q) =>
            match eval (successors u) g with
            | Raise x => Some (Raise x)
            | Ok d =>
                let t1 := mkTraversal (heap t) (clock t) q in
                let t2 :=
                  fold_left (fun t v => visit u v t) (dict_keys d) t1 in
                bfs_loop fuel' g (finish_vertex u t2)
            end
        end
    end.

(** Modelled from the spec: the traversal seeded at [sources]. *)
Definition breadth_first_search (fuel : nat) (g : Digraph)
    (sources : list Vertex) (h : Heap) : option (Res Traversal) :=
  let h0 := whiten (dict_keys (_outgoing g)) h in
  let t0 :=
    fold_left (fun t s => discover_vertex s None (Vtx.Fin 0) t)
              sources (mkTraversal h0 0 []) in
  bfs_loop fuel g t0.

(** Modelled from the spec: the complete traversal restarts at every vertex
    that is still white, in the order of [vertices()], with one counter. *)
Fixpoint bfs_restarts (fuel : nat) (g : Digraph) (vs : list Vertex)
                      (t : Traversal) : option (Res Traversal) :=
  match vs with
  | [] => Some (Ok t)
  | v :: vs' =>
      match Vtx.color (heap t v) with
      | Vtx.white =>
          match bfs_loop fuel g (discover_vertex v None (Vtx.Fin 0) t) with
          | Some (Ok t') => bfs_restarts fuel g vs' t'
          | r => r
          end
      | _ => bfs_restarts fuel g vs' t
      end
  end.

(** Modelled from the spec: the complete traversal of a graph, as
    [chap14/bfs.py] calls it. *)
Definition complete_breadth_first_search (fuel : nat) (g : Digraph)
    (h : Heap) : option (Res Traversal) :=
  let vs := dict_keys (_outgoing g) in
  bfs_restarts fuel g vs (mkTraversal (whiten vs h) 0 []).

(** ** The program of [chap14/bfs.py] *)

Module Bfs.
Definition a : Vertex := 0.
Definition b : Vertex := 1.
Definition c : Vertex := 2.
Definition d : Vertex := 3.

Definition ab := mkEdge 0 a b "AB" 1.
Definition ba := mkEdge 1 b a "BA" 1.
Definition ac := mkEdge 2 a c "AC" 1.
Definition ca := mkEdge 3 c a "CA" 1.
Definition ad := mkEdge 4 a d "AD" 1.
Definition bc := mkEdge 5 b c "BC" 1.
Definition bd := mkEdge 6 b d "BD" 1.

Definition g : Digraph :=
  exec (Digraph_insert_edge ab ;;;
        Digraph_insert_edge ba ;;;
        Digraph_insert_edge ac ;;;
        Digraph_insert_edge ca ;;;
        Digraph_insert_edge ad ;;;
        Digraph_insert_edge bc ;;;
        Digraph_insert_edge bd) Digraph_init.

(** No traversal has touched the four vertex objects yet. *)
Definition fresh : Heap := fun _ => Vtx.init.
End Bfs.

(** ** States named in the statements

    The states the mutators leave behind, written as functions of the state
    they start from, and the invariant of the two maps. *)

(** [m] after [m[u][v] = e] *)
Definition adj_set (m : AdjMap) (u v : Vertex) (e : Edge) : AdjMap :=
  match dict_get u m with
  | Some d => dict_set u (dict_set v e d) m
  | None => m
  end.

(** [m] after [m[u].pop(v)] *)
Definition adj_pop (m : AdjMap) (u v : Vertex) : AdjMap :=
  match dict_get u m with
  | Some d => dict_set u (dict_pop v d) m
  | None => m
  end.

Definition add_vertex (v : Vertex) (s : Digraph) : Digraph :=
  if dict_mem v (_outgoing s) then s
  else mkDigraph (@dict_set (dict Edge) v [] (_outgoing s))
                 (@dict_set (dict Edge) v [] (_incoming s)).

Definition link (u v : Vertex) (e : Edge) (s : Digraph) : Digraph :=
  mkDigraph (adj_set (_outgoing s) u v e) (adj_set (_incoming s) v u e).

Definition unlink (u v : Vertex) (s : Digraph) : Digraph :=
  mkDigraph (adj_pop (_outgoing s) u v) (adj_pop (_incoming s) v u).

Definition drop_vertex (v : Vertex) (s : Digraph) : Digraph :=
  mkDigraph (dict_pop v (_outgoing s)) (dict_pop v (_incoming s)).

(** [v in g] *)
Definition member (v : Vertex) (s : Digraph) : bool :=
  dict_mem v (_outgoing s).

(** Every dictionary of an adjacency map has pairwise distinct keys. *)
Definition adj_wf (m : AdjMap) : Prop :=
  dict_wf m /\ forall u d, dict_get u m = Some d -> dict_wf d.

Record Inv (s : Digraph) : Prop := mkInv {
  inv_keys : forall v, dict_mem v (_outgoing s) = dict_mem v (_incoming s);
  inv_adj : forall u v, get2 (_outgoing s) u v = get2 (_incoming s) v u;
  inv_ends : forall u v e, get2 (_outgoing s) u v = Some e ->
                           endpoints e = (u, v) \/ endpoints e = (v, u);
  inv_wf_out : adj_wf (_outgoing s);
  inv_wf_inc : adj_wf (_incoming s)
}.

(** What holds of the objects of each class. *)
Definition ClassInv (c : Class) (s : Digraph) : Prop :=
  match c with
  | DigraphClass => Inv s
  | GraphClass => Inv s /\ _incoming s = _outgoing s
  end.

(** The state [Digraph.remove_edge(u, v)] leaves when [u] and [v] are
    members. *)
Definition cut (u v : Vertex) (s : Digraph) : Digraph :=
  match get2 (_outgoing s) u v with
  | Some _ => unlink u v s
  | None => s
  end.

Definition cuts (c : Class) (u v : Vertex) (s : Digraph) : Digraph :=
  match c with
  | DigraphClass => cut u v s
  | GraphClass => cut v u (cut u v s)
  end.

(** One round of the loop of [remove_vertex], and the whole loop. *)
Definition detach (c : Class) (v u : Vertex) (s : Digraph) : Digraph :=
  cuts c v u (cuts c u v s).

Definition detach_all (c : Class) (v : Vertex) (l : list Vertex)
                      (s : Digraph) : Digraph :=
  fold_left (fun s u => detach c v u s) l s.

(** [v in m[u]] *)
Definition has_key2 (m : AdjMap) (u v : Vertex) : bool :=
  match dict_get u m with
  | Some d => dict_mem v d
  | None => false
  end.

(** The edge objects of a map in iteration order, and the sum of the sizes
    of its inner dictionaries. *)
Definition all_edges (m : AdjMap) : list Edge :=
  List.concat (map (@dict_values Edge) (dict_values m)).

Definition total (m : AdjMap) : nat :=
  list_sum (map (fun kv => len (snd kv)) m).

(** What the specification says of inserting [e2] over the edge [e1] of the
    same ordered pair: [edge] returns [e2], the object [e1] is not in
    [edges()], and the two counts are as before. *)
Definition overwritten (g : Digraph) (e1 e2 : Edge) : Prop :=
  let g' := exec (Digraph_insert_edge e2) g in
  eval (edge (_head e2) (_tail e2)) g' = Ok (Some e2) /\
  (exists es, eval edges g' = Ok es /\ ~ In e1 es) /\
  (exists n, eval vertex_count g = Ok n /\ eval vertex_count g' = Ok n) /\
  (exists n, eval edge_count g = Ok n /\ eval edge_count g' = Ok n).

(** Every entry of the outgoing map sits under the endpoints of the edge it
    holds. *)
Definition oriented (s : Digraph) : Prop :=
  forall u v e, get2 (_outgoing s) u v = Some e -> endpoints e = (u, v).


(** ** Sample objects *)

Module Sample.
Definition e12 := mkEdge 10 1 2 "e12" 1.
Definition f12 := mkEdge 11 1 2 "f12" 5.
Definition e33 := mkEdge 12 3 3 "loop" 1.

Definition digraph : Digraph :=
  run_calls DigraphClass
    [call_insert_edge e12; call_insert_vertex 5] Digraph_init.

Definition graph : Digraph :=
  run_calls GraphClass
    [call_insert_edge e12; call_insert_vertex 5] Digraph_init.

(** A directed graph that holds [e12] under [(1, 2)] and, since the
    reversal, under [(2, 1)] as well. *)
Definition twice : Digraph :=
  run_calls DigraphClass
    [call_insert_vertex 2; call_insert_edge e12; call_reverse;
     call_insert_edge e12] Digraph_init.
End Sample.

(** ** Further methods of [graph.py] *)

(** [Edge.opposite] *)
Definition opposite (e : Edge) (v : Vertex) : Res Vertex :=
  if v =? _head e then Ok (_tail e)
  else if v =? _tail e then Ok (_head e)
  else Raise ValueError.

(** The loop of [Digraph.vertex]: the first vertex with the tag. *)
Fixpoint first_tagged (tag_of : Vertex -> string) (tag : string)
                      (vs : list Vertex) : option Vertex :=
  match vs with
  | [] => None
  | v :: vs' =>
      if String.eqb (tag_of v) tag then Some v
      else first_tagged tag_of tag vs'
  end.

(** [Digraph.vertex].  [tag_of] reads the slot [_tag] of a vertex object,
    which nothing writes after [Vertex.__init__]; [None] is
    [raise Exception('vertex not in the graph')]. *)
Definition vertex (tag_of : Vertex -> string) (tag : string)
                  (s : Digraph) : option Vertex :=
  match eval vertices s with
  | Ok vs => first_tagged tag_of tag (dict_keys vs)
  | Raise _ => None
  end.

(** The two maps hold as many entries. *)
Definition balanced (s : Digraph) : Prop :=
  total (_outgoing s) = total (_incoming s).

(** The size of the dictionary of [v] in a map, and the number of
    self-loops of [v]. *)
Definition deg (m : AdjMap) (v : Vertex) : nat :=
  match dict_get v m with Some d => len d | None => 0 end.

Definition loops (s : Digraph) (v : Vertex) : nat :=
  match get2 (_outgoing s) v v with Some _ => 1 | None => 0 end.

(** ** [graph_read]

    The file is its content: the first line after [strip()], and the token
    lists [line.strip().split()] of the lines that follow.  [float] is
    Python's conversion of a token to the number that [distance] holds,
    [None] where it raises [ValueError]; the graph code never computes with
    a distance, and the default [1.0] is the number 1.  A new [Vertex] or
    [Edge] object takes the next identity of its kind.  The exceptions of
    [open] are not modelled. *)

Inductive read_exn :=
| IndexError
| FloatValueError
| AttributeError
| GraphError (x : exn).

Inductive ReadRes (A : Type) : Type :=
| Read (a : A)
| ReadRaise (x : read_exn).
Arguments Read {A} a.
Arguments ReadRaise {A} x.

(** The local dictionary [vertices], from tags to vertex objects. *)
Definition TagMap := list (string * Vertex).

Fixpoint tag_get (k : string) (d : TagMap) : option Vertex :=
  match d with
  | [] => None
  | (k', v) :: d' => if String.eqb k k' then Some v else tag_get k d'
  end.

Record Reader := mkReader {
  rd_graph : option (Class * Digraph);
  rd_vertices : TagMap;
  rd_vertex_ids : nat;
  rd_edge_ids : nat
}.

(** [if u not in vertices: vertices[u] = Vertex(u)] *)
Definition ensure_tag (u : string) (r : Reader) : Reader :=
  match tag_get u (rd_vertices r) with
  | Some _ => r
  | None =>
      mkReader (rd_graph r) (rd_vertices r ++ [(u, rd_vertex_ids r)])
               (S (rd_vertex_ids r)) (rd_edge_ids r)
  end.

(** [float(token[3]) if len(token) == 4 else 1.0] *)
Definition read_weight (float : string -> option Z) (token : list string)
  : ReadRes Z :=
  if List.length token =? 4 then
    match nth_error token 3 with
    | Some t =>
        match float t with
        | Some w => Read w
        | None => ReadRaise FloatValueError
        end
    | None => ReadRaise IndexError
    end
  else Read 1%Z.

(** The body of the loop over the lines. *)
Definition read_line (float : string -> option Z) (token : list string)
                     (r : Reader) : ReadRes Reader :=
  match nth_error token 1 with
  | None => ReadRaise IndexError
  | Some u =>
      let r1 := ensure_tag u r in
      match nth_error token 2 with
      | None => ReadRaise IndexError
      | Some v =>
          let r2 := ensure_tag v r1 in
          match read_weight float token with
          | ReadRaise x => ReadRaise x
          | Read w =>
              match tag_get u (rd_vertices r2), tag_get v (rd_vertices r2),
                    nth_error token 0 with
              | Some vu, Some vv, Some tag =>
                  let e := mkEdge (rd_edge_ids r2) vu vv tag w in
                  match rd_graph r2 with
                  | None => ReadRaise AttributeError
                  | Some (c, g) =>
                      match insert_edge c e g with
                      | (Ok _, g') =>
                          Read (mkReader (Some (c, g')) (rd_vertices r2)
                                         (rd_vertex_ids r2)
                                         (S (rd_edge_ids r2)))
                      | (Raise x, _) => ReadRaise (GraphError x)
                      end
                  end
              | None, _, _ => ReadRaise (GraphError KeyError)
              | _, None, _ => ReadRaise (GraphError KeyError)
              | _, _, None => ReadRaise IndexError
              end
          end
      end
  end.

Fixpoint read_lines (float : string -> option Z) (lines : list (list string))
                    (r : Reader) : ReadRes Reader :=
  match lines with
  | [] => Read r
  | token :: lines' =>
      match read_line float token r with
      | Read r' => read_lines float lines' r'
      | ReadRaise x => ReadRaise x
      end
  end.

(** The state before the loop: [graph] by the first line, no vertex yet. *)
Definition read_header (header : string) : Reader :=
  mkReader
    (if String.eqb header "digraph" then Some (DigraphClass, Digraph_init)
     else if String.eqb header "graph" then Some (GraphClass, Digraph_init)
     else None)
    [] 0 0.

(** [graph_read]: the graph object, or [None] where the first line names
    no class. *)
Definition graph_read (float : string -> option Z) (header : string)
    (lines : list (list string)) : ReadRes (option (Class * Digraph)) :=
  match read_lines float lines (read_header header) with
  | Read r => Read (rd_graph r)
  | ReadRaise x => ReadRaise x
  end.

(** A line the loop accepts: three tokens at least, and a fourth that is a
    number where there are exactly four. *)
Definition line_ok (float : string -> option Z) (token : list string)
  : bool :=
  (3 <=? List.length token) &&
  (if List.length token =? 4 then
     match nth_error token 3 with
     | Some t => match float t with Some _ => true | None => false end
     | None => false
     end
   else true).

(** The vertex tags of the lines, in the order the loop meets them. *)
Definition mentioned (lines : list (list string)) : list string :=
  flat_map (fun token =>
              match nth_error token 1, nth_error token 2 with
              | Some u, Some v => [u; v]
              | _, _ => []
              end) lines.

(** The edge object [e] was made for one of the lines [done]: its tag is
    the first token, its endpoints are the vertices of the second and third
    token, its distance is the weight of the line. *)
Definition from_line (float : string -> option Z) (vs : TagMap)
                     (done : list (list string)) (e : Edge) : Prop :=
  exists (token : list string) (t0 u v : string),
    In token done /\
    nth_error token 0 = Some t0 /\
    nth_error token 1 = Some u /\
    nth_error token 2 = Some v /\
    _tag e = t0 /\
    tag_get u vs = Some (_head e) /\
    tag_get v vs = Some (_tail e) /\
    read_weight float token = Read (distance e).

(** What holds of the loop of [graph_read] after the lines [done]. *)
Definition RInv (float : string -> option Z) (c : Class)
                (done : list (list string)) (r : Reader) (g : Digraph)
  : Prop :=
  rd_graph r = Some (c, g) /\
  reachable c g /\
  dict_keys (_outgoing g) = map snd (rd_vertices r) /\
  map snd (rd_vertices r) = seq 0 (rd_vertex_ids r) /\
  NoDup (map fst (rd_vertices r)) /\
  (forall t, In t (map fst (rd_vertices r)) <-> In t (mentioned done)) /\
  (forall a b e, get2 (_outgoing g) a b = Some e ->
                 from_line float (rd_vertices r) done e) /\
  (forall (token : list string) (u v : string),
      In token done ->
      nth_error token 1 = Some u -> nth_error token 2 = Some v ->
      exists a b e,
        tag_get u (rd_vertices r) = Some a /\
        tag_get v (rd_vertices r) = Some b /\
        get2 (_outgoing g) a b = Some e).


(** The local dictionary [vertices] when [graph_read] returns. *)
Definition graph_read_vertices (float : string -> option Z) (header : string)
    (lines : list (list string)) : TagMap :=
  match read_lines float lines (read_header header) with
  | Read r => rd_vertices r
  | ReadRaise _ => []
  end.

(** The exception of a line the loop does not accept. *)
Definition line_error (token : list string) : read_exn :=
  if List.length token <? 3 then IndexError else FloatValueError.

(** A file of three lines: a weighted edge, an unweighted edge, and a line
    of five tokens. *)
Module ReadSample.
Definition float (t : string) : option Z :=
  if String.eqb t "3" then Some 3%Z else None.

Definition lines : list (list string) :=
  [["ab"; "a"; "b"; "3"]; ["bc"; "b"; "c"]; ["ca"; "c"; "a"; "x"; "y"]]%string.

Definition ab := mkEdge 0 0 1 "ab" 3.
Definition bc := mkEdge 1 1 2 "bc" 1.
Definition ca := mkEdge 2 2 0 "ca" 1.

Definition digraph : Digraph :=
  run_calls DigraphClass
    [call_insert_edge ab; call_insert_edge bc; call_insert_edge ca]
    Digraph_init.
End ReadSample.

(** ** [algorithms/slist.py]: class SinglyLinkedList

    A node object is known by its identity, a number; the heap maps the
    identities of the node objects that exist to their two slots, and
    [fresh] is the identity of the next object.  A position is a node
    object: [isinstance(position, self._Node)] holds by typing, which
    excludes the [TypeError] branch.  The element type [A] stands for the
    Python values, [PyNone] for [None].  A method receives the heap and the
    list object and returns both.  A Python program holds no reference to
    an object that does not exist; the methods answer such a reference as
    they answer [None], and no property below depends on it.  [__str__]
    and [__repr__] are not modelled. *)

Module Slist.
Section Elements.
Variable A : Type.
Variable PyNone : A.

Definition ref := nat.

(** [class _Node], [__slots__ = '_element', '_next'] *)
Record Node := mkNode {
  _element : A;
  _next : option ref
}.

Record World := mkWorld {
  heap : ref -> option Node;
  fresh : ref
}.

Record SinglyLinkedList := mkList {
  _sentinel : ref;
  _size : nat
}.

Inductive exn := EmptyListError | AttributeError.

Inductive result (R : Type) : Type :=
| Return (r : R)
| Raises (x : exn).

(** [node.attr = ...] on the object [p] *)
Definition store (h : ref -> option Node) (p : ref) (nd : Node)
  : ref -> option Node :=
  fun q => if q =? p then Some nd else h q.

(** [SinglyLinkedList()] *)
Definition __init__ (w : World) : World * SinglyLinkedList :=
  (mkWorld (store (heap w) (fresh w) (mkNode PyNone None)) (S (fresh w)),
   mkList (fresh w) 0).

Definition __len__ (l : SinglyLinkedList) : nat := _size l.

Definition is_empty (l : SinglyLinkedList) : bool := _size l =? 0.

(** [insert_back(e, position)]; [position = None] is the default. *)
Definition insert_back (e : A) (position : option ref)
                       (w : World) (l : SinglyLinkedList)
  : result ref * World * SinglyLinkedList :=
  let position :=
    match position with None => _sentinel l | Some p => p end in
  match heap w position with
  | None => (Raises ref AttributeError, w, l)
  | Some nd =>
      let node := fresh w in
      let h1 := store (heap w) node (mkNode e (_next nd)) in
      let h2 := store h1 position (mkNode (_element nd) (Some node)) in
      (Return node, mkWorld h2 (S node),
       mkList (_sentinel l) (S (_size l)))
  end.

(** [remove_back(position)] *)
Definition remove_back (position : ref) (w : World) (l : SinglyLinkedList)
  : result A * World * SinglyLinkedList :=
  if is_empty l then (Raises A EmptyListError, w, l)
  else
    match heap w position with
    | None => (Raises A AttributeError, w, l)
    | Some nd =>
        match _next nd with
        | None => (Raises A AttributeError, w, l)
        | Some n =>
            match heap w n with
            | None => (Raises A AttributeError, w, l)
            | Some nn =>
                (Return (_element nn),
                 mkWorld (store (heap w) position
                                (mkNode (_element nd) (_next nn)))
                         (fresh w),
                 mkList (_sentinel l) (pred (_size l)))
            end
        end
    end.

(** [first_element()] *)
Definition first_element (w : World) (l : SinglyLinkedList) : result A :=
  if is_empty l then Raises A EmptyListError
  else
    match heap w (_sentinel l) with
    | None => Raises A AttributeError
    | Some nd =>
        match _next nd with
        | None => Raises A AttributeError
        | Some n =>
            match heap w n with
            | None => Raises A AttributeError
            | Some nn => Return (_element nn)
            end
        end
    end.

(** [remove_first()] *)
Definition remove_first (w : World) (l : SinglyLinkedList)
  : result A * World * SinglyLinkedList :=
  remove_back (_sentinel l) w l.

(** The slot [_next] of the object [p], where the object exists. *)
Definition next (h : ref -> option Node) (p : ref) : option (option ref) :=
  option_map _next (h p).

(** Following [_next] from the object [p] visits the objects [ns], in this
    order, and then [None]. *)
Fixpoint path (h : ref -> option Node) (p : ref) (ns : list ref) : Prop :=
  match ns with
  | [] => next h p = Some None
  | n :: ns' => next h p = Some (Some n) /\ path h n ns'
  end.

(** Following [_next] from [p] visits [ns] and then the object [q]. *)
Fixpoint seg (h : ref -> option Node) (p : ref) (ns : list ref) (q : ref)
  : Prop :=
  match ns with
  | [] => next h p = Some (Some q)
  | n :: ns' => next h p = Some (Some n) /\ seg h n ns' q
  end.

(** The elements of the node objects [ns]. *)
Definition elements (h : ref -> option Node) (ns : list ref)
  : list (option A) :=
  map (fun n => option_map _element (h n)) ns.

(** No object has the identity [fresh] or a later one. *)
Definition unused (w : World) : Prop :=
  forall p, fresh w <= p -> heap w p = None.

(** The list object [l] holds the node objects [ns] behind its sentinel. *)
Definition holds (w : World) (l : SinglyLinkedList) (ns : list ref) : Prop :=
  unused w /\ path (heap w) (_sentinel l) ns.

(** [holds], and [_size] is the number of nodes. *)
Definition Repr (w : World) (l : SinglyLinkedList) (ns : list ref) : Prop :=
  holds w l ns /\ _size l = List.length ns.

End Elements.

Arguments Return {R} r.
Arguments Raises {R} x.
Arguments EmptyListError : clear implicits.
Arguments AttributeError : clear implicits.

(** The heap before the first object. *)
Definition nothing (A : Type) : World A := mkWorld (fun _ => None) 0.
End Slist.

(** The first calls of the script of [slist.py]:
    [first = sl.insert_back(1)], [second = sl.insert_back(2)]. *)
Module SlistSample.
Definition A := option Z.
Definition sl := Slist.__init__ (@None Z) (Slist.nothing A).
Definition first := Slist.insert_back (Some 1%Z) None (fst sl) (snd sl).
Definition w1 := snd (fst first).
Definition l1 := snd first.
Definition second := Slist.insert_back (Some 2%Z) None w1 l1.
Definition w2 := snd (fst second).
Definition l2 := snd second.
(** [sl.remove_first()] twice: the list is empty again, and the nodes
    [first] and [second] are no longer in it. *)
Definition w3 := snd (fst (Slist.remove_first w2 l2)).
Definition l3 := snd (Slist.remove_first w2 l2).
Definition w4 := snd (fst (Slist.remove_first w3 l3)).
Definition l4 := snd (Slist.remove_first w3 l3).
End SlistSample.
(** * Facts about dictionaries *)

Section DictFacts.
Variable V : Type.
Implicit Types (d : dict V) (k : Vertex) (x : V).

Lemma dict_get_set k k' x d :
  dict_get k' (dict_set k x d) = if k' =? k then Some x else dict_get k' d.
Proof.
  induction d as [|[k0 y] d IH]; simpl.
  - reflexivity.
  - destruct (k =? k0) eqn:E; simpl.
    + apply Nat.eqb_eq in E; subst k0.
      destruct (k' =? k); reflexivity.
    + rewrite IH. destruct (k' =? k0) eqn:E0; [|reflexivity].
      apply Nat.eqb_eq in E0; subst k0.
      rewrite Nat.eqb_sym, E. reflexivity.
Qed.

Lemma dict_get_pop k k' d :
  dict_get k' (dict_pop k d) = if k' =? k then None else dict_get k' d.
Proof.
  induction d as [|[k0 y] d IH]; simpl.
  - destruct (k' =? k); reflexivity.
  - destruct (k =? k0) eqn:E; simpl.
    + apply Nat.eqb_eq in E; subst k0. rewrite IH.
      destruct (k' =? k); reflexivity.
    + rewrite IH. destruct (k' =? k0) eqn:E0; [|reflexivity].
      apply Nat.eqb_eq in E0; subst k0.
      rewrite Nat.eqb_sym, E. reflexivity.
Qed.

Lemma dict_mem_set k k' x d :
  dict_mem k' (dict_set k x d) = (k' =? k) || dict_mem k' d.
Proof.
  unfold dict_mem. rewrite dict_get_set. destruct (k' =? k); reflexivity.
Qed.

Lemma dict_mem_pop k k' d :
  dict_mem k' (dict_pop k d) = negb (k' =? k) && dict_mem k' d.
Proof.
  unfold dict_mem. rewrite dict_get_pop. destruct (k' =? k); reflexivity.
Qed.

Lemma dict_mem_get k d :
  dict_mem k d = true <-> exists x, dict_get k d = Some x.
Proof.
  unfold dict_mem. destruct (dict_get k d); split; intros H.
  - eauto.
  - reflexivity.
  - discriminate.
  - destruct H; discriminate.
Qed.

Lemma dict_mem_false k d : dict_mem k d = false <-> dict_get k d = None.
Proof.
  unfold dict_mem. destruct (dict_get k d); split; congruence.
Qed.

Lemma In_keys_mem k d : In k (dict_keys d) <-> dict_mem k d = true.
Proof.
  unfold dict_mem. induction d as [|[k0 y] d IH]; simpl.
  - split; [tauto | discriminate].
  - destruct (k =? k0) eqn:E.
    + apply Nat.eqb_eq in E. split; auto.
    + apply Nat.eqb_neq in E. rewrite <- IH. split; [|tauto].
      intros [H|H]; [congruence | assumption].
Qed.

Lemma dict_keys_set_old k x d :
  dict_mem k d = true -> dict_keys (dict_set k x d) = dict_keys d.
Proof.
  unfold dict_mem. induction d as [|[k0 y] d IH]; simpl.
  - discriminate.
  - destruct (k =? k0) eqn:E; simpl.
    + apply Nat.eqb_eq in E. now subst.
    + intros H. now rewrite IH.
Qed.

Lemma dict_keys_set_new k x d :
  dict_mem k d = false -> dict_keys (dict_set k x d) = dict_keys d ++ [k].
Proof.
  unfold dict_mem. induction d as [|[k0 y] d IH]; simpl.
  - reflexivity.
  - destruct (k =? k0) eqn:E; simpl.
    + discriminate.
    + intros H. now rewrite IH.
Qed.

Lemma len_set k x d :
  len (dict_set k x d) = if dict_mem k d then len d else S (len d).
Proof.
  unfold len, dict_mem. induction d as [|[k0 y] d IH]; simpl.
  - reflexivity.
  - destruct (k =? k0) eqn:E; simpl.
    + reflexivity.
    + rewrite IH. destruct (dict_get k d); reflexivity.
Qed.

Lemma dict_wf_nil : dict_wf (@nil (Vertex * V)).
Proof. constructor. Qed.

Lemma dict_wf_set k x d : dict_wf d -> dict_wf (dict_set k x d).
Proof.
  unfold dict_wf. intros H.
  destruct (dict_mem k d) eqn:E.
  - now rewrite dict_keys_set_old.
  - rewrite dict_keys_set_new by assumption.
    apply NoDup_app; [assumption | repeat constructor; simpl; tauto |].
    intros a Ha [Hb|[]]. subst a.
    apply In_keys_mem in Ha. congruence.
Qed.

Lemma dict_wf_pop k d : dict_wf d -> dict_wf (dict_pop k d).
Proof.
  unfold dict_wf, dict_keys, dict_pop.
  induction d as [|[k0 y] d IH]; simpl; intros H.
  - constructor.
  - inversion H as [|? ? Hn Hd]; subst.
    destruct (k =? k0); simpl; [now apply IH|].
    constructor; [|now apply IH].
    intros Hin. apply Hn.
    apply in_map_iff in Hin. destruct Hin as [[a b] [Ha Hb]].
    apply filter_In in Hb. apply in_map_iff. exists (a, b). tauto.
Qed.

Lemma dict_get_In k x d : dict_get k d = Some x -> In (k, x) d.
Proof.
  induction d as [|[k0 y] d IH]; simpl; [discriminate|].
  destruct (k =? k0) eqn:E.
  - apply Nat.eqb_eq in E. intros [= <-]. left. now subst.
  - auto.
Qed.

Lemma dict_In_get k x d : dict_wf d -> In (k, x) d -> dict_get k d = Some x.
Proof.
  unfold dict_wf. induction d as [|[k0 y] d IH]; simpl; [tauto|].
  intros H [Hin|Hin]; inversion H as [|? ? Hn Hd]; subst.
  - injection Hin as -> ->. now rewrite Nat.eqb_refl.
  - destruct (k =? k0) eqn:E.
    + apply Nat.eqb_eq in E; subst k0. exfalso. apply Hn.
      apply in_map_iff. now exists (k, x).
    + auto.
Qed.

Lemma dict_set_comm k1 k2 x1 x2 d :
  k1 <> k2 -> dict_mem k1 d = true -> dict_mem k2 d = true ->
  dict_set k1 x1 (dict_set k2 x2 d) = dict_set k2 x2 (dict_set k1 x1 d).
Proof.
  unfold dict_mem. intros Hne.
  induction d as [|[k0 y] d IH]; simpl; [discriminate|].
  destruct (Nat.eqb_spec k1 k0) as [E1|E1], (Nat.eqb_spec k2 k0) as [E2|E2];
    simpl.
  - congruence.
  - subst k0. destruct (Nat.eqb_spec k2 k1); [congruence|].
    now rewrite Nat.eqb_refl.
  - subst k0. destruct (Nat.eqb_spec k1 k2); [congruence|].
    now rewrite Nat.eqb_refl.
  - destruct (Nat.eqb_spec k1 k0); [congruence|].
    destruct (Nat.eqb_spec k2 k0); [congruence|].
    intros H1 H2. now rewrite IH.
Qed.

Lemma dict_pop_comm k1 k2 d :
  dict_pop k1 (dict_pop k2 d) = dict_pop k2 (dict_pop k1 d).
Proof.
  unfold dict_pop. induction d as [|[k0 y] d IH]; simpl; [reflexivity|].
  destruct (k1 =? k0) eqn:E1, (k2 =? k0) eqn:E2; simpl;
    rewrite ?E1, ?E2; simpl; congruence.
Qed.

End DictFacts.

(** * Facts about adjacency maps *)

Implicit Types (m : AdjMap) (s : Digraph) (u v a b : Vertex) (e : Edge).

Lemma eqb_pair_true (a b u v : Vertex) :
  (a =? u) && (b =? v) = true <-> a = u /\ b = v.
Proof. rewrite andb_true_iff, !Nat.eqb_eq. tauto. Qed.

Lemma get2_adj_set m u v e a b :
  dict_mem u m = true ->
  get2 (adj_set m u v e) a b =
  if (a =? u) && (b =? v) then Some e else get2 m a b.
Proof.
  unfold adj_set, get2, dict_mem.
  destruct (dict_get u m) as [d|] eqn:E; [intros _|discriminate].
  rewrite dict_get_set.
  destruct (Nat.eqb_spec a u) as [->|Hne]; simpl.
  - rewrite dict_get_set, E. reflexivity.
  - reflexivity.
Qed.

Lemma get2_adj_pop m u v a b :
  get2 (adj_pop m u v) a b =
  if (a =? u) && (b =? v) then None else get2 m a b.
Proof.
  unfold adj_pop, get2.
  destruct (dict_get u m) as [d|] eqn:E.
  - rewrite dict_get_set.
    destruct (Nat.eqb_spec a u) as [->|Hne]; simpl.
    + rewrite dict_get_pop, E. reflexivity.
    + reflexivity.
  - destruct (Nat.eqb_spec a u) as [->|Hne]; simpl; [|reflexivity].
    rewrite E. destruct (b =? v); reflexivity.
Qed.

Lemma get2_dict_pop m v a b :
  get2 (dict_pop v m) a b = if a =? v then None else get2 m a b.
Proof.
  unfold get2. rewrite dict_get_pop. destruct (a =? v); reflexivity.
Qed.

Lemma get2_new_vertex m v a b :
  dict_mem v m = false -> get2 (@dict_set (dict Edge) v [] m) a b = get2 m a b.
Proof.
  unfold get2. intros H. rewrite dict_get_set.
  destruct (Nat.eqb_spec a v) as [Heq|Hne]; [subst a|reflexivity].
  apply dict_mem_false in H. rewrite H. reflexivity.
Qed.

Lemma get2_member_l m u v e : get2 m u v = Some e -> dict_mem u m = true.
Proof.
  unfold get2, dict_mem. destruct (dict_get u m); [reflexivity|discriminate].
Qed.

Lemma dict_mem_adj_set m u v e a :
  dict_mem a (adj_set m u v e) = dict_mem a m.
Proof.
  unfold adj_set. destruct (dict_get u m) as [d|] eqn:E; [|reflexivity].
  rewrite dict_mem_set. destruct (Nat.eqb_spec a u) as [->|Hne]; [|reflexivity].
  unfold dict_mem. rewrite E. reflexivity.
Qed.

Lemma dict_mem_adj_pop m u v a :
  dict_mem a (adj_pop m u v) = dict_mem a m.
Proof.
  unfold adj_pop. destruct (dict_get u m) as [d|] eqn:E; [|reflexivity].
  rewrite dict_mem_set. destruct (Nat.eqb_spec a u) as [->|Hne]; [|reflexivity].
  unfold dict_mem. rewrite E. reflexivity.
Qed.

Lemma dict_keys_adj_set m u v e : dict_keys (adj_set m u v e) = dict_keys m.
Proof.
  unfold adj_set. destruct (dict_get u m) as [d|] eqn:E; [|reflexivity].
  apply dict_keys_set_old. unfold dict_mem. now rewrite E.
Qed.

Lemma dict_keys_adj_pop m u v : dict_keys (adj_pop m u v) = dict_keys m.
Proof.
  unfold adj_pop. destruct (dict_get u m) as [d|] eqn:E; [|reflexivity].
  apply dict_keys_set_old. unfold dict_mem. now rewrite E.
Qed.

Lemma adj_wf_nil : adj_wf [].
Proof. split; [apply dict_wf_nil | discriminate]. Qed.

Lemma adj_wf_set m u d : adj_wf m -> dict_wf d -> adj_wf (dict_set u d m).
Proof.
  intros [Hm Hin] Hd. split; [now apply dict_wf_set|].
  intros a d'. rewrite dict_get_set.
  destruct (a =? u); [intros [= <-]; assumption | apply Hin].
Qed.

Lemma adj_wf_adj_set m u v e : adj_wf m -> adj_wf (adj_set m u v e).
Proof.
  intros H. unfold adj_set. destruct (dict_get u m) as [d|] eqn:E; [|exact H].
  apply adj_wf_set; [exact H|]. apply dict_wf_set. exact (proj2 H _ _ E).
Qed.

Lemma adj_wf_adj_pop m u v : adj_wf m -> adj_wf (adj_pop m u v).
Proof.
  intros H. unfold adj_pop. destruct (dict_get u m) as [d|] eqn:E; [|exact H].
  apply adj_wf_set; [exact H|]. apply dict_wf_pop. exact (proj2 H _ _ E).
Qed.

Lemma adj_wf_dict_pop m v : adj_wf m -> adj_wf (dict_pop v m).
Proof.
  intros [Hm Hin]. split; [now apply dict_wf_pop|].
  intros a d. rewrite dict_get_pop. destruct (a =? v); [discriminate|apply Hin].
Qed.

Lemma adj_set_comm m u v e e' :
  u <> v -> dict_mem u m = true -> dict_mem v m = true ->
  adj_set (adj_set m u v e) v u e' = adj_set (adj_set m v u e') u v e.
Proof.
  intros Hne Hu Hv. unfold adj_set, dict_mem in *.
  destruct (dict_get u m) as [du|] eqn:Eu; [|discriminate].
  destruct (dict_get v m) as [dv|] eqn:Ev; [|discriminate].
  rewrite !dict_get_set.
  destruct (Nat.eqb_spec v u); [congruence|].
  destruct (Nat.eqb_spec u v); [congruence|].
  rewrite Eu, Ev.
  apply dict_set_comm; unfold dict_mem; [congruence| |]; now rewrite ?Eu, ?Ev.
Qed.

Lemma adj_pop_comm m u v :
  u <> v -> dict_mem u m = true -> dict_mem v m = true ->
  adj_pop (adj_pop m u v) v u = adj_pop (adj_pop m v u) u v.
Proof.
  intros Hne Hu Hv. unfold adj_pop, dict_mem in *.
  destruct (dict_get u m) as [du|] eqn:Eu; [|discriminate].
  destruct (dict_get v m) as [dv|] eqn:Ev; [|discriminate].
  rewrite !dict_get_set.
  destruct (Nat.eqb_spec v u); [congruence|].
  destruct (Nat.eqb_spec u v); [congruence|].
  rewrite Eu, Ev.
  apply dict_set_comm; unfold dict_mem; [congruence| |]; now rewrite ?Eu, ?Ev.
Qed.

(** * The methods as state transformers *)

Lemma bind_ok A B (c : M A) (f : A -> M B) s (x : A) s' :
  c s = (Ok x, s') -> bind c f s = f x s'.
Proof. unfold bind. now intros ->. Qed.
Arguments bind_ok {A B c f s x s'} _.

Lemma bind_raise A B (c : M A) (f : A -> M B) s x s' :
  c s = (Raise x, s') -> bind c f s = (Raise x, s').
Proof. unfold bind. now intros ->. Qed.
Arguments bind_raise {A B c f s x s'} _.

Lemma contains_eq v s : contains v s = (Ok (member v s), s).
Proof.
  unfold contains, vertices, read, bind, ret, member. simpl.
  destruct (dict_mem v (_outgoing s)); reflexivity.
Qed.

Lemma validate_eq v s :
  _validate_vertex v s =
  if member v s then (Ok tt, s) else (Raise ValueError, s).
Proof.
  unfold _validate_vertex. rewrite (bind_ok (contains_eq v s)).
  destruct (member v s); reflexivity.
Qed.

Lemma getitem_eq V k (d : dict V) x s :
  dict_get k d = Some x -> getitem k d s = (Ok x, s).
Proof. unfold getitem. now intros ->. Qed.

Lemma edge_eq u v s :
  edge u v s =
  if member u s && member v s then (Ok (get2 (_outgoing s) u v), s)
  else (Raise ValueError, s).
Proof.
  unfold edge, bind. rewrite validate_eq.
  destruct (member u s) eqn:Hu; simpl; [|reflexivity].
  rewrite validate_eq.
  destruct (member v s) eqn:Hv; simpl; [|reflexivity].
  unfold member, dict_mem in Hu.
  destruct (dict_get u (_outgoing s)) as [d|] eqn:Eu; [|discriminate].
  unfold get2, getitem, read, dict_mem, ret. simpl. rewrite Eu.
  destruct (dict_get v d) eqn:Ev; simpl; rewrite ?Eu, ?Ev; reflexivity.
Qed.

Lemma insert_vertex_eq v s : insert_vertex v s = (Ok v, add_vertex v s).
Proof.
  unfold insert_vertex. rewrite (bind_ok (contains_eq v s)).
  unfold add_vertex, member. destruct (dict_mem v (_outgoing s)); reflexivity.
Qed.

Lemma setitem2_eq f u v e s :
  dict_mem u (field f s) = true ->
  setitem2 f u v e s = (Ok tt, with_field f (adj_set (field f s) u v e) s).
Proof.
  unfold setitem2, adj_set, dict_mem, bind, read, getitem, setitem.
  destruct (dict_get u (field f s)); [reflexivity|discriminate].
Qed.

Lemma pop2_eq f u v e s :
  get2 (field f s) u v = Some e ->
  pop2 f u v s = (Ok e, with_field f (adj_pop (field f s) u v) s).
Proof.
  unfold pop2, adj_pop, get2, bind, read, getitem, setitem.
  destruct (dict_get u (field f s)) as [d|]; [|discriminate].
  simpl. now intros ->.
Qed.

Lemma pop1_eq f v s :
  dict_mem v (field f s) = true ->
  exists d, pop1 f v s = (Ok d, with_field f (dict_pop v (field f s)) s).
Proof.
  unfold pop1, dict_mem, bind, read, getitem.
  destruct (dict_get v (field f s)) as [d|]; [|discriminate].
  intros _. now exists d.
Qed.

Lemma member_add_vertex v a s :
  member a (add_vertex v s) = (a =? v) || member a s.
Proof.
  unfold add_vertex, member.
  destruct (dict_mem v (_outgoing s)) eqn:E; simpl.
  - destruct (Nat.eqb_spec a v); [now subst|reflexivity].
  - apply dict_mem_set.
Qed.

Lemma Inv_init : Inv Digraph_init.
Proof.
  split; simpl; try reflexivity; try discriminate; apply adj_wf_nil.
Qed.

Lemma Inv_add_vertex v s : Inv s -> Inv (add_vertex v s).
Proof.
  intros H. unfold add_vertex.
  destruct (dict_mem v (_outgoing s)) eqn:E; [exact H|].
  assert (E' : dict_mem v (_incoming s) = false)
    by now rewrite <- (inv_keys H).
  split; simpl.
  - intros a. rewrite !dict_mem_set. now rewrite (inv_keys H).
  - intros a b. rewrite !get2_new_vertex by assumption. apply (inv_adj H).
  - intros a b e. rewrite get2_new_vertex by assumption. apply (inv_ends H).
  - apply adj_wf_set; [apply (inv_wf_out H) | apply dict_wf_nil].
  - apply adj_wf_set; [apply (inv_wf_inc H) | apply dict_wf_nil].
Qed.

Lemma Inv_link u v e s :
  Inv s -> member u s = true -> member v s = true ->
  endpoints e = (u, v) \/ endpoints e = (v, u) ->
  Inv (link u v e s).
Proof.
  intros H Hu Hv He. unfold member in *.
  assert (Hv' : dict_mem v (_incoming s) = true) by now rewrite <- (inv_keys H).
  split; simpl.
  - intros a. rewrite !dict_mem_adj_set. apply (inv_keys H).
  - intros a b. rewrite !get2_adj_set by assumption.
    rewrite (andb_comm (a =? u)). destruct ((b =? v) && (a =? u)); [reflexivity|].
    apply (inv_adj H).
  - intros a b e'. rewrite get2_adj_set by assumption.
    destruct ((a =? u) && (b =? v)) eqn:E.
    + apply eqb_pair_true in E. destruct E; subst. now intros [= <-].
    + apply (inv_ends H).
  - apply adj_wf_adj_set, (inv_wf_out H).
  - apply adj_wf_adj_set, (inv_wf_inc H).
Qed.

Lemma Inv_unlink u v s : Inv s -> Inv (unlink u v s).
Proof.
  intros H. split; simpl.
  - intros a. rewrite !dict_mem_adj_pop. apply (inv_keys H).
  - intros a b. rewrite !get2_adj_pop.
    rewrite (andb_comm (a =? u)). destruct ((b =? v) && (a =? u)); [reflexivity|].
    apply (inv_adj H).
  - intros a b e. rewrite get2_adj_pop.
    destruct ((a =? u) && (b =? v)); [discriminate|apply (inv_ends H)].
  - apply adj_wf_adj_pop, (inv_wf_out H).
  - apply adj_wf_adj_pop, (inv_wf_inc H).
Qed.

Lemma Inv_reverse s : Inv s -> Inv (mkDigraph (_incoming s) (_outgoing s)).
Proof.
  intros H. split; simpl.
  - intros a. symmetry. apply (inv_keys H).
  - intros a b. symmetry. apply (inv_adj H).
  - intros a b e Hab. rewrite <- (inv_adj H) in Hab.
    apply (inv_ends H) in Hab. tauto.
  - apply (inv_wf_inc H).
  - apply (inv_wf_out H).
Qed.

Lemma Inv_drop_vertex v s :
  Inv s ->
  (forall a, get2 (_outgoing s) a v = None /\ get2 (_outgoing s) v a = None) ->
  Inv (drop_vertex v s).
Proof.
  intros H Hv. split; simpl.
  - intros a. rewrite !dict_mem_pop. now rewrite (inv_keys H).
  - intros a b. rewrite !get2_dict_pop.
    destruct (Nat.eqb_spec a v) as [->|Ha], (Nat.eqb_spec b v) as [->|Hb];
      try reflexivity.
    + rewrite <- (inv_adj H). symmetry. apply Hv.
    + apply Hv.
    + apply (inv_adj H).
  - intros a b e. rewrite get2_dict_pop.
    destruct (a =? v); [discriminate|apply (inv_ends H)].
  - apply adj_wf_dict_pop, (inv_wf_out H).
  - apply adj_wf_dict_pop, (inv_wf_inc H).
Qed.

Lemma Digraph_insert_edge_eq e s :
  Inv s ->
  Digraph_insert_edge e s =
  (Ok e, link (_head e) (_tail e) e
           (add_vertex (_tail e) (add_vertex (_head e) s))).
Proof.
  intros H. unfold Digraph_insert_edge, endpoints.
  set (u := _head e). set (v := _tail e).
  set (s1 := add_vertex u s). set (s2 := add_vertex v s1).
  assert (H2 : Inv s2) by (apply Inv_add_vertex, Inv_add_vertex, H).
  assert (Hu : member u s2 = true).
  { unfold s2, s1. rewrite !member_add_vertex, Nat.eqb_refl.
    now rewrite orb_true_r. }
  assert (Hv : member v s2 = true).
  { unfold s2. now rewrite member_add_vertex, Nat.eqb_refl. }
  rewrite (bind_ok (contains_eq u s)).
  assert (E1 : ((if negb (member u s) then insert_vertex u ;;; ret tt
                 else ret tt) s) = (Ok tt, s1)).
  { unfold s1, add_vertex, member.
    destruct (dict_mem u (_outgoing s)) eqn:E; simpl; [reflexivity|].
    rewrite (bind_ok (insert_vertex_eq u s)).
    unfold add_vertex. now rewrite E. }
  rewrite (bind_ok E1).
  rewrite (bind_ok (contains_eq v s1)).
  assert (E2 : ((if negb (member v s1) then insert_vertex v ;;; ret tt
                 else ret tt) s1) = (Ok tt, s2)).
  { unfold s2, add_vertex, member.
    destruct (dict_mem v (_outgoing s1)) eqn:E; simpl; [reflexivity|].
    rewrite (bind_ok (insert_vertex_eq v s1)).
    unfold add_vertex. now rewrite E. }
  rewrite (bind_ok E2).
  rewrite (bind_ok (setitem2_eq Outgoing u v e s2 Hu)).
  assert (Hv' : dict_mem v (_incoming s2) = true)
    by now rewrite <- (inv_keys H2).
  rewrite (bind_ok (setitem2_eq Incoming v u e (with_field Outgoing _ s2) Hv')).
  reflexivity.
Qed.

Lemma ensure_vertex_eq u s :
  (if negb (member u s) then insert_vertex u ;;; ret tt else ret tt) s =
  (Ok tt, add_vertex u s).
Proof.
  unfold add_vertex, member.
  destruct (dict_mem u (_outgoing s)) eqn:E; simpl; [reflexivity|].
  rewrite (bind_ok (insert_vertex_eq u s)).
  unfold add_vertex. now rewrite E.
Qed.

Lemma link_step B u v e (rest : M B) s :
  member u s = true -> dict_mem v (_incoming s) = true ->
  (setitem2 Outgoing u v e ;;; setitem2 Incoming v u e ;;; rest) s =
  rest (link u v e s).
Proof.
  intros Hu Hv.
  rewrite (bind_ok (setitem2_eq Outgoing u v e s Hu)).
  rewrite (bind_ok (setitem2_eq Incoming v u e (with_field Outgoing _ s) Hv)).
  reflexivity.
Qed.

Lemma member_link u v e s a : member a (link u v e s) = member a s.
Proof. apply dict_mem_adj_set. Qed.

Lemma Graph_insert_edge_eq e s :
  Inv s ->
  Graph_insert_edge e s =
  (Ok e, link (_tail e) (_head e) e
           (link (_head e) (_tail e) e
              (add_vertex (_tail e) (add_vertex (_head e) s)))).
Proof.
  intros H. unfold Graph_insert_edge, endpoints.
  set (u := _head e). set (v := _tail e).
  set (s1 := add_vertex u s). set (s2 := add_vertex v s1).
  assert (H2 : Inv s2) by (apply Inv_add_vertex, Inv_add_vertex, H).
  assert (Hu : member u s2 = true).
  { unfold s2, s1. rewrite !member_add_vertex, Nat.eqb_refl.
    now rewrite orb_true_r. }
  assert (Hv : member v s2 = true).
  { unfold s2. now rewrite member_add_vertex, Nat.eqb_refl. }
  assert (Hu' : dict_mem u (_incoming s2) = true)
    by now rewrite <- (inv_keys H2).
  assert (Hv' : dict_mem v (_incoming s2) = true)
    by now rewrite <- (inv_keys H2).
  rewrite (bind_ok (contains_eq u s)), (bind_ok (ensure_vertex_eq u s)).
  fold s1.
  rewrite (bind_ok (contains_eq v s1)), (bind_ok (ensure_vertex_eq v s1)).
  fold s2.
  rewrite link_step by assumption.
  rewrite link_step; [reflexivity | now rewrite member_link |].
  simpl. now rewrite dict_mem_adj_set.
Qed.

Lemma Digraph_remove_edge_raise u v s :
  member u s && member v s = false ->
  Digraph_remove_edge u v s = (Raise ValueError, s).
Proof.
  intros H. unfold Digraph_remove_edge.
  apply bind_raise. rewrite edge_eq, H. reflexivity.
Qed.

Lemma Digraph_remove_edge_eq u v s :
  Inv s -> member u s && member v s = true ->
  Digraph_remove_edge u v s = (Ok (get2 (_outgoing s) u v), cut u v s).
Proof.
  intros H Hm. unfold Digraph_remove_edge, cut.
  assert (E : edge u v s = (Ok (get2 (_outgoing s) u v), s))
    by now rewrite edge_eq, Hm.
  rewrite (bind_ok E).
  destruct (get2 (_outgoing s) u v) as [e|] eqn:Eo; [|reflexivity].
  assert (Ei : get2 (_incoming s) v u = Some e) by now rewrite <- (inv_adj H).
  rewrite (bind_ok (f := fun _ => ret (Some e))
             (x := tt) (s' := unlink u v s)); [reflexivity|].
  rewrite (bind_ok (pop2_eq Outgoing u v s Eo)).
  rewrite (bind_ok (pop2_eq Incoming v u (with_field Outgoing _ s) Ei)).
  reflexivity.
Qed.

Lemma get2_cut u v s a b :
  get2 (_outgoing (cut u v s)) a b =
  if (a =? u) && (b =? v) then None else get2 (_outgoing s) a b.
Proof.
  unfold cut. destruct (get2 (_outgoing s) u v) eqn:E; simpl.
  - apply get2_adj_pop.
  - destruct ((a =? u) && (b =? v)) eqn:Eab; [|reflexivity].
    apply eqb_pair_true in Eab. destruct Eab; now subst.
Qed.

Lemma member_cut u v s a : member a (cut u v s) = member a s.
Proof.
  unfold cut, member. destruct (get2 (_outgoing s) u v); simpl;
    [apply dict_mem_adj_pop | reflexivity].
Qed.

Lemma keys_cut u v s :
  dict_keys (_outgoing (cut u v s)) = dict_keys (_outgoing s).
Proof.
  unfold cut. destruct (get2 (_outgoing s) u v); simpl;
    [apply dict_keys_adj_pop | reflexivity].
Qed.

Lemma Inv_cut u v s : Inv s -> Inv (cut u v s).
Proof.
  intros H. unfold cut. destruct (get2 (_outgoing s) u v);
    [now apply Inv_unlink | exact H].
Qed.

(** On an undirected graph the two maps stay identical, entry by entry and
    in the same order. *)
Lemma same_maps_link u v e s :
  member u s = true -> member v s = true -> _incoming s = _outgoing s ->
  _incoming (link v u e (link u v e s)) = _outgoing (link v u e (link u v e s)).
Proof.
  unfold member. intros Hu Hv E. simpl. rewrite E.
  destruct (Nat.eq_dec u v) as [->|Hne]; [reflexivity|].
  symmetry. now apply adj_set_comm.
Qed.

Lemma same_maps_cut u v s :
  Inv s -> member u s = true -> member v s = true ->
  _incoming s = _outgoing s ->
  _incoming (cut v u (cut u v s)) = _outgoing (cut v u (cut u v s)).
Proof.
  unfold member. intros H Hu Hv E.
  assert (Hsym : get2 (_outgoing s) v u = get2 (_outgoing s) u v).
  { rewrite (inv_adj H v u). now rewrite E. }
  unfold cut at 2 4.
  destruct (get2 (_outgoing s) u v) as [e|] eqn:Euv.
  - unfold cut. simpl. rewrite get2_adj_pop.
    destruct (Nat.eq_dec u v) as [->|Hne].
    + rewrite Nat.eqb_refl. simpl. now rewrite E.
    + destruct ((v =? u) && (u =? v)) eqn:Eb.
      { apply eqb_pair_true in Eb. destruct Eb. congruence. }
      rewrite Hsym. simpl. rewrite E. symmetry. now apply adj_pop_comm.
  - unfold cut. rewrite Hsym. exact E.
Qed.

(** * The invariant holds of every graph a program can build *)

Lemma remove_edge_raise c u v s :
  member u s && member v s = false ->
  remove_edge c u v s = (Raise ValueError, s).
Proof.
  intros H. destruct c; simpl.
  - now apply Digraph_remove_edge_raise.
  - unfold Graph_remove_edge. apply bind_raise.
    now apply Digraph_remove_edge_raise.
Qed.

Lemma remove_edge_members c u v s :
  ClassInv c s -> member u s = true -> member v s = true ->
  exists r, remove_edge c u v s = (Ok r, cuts c u v s).
Proof.
  intros H Hu Hv. destruct c; simpl in *.
  - eexists. apply Digraph_remove_edge_eq; [exact H|]. now rewrite Hu, Hv.
  - destruct H as [H _]. unfold Graph_remove_edge.
    rewrite (bind_ok (Digraph_remove_edge_eq u v H ltac:(now rewrite Hu, Hv))).
    eexists. apply Digraph_remove_edge_eq; [now apply Inv_cut|].
    now rewrite !member_cut, Hu, Hv.
Qed.

Lemma member_cuts c u v s a : member a (cuts c u v s) = member a s.
Proof. destruct c; simpl; now rewrite ?member_cut. Qed.

Lemma keys_cuts c u v s :
  dict_keys (_outgoing (cuts c u v s)) = dict_keys (_outgoing s).
Proof. destruct c; simpl; now rewrite ?keys_cut. Qed.

Lemma ClassInv_Inv c s : ClassInv c s -> Inv s.
Proof. destruct c; simpl; tauto. Qed.

Lemma ClassInv_cuts c u v s :
  ClassInv c s -> member u s = true -> member v s = true ->
  ClassInv c (cuts c u v s).
Proof.
  destruct c; simpl.
  - intros H _ _. now apply Inv_cut.
  - intros [H E] Hu Hv. split.
    + now apply Inv_cut, Inv_cut.
    + now apply same_maps_cut.
Qed.

Lemma get2_detach c v u s a b :
  get2 (_outgoing (detach c v u s)) a b =
  if (a =? u) && (b =? v) || (a =? v) && (b =? u) then None
  else get2 (_outgoing s) a b.
Proof.
  unfold detach. destruct c; simpl; rewrite !get2_cut;
    destruct ((a =? u) && (b =? v)), ((a =? v) && (b =? u)); reflexivity.
Qed.

Lemma member_detach c v u s a : member a (detach c v u s) = member a s.
Proof. unfold detach. now rewrite !member_cuts. Qed.

Lemma keys_detach c v u s :
  dict_keys (_outgoing (detach c v u s)) = dict_keys (_outgoing s).
Proof. unfold detach. now rewrite !keys_cuts. Qed.

Lemma ClassInv_detach c v u s :
  ClassInv c s -> member u s = true -> member v s = true ->
  ClassInv c (detach c v u s).
Proof.
  intros H Hu Hv. unfold detach.
  apply ClassInv_cuts; rewrite ?member_cuts; try assumption.
  now apply ClassInv_cuts.
Qed.

Lemma member_detach_all c v l s a :
  member a (detach_all c v l s) = member a s.
Proof.
  revert s. induction l as [|u l IH]; intros s; simpl; [reflexivity|].
  now rewrite IH, member_detach.
Qed.

Lemma keys_detach_all c v l s :
  dict_keys (_outgoing (detach_all c v l s)) = dict_keys (_outgoing s).
Proof.
  revert s. induction l as [|u l IH]; intros s; simpl; [reflexivity|].
  now rewrite IH, keys_detach.
Qed.

Lemma get2_detach_all c v l s a b :
  get2 (_outgoing (detach_all c v l s)) a b =
  if (b =? v) && existsb (Nat.eqb a) l || (a =? v) && existsb (Nat.eqb b) l
  then None else get2 (_outgoing s) a b.
Proof.
  revert s. induction l as [|u l IH]; intros s; simpl.
  - now rewrite !andb_false_r.
  - rewrite IH, get2_detach.
    destruct (b =? v), (a =? v), (a =? u), (b =? u),
      (existsb (Nat.eqb a) l), (existsb (Nat.eqb b) l); reflexivity.
Qed.

Lemma ClassInv_detach_all c v l s :
  ClassInv c s -> member v s = true ->
  (forall u, In u l -> member u s = true) ->
  ClassInv c (detach_all c v l s).
Proof.
  revert s. induction l as [|u l IH]; intros s H Hv Hl; simpl; [exact H|].
  apply IH.
  - apply ClassInv_detach; auto. apply Hl. now left.
  - now rewrite member_detach.
  - intros a Ha. rewrite member_detach. apply Hl. now right.
Qed.

Lemma remove_loop_eq c v l s :
  ClassInv c s -> member v s = true ->
  (forall u, In u l -> member u s = true) ->
  for_each l (fun u => remove_edge c u v ;;; remove_edge c v u ;;; ret tt) s =
  (Ok tt, detach_all c v l s).
Proof.
  revert s. induction l as [|u l IH]; intros s H Hv Hl; simpl; [reflexivity|].
  assert (Hu : member u s = true) by (apply Hl; now left).
  destruct (remove_edge_members c u v s H Hu Hv) as [r1 E1].
  assert (H1 : ClassInv c (cuts c u v s)) by now apply ClassInv_cuts.
  destruct (remove_edge_members c v u (cuts c u v s) H1) as [r2 E2];
    rewrite ?member_cuts; try assumption.
  rewrite (bind_ok (f := fun _ => for_each l _)
             (x := tt) (s' := detach c v u s)).
  - apply IH.
    + now apply ClassInv_detach.
    + now rewrite member_detach.
    + intros a Ha. rewrite member_detach. apply Hl. now right.
  - rewrite (bind_ok E1), (bind_ok E2). reflexivity.
Qed.

Lemma existsb_eqb_In a l : existsb (Nat.eqb a) l = true <-> In a l.
Proof.
  rewrite existsb_exists. split.
  - intros [x [Hx E]]. apply Nat.eqb_eq in E. now subst.
  - intros H. exists a. now rewrite Nat.eqb_refl.
Qed.

Lemma get2_nonmember_l s a b :
  member a s = false -> get2 (_outgoing s) a b = None.
Proof.
  unfold member, get2. intros H. apply dict_mem_false in H. now rewrite H.
Qed.

Lemma get2_nonmember_r s a b :
  Inv s -> member b s = false -> get2 (_outgoing s) a b = None.
Proof.
  unfold member. intros H Hb. rewrite (inv_adj H).
  rewrite (inv_keys H) in Hb. unfold get2.
  apply dict_mem_false in Hb. now rewrite Hb.
Qed.

Lemma member_keys s a :
  member a s = true <-> In a (dict_keys (_outgoing s)).
Proof. symmetry. apply In_keys_mem. Qed.

(** After the loop of [remove_vertex] no entry touches [v], the others are
    as they were. *)
Lemma get2_detached c v s a b :
  Inv s -> member v s = true ->
  get2 (_outgoing (detach_all c v (dict_keys (_outgoing s)) s)) a b =
  if (a =? v) || (b =? v) then None else get2 (_outgoing s) a b.
Proof.
  intros H Hv. rewrite get2_detach_all.
  set (l := dict_keys (_outgoing s)).
  assert (Hin : forall x, existsb (Nat.eqb x) l = member x s).
  { intros x. destruct (member x s) eqn:E.
    - apply existsb_eqb_In, member_keys, E.
    - destruct (existsb (Nat.eqb x) l) eqn:E'; [|reflexivity].
      apply existsb_eqb_In, member_keys in E'. congruence. }
  rewrite !Hin.
  destruct (Nat.eqb_spec a v) as [->|Ha], (Nat.eqb_spec b v) as [->|Hb];
    simpl; rewrite ?Hv; simpl; try reflexivity.
  - destruct (member b s) eqn:E; [reflexivity|].
    now apply get2_nonmember_r.
  - rewrite orb_false_r.
    destruct (member a s) eqn:E; [reflexivity|].
    now apply get2_nonmember_l.
Qed.

Lemma remove_vertex_raise c v s :
  member v s = false -> remove_vertex c v s = (Raise ValueError, s).
Proof.
  intros H. unfold remove_vertex. apply bind_raise.
  now rewrite validate_eq, H.
Qed.

Lemma remove_vertex_eq c v s :
  ClassInv c s -> member v s = true ->
  remove_vertex c v s =
  (Ok tt, drop_vertex v (detach_all c v (dict_keys (_outgoing s)) s)).
Proof.
  intros H Hv. unfold remove_vertex, remove_incident.
  assert (Ev : _validate_vertex v s = (Ok tt, s))
    by now rewrite validate_eq, Hv.
  rewrite (bind_ok Ev).
  set (s1 := detach_all c v (dict_keys (_outgoing s)) s).
  assert (E1 : (vs <- vertices ;;
                for_each (dict_keys vs)
                  (fun u => remove_edge c u v ;;; remove_edge c v u ;;; ret tt))
                 s = (Ok tt, s1)).
  { unfold vertices, read. unfold bind at 1. simpl.
    apply remove_loop_eq; auto. intros u Hu. now apply member_keys. }
  rewrite (bind_ok E1).
  assert (H1 : ClassInv c s1).
  { apply ClassInv_detach_all; auto. intros u Hu. now apply member_keys. }
  assert (Hv1 : member v s1 = true) by (unfold s1; now rewrite member_detach_all).
  assert (Hv1' : dict_mem v (_incoming s1) = true).
  { rewrite <- (inv_keys (ClassInv_Inv _ _ H1)). exact Hv1. }
  destruct (pop1_eq Incoming v s1 Hv1') as [d1 Ep1].
  rewrite (bind_ok Ep1).
  destruct (pop1_eq Outgoing v
              (with_field Incoming (dict_pop v (field Incoming s1)) s1) Hv1)
    as [d2 Ep2].
  rewrite (bind_ok Ep2). reflexivity.
Qed.

Lemma ClassInv_init c : ClassInv c Digraph_init.
Proof. destruct c; simpl; [|split]; try apply Inv_init. reflexivity. Qed.

Lemma ClassInv_add_vertex c v s : ClassInv c s -> ClassInv c (add_vertex v s).
Proof.
  destruct c; simpl.
  - apply Inv_add_vertex.
  - intros [H E]. split; [now apply Inv_add_vertex|].
    unfold add_vertex. destruct (dict_mem v (_outgoing s)); simpl; congruence.
Qed.

Lemma ClassInv_insert_edge c e s :
  ClassInv c s -> ClassInv c (exec (insert_edge c e) s).
Proof.
  intros H. unfold exec.
  set (s2 := add_vertex (_tail e) (add_vertex (_head e) s)).
  assert (H2 : ClassInv c s2) by now apply ClassInv_add_vertex, ClassInv_add_vertex.
  assert (Hu : member (_head e) s2 = true).
  { unfold s2. rewrite !member_add_vertex, Nat.eqb_refl.
    now rewrite orb_true_r. }
  assert (Hv : member (_tail e) s2 = true).
  { unfold s2. now rewrite member_add_vertex, Nat.eqb_refl. }
  destruct c; simpl in *.
  - rewrite Digraph_insert_edge_eq by assumption. simpl.
    apply Inv_link; auto.
  - destruct H as [H E], H2 as [H2 E2].
    rewrite Graph_insert_edge_eq by assumption. simpl. split.
    + apply Inv_link; rewrite ?member_link; auto.
      apply Inv_link; auto.
    + now apply same_maps_link.
Qed.

Lemma ClassInv_remove_edge c u v s :
  ClassInv c s -> ClassInv c (exec (remove_edge c u v) s).
Proof.
  intros H. unfold exec.
  destruct (member u s && member v s) eqn:E.
  - apply andb_true_iff in E. destruct E as [Hu Hv].
    destruct (remove_edge_members c u v s H Hu Hv) as [r ->]. simpl.
    now apply ClassInv_cuts.
  - now rewrite remove_edge_raise.
Qed.

Lemma ClassInv_drop_vertex c v s :
  ClassInv c s ->
  (forall a, get2 (_outgoing s) a v = None /\ get2 (_outgoing s) v a = None) ->
  ClassInv c (drop_vertex v s).
Proof.
  destruct c; simpl.
  - apply Inv_drop_vertex.
  - intros [H E] Hv. split; [now apply Inv_drop_vertex|]. simpl. now rewrite E.
Qed.

Lemma ClassInv_remove_vertex c v s :
  ClassInv c s -> ClassInv c (exec (remove_vertex c v) s).
Proof.
  intros H. unfold exec.
  destruct (member v s) eqn:Hv.
  - rewrite remove_vertex_eq by assumption. simpl.
    apply ClassInv_drop_vertex.
    + apply ClassInv_detach_all; auto. intros u Hu. now apply member_keys.
    + intros a. rewrite !get2_detached by (eauto using ClassInv_Inv).
      rewrite Nat.eqb_refl, orb_true_r. auto.
  - now rewrite remove_vertex_raise.
Qed.

Lemma ClassInv_reverse c s : ClassInv c s -> ClassInv c (exec reverse s).
Proof.
  unfold exec, reverse. destruct c; simpl.
  - apply Inv_reverse.
  - intros [H E]. split; [now apply Inv_reverse | now simpl].
Qed.

Lemma ClassInv_run_call c k s : ClassInv c s -> ClassInv c (run_call c k s).
Proof.
  intros H. destruct k; simpl.
  - unfold exec. rewrite insert_vertex_eq. now apply ClassInv_add_vertex.
  - now apply ClassInv_insert_edge.
  - now apply ClassInv_remove_edge.
  - now apply ClassInv_remove_vertex.
  - now apply ClassInv_reverse.
Qed.

Lemma reachable_ClassInv c s : reachable c s -> ClassInv c s.
Proof.
  induction 1; [apply ClassInv_init | now apply ClassInv_run_call].
Qed.

Lemma reachable_Inv c s : reachable c s -> Inv s.
Proof. intros H. eapply ClassInv_Inv, reachable_ClassInv, H. Qed.

Lemma reachable_run_calls c ks s :
  reachable c s -> reachable c (run_calls c ks s).
Proof.
  revert s. induction ks as [|k ks IH]; intros s H; simpl; [exact H|].
  apply IH. now constructor.
Qed.

(** * The queries *)

Lemma successors_eq v s :
  successors v s =
  if member v s then
    match dict_get v (_outgoing s) with
    | Some d => (Ok d, s)
    | None => (Raise KeyError, s)
    end
  else (Raise ValueError, s).
Proof.
  unfold successors, bind. rewrite validate_eq.
  destruct (member v s); [|reflexivity].
  unfold read, getitem. simpl. destruct (dict_get v (_outgoing s)); reflexivity.
Qed.

Lemma predecessors_eq v s :
  predecessors v s =
  if member v s then
    match dict_get v (_incoming s) with
    | Some d => (Ok d, s)
    | None => (Raise KeyError, s)
    end
  else (Raise ValueError, s).
Proof.
  unfold predecessors, bind. rewrite validate_eq.
  destruct (member v s); [|reflexivity].
  unfold read, getitem. simpl. destruct (dict_get v (_incoming s)); reflexivity.
Qed.

Lemma out_degree_eq v s :
  out_degree v s =
  if member v s then
    match dict_get v (_outgoing s) with
    | Some d => (Ok (len d), s)
    | None => (Raise KeyError, s)
    end
  else (Raise ValueError, s).
Proof.
  unfold out_degree, bind. rewrite validate_eq.
  destruct (member v s); [|reflexivity].
  unfold read, getitem. simpl. destruct (dict_get v (_outgoing s)); reflexivity.
Qed.

Lemma in_degree_eq v s :
  in_degree v s =
  if member v s then
    match dict_get v (_incoming s) with
    | Some d => (Ok (len d), s)
    | None => (Raise KeyError, s)
    end
  else (Raise ValueError, s).
Proof.
  unfold in_degree, bind. rewrite validate_eq.
  destruct (member v s); [|reflexivity].
  unfold read, getitem. simpl. destruct (dict_get v (_incoming s)); reflexivity.
Qed.

Lemma outgoing_edges_eq v s :
  outgoing_edges v s =
  if member v s then
    match dict_get v (_outgoing s) with
    | Some d => (Ok (dict_values d), s)
    | None => (Raise KeyError, s)
    end
  else (Raise ValueError, s).
Proof.
  unfold outgoing_edges, bind. rewrite validate_eq.
  destruct (member v s); [|reflexivity].
  unfold read, getitem. simpl. destruct (dict_get v (_outgoing s)); reflexivity.
Qed.

Lemma incoming_edges_eq v s :
  incoming_edges v s =
  if member v s then
    match dict_get v (_incoming s) with
    | Some d => (Ok (dict_values d), s)
    | None => (Raise KeyError, s)
    end
  else (Raise ValueError, s).
Proof.
  unfold incoming_edges, bind. rewrite validate_eq.
  destruct (member v s); [|reflexivity].
  unfold read, getitem. simpl. destruct (dict_get v (_incoming s)); reflexivity.
Qed.

Lemma vertex_count_eq s : vertex_count s = (Ok (len (_outgoing s)), s).
Proof. reflexivity. Qed.

Lemma sum_for_eq s (l : AdjMap) :
  (forall k d, In (k, d) l -> dict_get k (_outgoing s) = Some d) ->
  sum_for (dict_keys l)
    (fun v => m' <- read Outgoing ;; d <- getitem v m' ;; ret (len d)) s =
  (Ok (total l), s).
Proof.
  induction l as [|[k d] l IH]; intros H; simpl; [reflexivity|].
  unfold bind at 1. unfold read at 1. unfold bind at 1. simpl.
  unfold getitem at 1. rewrite (H k d) by now left. simpl.
  unfold bind at 1. rewrite IH by (intros; apply H; now right).
  reflexivity.
Qed.

Lemma edge_count_eq s :
  dict_wf (_outgoing s) -> edge_count s = (Ok (total (_outgoing s)), s).
Proof.
  intros H. unfold edge_count, bind at 1. simpl.
  apply sum_for_eq. intros k d. now apply dict_In_get.
Qed.

Lemma fold_update_concat (ls : list (list Edge)) acc :
  fold_left (fun result l => set_update result l) ls acc =
  set_update acc (List.concat ls).
Proof.
  revert acc. induction ls as [|l ls IH]; intros acc; simpl; [reflexivity|].
  rewrite IH. unfold set_update. now rewrite fold_left_app.
Qed.

Lemma edges_eq s :
  edges s = (Ok (set_update [] (all_edges (_outgoing s))), s).
Proof.
  unfold edges, bind, read, ret, all_edges. simpl. f_equal. f_equal.
  rewrite <- fold_update_concat.
  generalize (@nil Edge). generalize (dict_values (_outgoing s)).
  induction l as [|d l IH]; intros acc; simpl; [reflexivity|apply IH].
Qed.

Lemma sum_for_state (l : list Vertex) s :
  exec (sum_for l
          (fun v => m' <- read Outgoing ;; d <- getitem v m' ;; ret (len d)))
       s = s.
Proof.
  unfold exec. induction l as [|k l IH]; simpl; [reflexivity|].
  unfold bind at 1. unfold read at 1. unfold bind at 1. simpl.
  unfold getitem at 1. destruct (dict_get k (_outgoing s)); simpl;
    [|reflexivity].
  unfold bind at 1.
  destruct (sum_for l _ s) as [[n|x] s'] eqn:E; simpl in *; exact IH.
Qed.

(** The queries read the two maps and write nothing: the graphs a program
    can build are those its mutating calls build. *)
Lemma queries_keep_state s u v :
  exec (contains v) s = s /\ exec vertices s = s /\
  exec vertex_count s = s /\ exec edge_count s = s /\
  exec edges s = s /\ exec (edge u v) s = s /\
  exec (out_degree v) s = s /\ exec (in_degree v) s = s /\
  exec (successors v) s = s /\ exec (predecessors v) s = s /\
  exec (outgoing_edges v) s = s /\ exec (incoming_edges v) s = s.
Proof.
  unfold exec.
  rewrite contains_eq, edges_eq, edge_eq, out_degree_eq, in_degree_eq,
    successors_eq, predecessors_eq, outgoing_edges_eq, incoming_edges_eq.
  repeat split;
    try (destruct (member v s); simpl;
         try destruct (dict_get v (_outgoing s));
         try destruct (dict_get v (_incoming s)); reflexivity).
  - apply (sum_for_state (dict_keys (_outgoing s)) s).
  - destruct (member u s && member v s); reflexivity.
Qed.

(** ** Python sets of edges *)

Lemma Edge_eq_endpoints (x y : Edge) : Edge_eq x y = true <-> endpoints x = endpoints y.
Proof.
  unfold Edge_eq, endpoints. rewrite andb_true_iff, !Nat.eqb_eq.
  split; [intros [-> ->]; reflexivity | intros [= -> ->]; auto].
Qed.

Lemma existsb_Edge_eq e (r : list Edge) :
  existsb (Edge_eq e) r = true <-> In (endpoints e) (map endpoints r).
Proof.
  rewrite existsb_exists, in_map_iff. split.
  - intros [y [Hy E]]. exists y. apply Edge_eq_endpoints in E. auto.
  - intros [y [E Hy]]. exists y. split; [assumption|].
    now apply Edge_eq_endpoints.
Qed.

Lemma In_set_add (x : Edge) e (r : list Edge) : In x (set_add e r) -> In x r \/ x = e.
Proof.
  unfold set_add. destruct (existsb (Edge_eq e) r); [auto|].
  rewrite in_app_iff. simpl. intuition.
Qed.

Lemma set_add_incl (x : Edge) e (r : list Edge) : In x r -> In x (set_add e r).
Proof.
  unfold set_add. destruct (existsb (Edge_eq e) r); [auto|].
  rewrite in_app_iff. auto.
Qed.

Lemma set_add_has e (r : list Edge) :
  exists y, In y (set_add e r) /\ Edge_eq e y = true.
Proof.
  unfold set_add. destruct (existsb (Edge_eq e) r) eqn:E.
  - apply existsb_exists in E. exact E.
  - exists e. rewrite in_app_iff. simpl. split; [auto|].
    now apply Edge_eq_endpoints.
Qed.

Lemma set_add_distinct e (r : list Edge) :
  NoDup (map endpoints r) -> NoDup (map endpoints (set_add e r)).
Proof.
  unfold set_add. destruct (existsb (Edge_eq e) r) eqn:E; [auto|].
  intros H. rewrite map_app. simpl.
  apply NoDup_app; [assumption | repeat constructor; simpl; tauto |].
  intros p Hp [<-|[]].
  apply existsb_Edge_eq in Hp. congruence.
Qed.

Lemma In_set_update (x : Edge) (l r : list Edge) : In x (set_update r l) -> In x r \/ In x l.
Proof.
  unfold set_update. revert r. induction l as [|e l IH]; intros r; simpl.
  - auto.
  - intros H. apply IH in H. destruct H as [H|H]; [|auto].
    apply In_set_add in H. intuition.
Qed.

Lemma set_update_incl (x : Edge) (l r : list Edge) : In x r -> In x (set_update r l).
Proof.
  unfold set_update. revert r. induction l as [|e l IH]; intros r; simpl.
  - auto.
  - intros H. now apply IH, set_add_incl.
Qed.

Lemma set_update_has (x : Edge) (l r : list Edge) :
  In x l -> exists y, In y (set_update r l) /\ Edge_eq x y = true.
Proof.
  unfold set_update. revert r. induction l as [|e l IH]; intros r; simpl.
  - tauto.
  - intros [->|H]; [|now apply IH].
    destruct (set_add_has x r) as [y [Hy E]].
    exists y. split; [|assumption]. now apply (set_update_incl y l).
Qed.

Lemma set_update_distinct (l r : list Edge) :
  NoDup (map endpoints r) -> NoDup (map endpoints (set_update r l)).
Proof.
  unfold set_update. revert r. induction l as [|e l IH]; intros r; simpl.
  - auto.
  - intros H. now apply IH, set_add_distinct.
Qed.

Lemma set_NoDup (l : list Edge) : NoDup (set_update [] l).
Proof.
  apply (NoDup_map_inv endpoints), set_update_distinct. constructor.
Qed.

Lemma In_set_sub (x : Edge) (l : list Edge) : In x (set_update [] l) -> In x l.
Proof. intros H. apply In_set_update in H. simpl in H. tauto. Qed.

Lemma In_set_coherent (x : Edge) (l : list Edge) :
  (forall y z : Edge, In y l -> In z l -> Edge_eq y z = true -> y = z) ->
  In x l -> In x (set_update [] l).
Proof.
  intros Hc Hx. destruct (set_update_has x l [] Hx) as [y [Hy E]].
  assert (x = y) by (apply Hc; auto using In_set_sub). now subst.
Qed.

(** ** Entries of an adjacency map *)

Lemma In_all_edges m e :
  adj_wf m ->
  (In e (all_edges m) <-> exists u v, get2 m u v = Some e).
Proof.
  intros [Hm Hin]. unfold all_edges, get2. rewrite in_concat. split.
  - intros [l [Hl He]].
    apply in_map_iff in Hl. destruct Hl as [d [<- Hd]].
    apply in_map_iff in Hd. destruct Hd as [[u d'] [E Hd]].
    simpl in E. subst d'.
    apply in_map_iff in He. destruct He as [[v e'] [E He]].
    simpl in E. subst e'.
    apply (dict_In_get _ _ Hm) in Hd.
    exists u, v. rewrite Hd. apply dict_In_get; [|assumption].
    now apply (Hin u).
  - intros [u [v H]].
    destruct (dict_get u m) as [d|] eqn:E; [|discriminate].
    exists (dict_values d). split.
    + apply in_map. apply dict_get_In in E.
      change d with (snd (u, d)). now apply in_map.
    + apply dict_get_In in H. change e with (snd (v, e)). now apply in_map.
Qed.

Lemma total_set_old m u d d' :
  dict_get u m = Some d ->
  total (dict_set u d' m) + len d = total m + len d'.
Proof.
  unfold total. induction m as [|[k x] m IH]; simpl; [discriminate|].
  destruct (u =? k) eqn:E; simpl.
  - intros [= ->]. lia.
  - intros H. apply IH in H. lia.
Qed.

Lemma total_set_new m u :
  dict_mem u m = false -> total (@dict_set (dict Edge) u [] m) = total m.
Proof.
  unfold total, dict_mem. induction m as [|[k x] m IH]; simpl; [reflexivity|].
  destruct (u =? k) eqn:E; simpl; [discriminate|].
  intros H. now rewrite IH.
Qed.

Lemma total_adj_set m u v e :
  dict_mem u m = true ->
  total (adj_set m u v e) =
  match get2 m u v with Some _ => total m | None => S (total m) end.
Proof.
  unfold adj_set, get2, dict_mem.
  destruct (dict_get u m) as [d|] eqn:E; [intros _|discriminate].
  pose proof (@total_set_old m u d (dict_set v e d) E) as H.
  rewrite len_set in H. unfold dict_mem in H.
  destruct (dict_get v d); lia.
Qed.

Lemma len_adj_set m u v e : len (adj_set m u v e) = len m.
Proof.
  unfold adj_set. destruct (dict_get u m) as [d|] eqn:E; [|reflexivity].
  rewrite len_set. unfold dict_mem. now rewrite E.
Qed.

Lemma add_vertex_member v s : member v s = true -> add_vertex v s = s.
Proof. unfold add_vertex, member. now intros ->. Qed.

Lemma get2_add_vertex v s a b :
  get2 (_outgoing (add_vertex v s)) a b = get2 (_outgoing s) a b.
Proof.
  unfold add_vertex. destruct (dict_mem v (_outgoing s)) eqn:E; [reflexivity|].
  simpl. now apply get2_new_vertex.
Qed.

Lemma total_add_vertex v s :
  total (_outgoing (add_vertex v s)) = total (_outgoing s).
Proof.
  unfold add_vertex. destruct (dict_mem v (_outgoing s)) eqn:E; [reflexivity|].
  simpl. now apply total_set_new.
Qed.

Lemma has_key2_get2 m u v :
  has_key2 m u v = true <-> exists e, get2 m u v = Some e.
Proof.
  unfold has_key2, get2. destruct (dict_get u m) as [d|].
  - apply dict_mem_get.
  - split; [discriminate | intros [e H]; discriminate].
Qed.

(** * What [insert_edge] leaves behind *)

Lemma member_inserted s u v a :
  member a (add_vertex v (add_vertex u s)) = (a =? v) || ((a =? u) || member a s).
Proof. now rewrite !member_add_vertex. Qed.

Lemma Digraph_insert_edge_get2 e s a b :
  Inv s ->
  get2 (_outgoing (exec (Digraph_insert_edge e) s)) a b =
  if (a =? _head e) && (b =? _tail e) then Some e else get2 (_outgoing s) a b.
Proof.
  intros H. unfold exec. rewrite Digraph_insert_edge_eq by assumption. simpl.
  rewrite get2_adj_set, !get2_add_vertex; [reflexivity|].
  fold (member (_head e) (add_vertex (_tail e) (add_vertex (_head e) s))).
  rewrite member_inserted, Nat.eqb_refl. now rewrite orb_true_r.
Qed.

Lemma Graph_insert_edge_get2 e s a b :
  Inv s ->
  get2 (_outgoing (exec (Graph_insert_edge e) s)) a b =
  if (a =? _head e) && (b =? _tail e) || (a =? _tail e) && (b =? _head e)
  then Some e else get2 (_outgoing s) a b.
Proof.
  intros H. unfold exec. rewrite Graph_insert_edge_eq by assumption. simpl.
  set (s2 := add_vertex (_tail e) (add_vertex (_head e) s)).
  assert (Hu : member (_head e) s2 = true).
  { unfold s2. rewrite member_inserted, Nat.eqb_refl. now rewrite orb_true_r. }
  assert (Hv : member (_tail e) s2 = true).
  { unfold s2. now rewrite member_inserted, Nat.eqb_refl. }
  rewrite get2_adj_set by (now rewrite dict_mem_adj_set).
  rewrite get2_adj_set by assumption.
  unfold s2. rewrite !get2_add_vertex.
  destruct ((a =? _head e) && (b =? _tail e)),
           ((a =? _tail e) && (b =? _head e)); reflexivity.
Qed.

Lemma insert_edge_get2_same c e s :
  Inv s ->
  get2 (_outgoing (exec (insert_edge c e) s)) (_head e) (_tail e) = Some e.
Proof.
  intros H. destruct c; simpl.
  - rewrite Digraph_insert_edge_get2 by assumption. now rewrite !Nat.eqb_refl.
  - rewrite Graph_insert_edge_get2 by assumption. now rewrite !Nat.eqb_refl.
Qed.

Lemma insert_edge_returns c e s :
  Inv s -> eval (insert_edge c e) s = Ok e.
Proof.
  intros H. unfold eval. destruct c; simpl.
  - now rewrite Digraph_insert_edge_eq.
  - now rewrite Graph_insert_edge_eq.
Qed.

Lemma get2_inner m u v e :
  get2 m u v = Some e ->
  exists d, dict_get u m = Some d /\ dict_mem v d = true.
Proof.
  unfold get2. destruct (dict_get u m) as [d|]; [|discriminate].
  intros H. exists d. split; [reflexivity|]. apply dict_mem_get. eauto.
Qed.

Lemma get2_members s u v e :
  Inv s -> get2 (_outgoing s) u v = Some e ->
  member u s = true /\ member v s = true.
Proof.
  intros H E. split.
  - destruct (member u s) eqn:Hu; [reflexivity|].
    rewrite get2_nonmember_l in E by assumption. discriminate.
  - destruct (member v s) eqn:Hv; [reflexivity|].
    rewrite get2_nonmember_r in E by assumption. discriminate.
Qed.

Lemma eval_edge_Some s u v e :
  Inv s ->
  (eval (edge u v) s = Ok (Some e) <-> get2 (_outgoing s) u v = Some e).
Proof.
  intros H. unfold eval. rewrite edge_eq. split.
  - destruct (member u s && member v s); simpl; congruence.
  - intros E. destruct (get2_members _ _ H E) as [-> ->]. simpl. congruence.
Qed.

(** On a graph a program can build, the queries on a member return: the
    lookups [self._outgoing[v]] and [self._incoming[v]] that follow the
    validation find their key. *)
Lemma member_queries_return c s v :
  reachable c s -> member v s = true ->
  exists d d',
    eval (successors v) s = Ok d /\
    eval (predecessors v) s = Ok d' /\
    eval (out_degree v) s = Ok (len d) /\
    eval (in_degree v) s = Ok (len d') /\
    eval (outgoing_edges v) s = Ok (dict_values d) /\
    eval (incoming_edges v) s = Ok (dict_values d').
Proof.
  intros Hr Hv. pose proof (reachable_Inv Hr) as H.
  pose proof Hv as Hv'. unfold member in Hv'.
  rewrite (inv_keys H) in Hv'.
  unfold member in Hv. apply dict_mem_get in Hv, Hv'.
  destruct Hv as [d Ed], Hv' as [d' Ed'].
  assert (Hm : member v s = true).
  { unfold member. apply dict_mem_get. eauto. }
  exists d, d'. unfold eval.
  rewrite successors_eq, predecessors_eq, out_degree_eq, in_degree_eq,
    outgoing_edges_eq, incoming_edges_eq, Hm, Ed, Ed'.
  repeat split.
Qed.

(** * The properties of the specification *)

(** C1. On every graph a program can build, of either class, and for every
    edge [e] with endpoints [(u, v)]: [insert_edge(e)] returns [e], and
    afterwards [edge(u, v)] returns [e], [v] is a key of [successors(u)],
    [u] is a key of [predecessors(v)], and [u] and [v] are members. *)
Theorem insert_edge_records_edge (c : Class) (g : Digraph) (e : Edge)
                                 (u v : Vertex) :
  reachable c g -> endpoints e = (u, v) ->
  let g' := exec (insert_edge c e) g in
  eval (insert_edge c e) g = Ok e /\
  eval (edge u v) g' = Ok (Some e) /\
  (exists d, eval (successors u) g' = Ok d /\ dict_mem v d = true) /\
  (exists d, eval (predecessors v) g' = Ok d /\ dict_mem u d = true) /\
  eval (contains u) g' = Ok true /\
  eval (contains v) g' = Ok true.
Proof.
  intros Hr He g'. injection He as <- <-.
  pose proof (reachable_Inv Hr) as H.
  assert (H' : Inv g').
  { apply (@reachable_Inv c). exact (reach_call (call_insert_edge e) Hr). }
  pose proof (insert_edge_get2_same c e H) as Eo. fold g' in Eo.
  assert (Ei : get2 (_incoming g') (_tail e) (_head e) = Some e)
    by now rewrite <- (inv_adj H').
  destruct (get2_members _ _ H' Eo) as [Hu Hv].
  split; [now apply insert_edge_returns|].
  split; [now apply eval_edge_Some|].
  split; [|split; [|split]].
  - destruct (get2_inner _ _ _ Eo) as [d [Ed Hd]].
    exists d. split; [|assumption].
    unfold eval. now rewrite successors_eq, Hu, Ed.
  - destruct (get2_inner _ _ _ Ei) as [d [Ed Hd]].
    exists d. split; [|assumption].
    unfold eval. now rewrite predecessors_eq, Hv, Ed.
  - unfold eval. now rewrite contains_eq, Hu.
  - unfold eval. now rewrite contains_eq, Hv.
Qed.

Lemma Graph_remove_edge_get2 s u v a b :
  Inv s ->
  get2 (_outgoing (exec (Graph_remove_edge u v) s)) a b =
  if member u s && member v s then
    if (a =? u) && (b =? v) || (a =? v) && (b =? u) then None
    else get2 (_outgoing s) a b
  else get2 (_outgoing s) a b.
Proof.
  intros H. unfold exec. destruct (member u s && member v s) eqn:E.
  - apply andb_true_iff in E. destruct E as [Hu Hv].
    unfold Graph_remove_edge.
    rewrite (bind_ok (Digraph_remove_edge_eq u v H ltac:(now rewrite Hu, Hv))).
    rewrite Digraph_remove_edge_eq;
      [|now apply Inv_cut|now rewrite !member_cut, Hu, Hv].
    simpl. rewrite !get2_cut.
    destruct ((a =? u) && (b =? v)), ((a =? v) && (b =? u)); reflexivity.
  - change (Graph_remove_edge u v) with (remove_edge GraphClass u v).
    now rewrite remove_edge_raise.
Qed.

(** C2. On every undirected graph a program can build: an entry under
    [(u, v)] comes with an entry under [(v, u)] holding the same edge
    object, hence the same tag and distance; [Graph.insert_edge] creates
    both entries; [Graph.remove_edge(u, v)] leaves neither, in either
    map. *)
Theorem Graph_symmetry (g : Digraph) :
  reachable GraphClass g ->
  (forall u v e,
      eval (edge u v) g = Ok (Some e) ->
      exists e', eval (edge v u) g = Ok (Some e') /\ e' = e /\
                 _tag e' = _tag e /\ distance e' = distance e) /\
  (forall e,
      let g' := exec (Graph_insert_edge e) g in
      eval (edge (_head e) (_tail e)) g' = Ok (Some e) /\
      eval (edge (_tail e) (_head e)) g' = Ok (Some e)) /\
  (forall u v,
      let g' := exec (Graph_remove_edge u v) g in
      get2 (_outgoing g') u v = None /\ get2 (_outgoing g') v u = None /\
      get2 (_incoming g') u v = None /\ get2 (_incoming g') v u = None).
Proof.
  intros Hr. pose proof (reachable_Inv Hr) as H.
  destruct (reachable_ClassInv Hr) as [_ Eq].
  split; [|split].
  - intros u v e E. exists e. repeat split.
    apply eval_edge_Some in E; [|assumption].
    apply eval_edge_Some; [assumption|].
    rewrite (inv_adj H), Eq. exact E.
  - intros e g'.
    assert (H' : Inv g').
    { apply (@reachable_Inv GraphClass).
      exact (reach_call (call_insert_edge e) Hr). }
    split; (apply eval_edge_Some; [assumption|]); unfold g';
      rewrite Graph_insert_edge_get2 by assumption;
      rewrite !Nat.eqb_refl; simpl; now rewrite ?orb_true_r.
  - intros u v g'.
    assert (H' : Inv g').
    { apply (@reachable_Inv GraphClass).
      exact (reach_call (call_remove_edge u v) Hr). }
    assert (Ho : get2 (_outgoing g') u v = None /\
                 get2 (_outgoing g') v u = None).
    { unfold g'. rewrite !Graph_remove_edge_get2 by assumption.
      destruct (member u g) eqn:Hu, (member v g) eqn:Hv; simpl;
        rewrite ?Nat.eqb_refl; simpl; rewrite ?orb_true_r;
        auto using get2_nonmember_l, get2_nonmember_r. }
    destruct Ho as [Ho1 Ho2]. repeat split; try assumption.
    + now rewrite <- (inv_adj H').
    + now rewrite <- (inv_adj H').
Qed.

(** C3. On every graph a program can build from the empty graph: [v] is a
    key of [outgoing[u]] exactly when [u] is a key of [incoming[v]], exactly
    when [edge(u, v)] returns an edge; the two entries hold the same
    object, whose own endpoints are [(u, v)], or [(v, u)] after a reversal
    or on an undirected graph; and the two maps have the same keys. *)
Theorem adjacency_maps_consistent (c : Class) (g : Digraph) :
  reachable c g ->
  (forall u v,
      (has_key2 (_outgoing g) u v = true <->
       has_key2 (_incoming g) v u = true) /\
      (has_key2 (_outgoing g) u v = true <->
       exists e, eval (edge u v) g = Ok (Some e)) /\
      get2 (_outgoing g) u v = get2 (_incoming g) v u /\
      (forall e, eval (edge u v) g = Ok (Some e) ->
                 endpoints e = (u, v) \/ endpoints e = (v, u))) /\
  (forall v, In v (dict_keys (_outgoing g)) <->
             In v (dict_keys (_incoming g))).
Proof.
  intros Hr. pose proof (reachable_Inv Hr) as H. split.
  - intros u v. split; [|split; [|split]].
    + rewrite !has_key2_get2. now rewrite (inv_adj H).
    + rewrite has_key2_get2. split; intros [e E]; exists e;
        now apply eval_edge_Some.
    + apply (inv_adj H).
    + intros e E. apply eval_edge_Some in E; [|assumption].
      now apply (inv_ends H).
  - intros v. rewrite !In_keys_mem. now rewrite (inv_keys H).
Qed.

Lemma dict_all_None V (d : dict V) :
  (forall k, dict_get k d = None) -> d = [].
Proof.
  destruct d as [|[k x] d]; [reflexivity|].
  intros H. specialize (H k). simpl in H. rewrite Nat.eqb_refl in H.
  discriminate.
Qed.

Lemma remove_incident_eq c v s :
  ClassInv c s -> member v s = true ->
  remove_incident c v s =
  (Ok tt, detach_all c v (dict_keys (_outgoing s)) s).
Proof.
  intros H Hv. unfold remove_incident, vertices, read. unfold bind at 1.
  simpl. apply remove_loop_eq; auto. intros u Hu. now apply member_keys.
Qed.

Lemma remove_vertex_get2 c v s a b :
  ClassInv c s -> member v s = true ->
  get2 (_outgoing (exec (remove_vertex c v) s)) a b =
  if (a =? v) || (b =? v) then None else get2 (_outgoing s) a b.
Proof.
  intros H Hv. unfold exec. rewrite remove_vertex_eq by assumption. simpl.
  rewrite get2_dict_pop, get2_detached by (eauto using ClassInv_Inv).
  destruct (a =? v); reflexivity.
Qed.

Lemma remove_vertex_member c v s a :
  ClassInv c s -> member v s = true ->
  member a (exec (remove_vertex c v) s) = negb (a =? v) && member a s.
Proof.
  intros H Hv. unfold exec. rewrite remove_vertex_eq by assumption.
  unfold member. simpl. rewrite dict_mem_pop.
  fold (member a (detach_all c v (dict_keys (_outgoing s)) s)).
  now rewrite member_detach_all.
Qed.

(** C4. On every graph a program can build and for every member [v]:
    [remove_vertex(v)] returns; afterwards [v] is not a member and every
    query that validates [v] raises [ValueError]; no inner dictionary of
    either map has [v] as a key or holds an edge with endpoint [v], while
    the entries that do not touch [v] are kept; and when the loop over the
    vertices ends, before the two [pop] calls, the dictionaries of [v] in
    both maps are already empty. *)
Theorem remove_vertex_detaches (c : Class) (g : Digraph) (v : Vertex) :
  reachable c g -> member v g = true ->
  let g1 := exec (remove_incident c v) g in
  let g' := exec (remove_vertex c v) g in
  eval (remove_vertex c v) g = Ok tt /\
  eval (contains v) g' = Ok false /\
  (forall x,
      eval (edge v x) g' = Raise ValueError /\
      eval (edge x v) g' = Raise ValueError /\
      eval (remove_edge c v x) g' = Raise ValueError /\
      eval (remove_edge c x v) g' = Raise ValueError) /\
  (eval (out_degree v) g' = Raise ValueError /\
   eval (in_degree v) g' = Raise ValueError /\
   eval (successors v) g' = Raise ValueError /\
   eval (predecessors v) g' = Raise ValueError /\
   eval (outgoing_edges v) g' = Raise ValueError /\
   eval (incoming_edges v) g' = Raise ValueError /\
   eval (remove_vertex c v) g' = Raise ValueError) /\
  (forall u d,
      dict_get u (_outgoing g') = Some d \/
      dict_get u (_incoming g') = Some d ->
      u <> v /\ dict_mem v d = false /\
      forall w e, dict_get w d = Some e -> _head e <> v /\ _tail e <> v) /\
  (forall a b,
      a <> v -> b <> v ->
      get2 (_outgoing g') a b = get2 (_outgoing g) a b /\
      get2 (_incoming g') a b = get2 (_incoming g) a b) /\
  dict_get v (_outgoing g1) = Some [] /\
  dict_get v (_incoming g1) = Some [] /\
  g' = drop_vertex v g1.
Proof.
  intros Hr Hv g1 g'.
  pose proof (reachable_ClassInv Hr) as HC.
  pose proof (reachable_Inv Hr) as H.
  assert (H' : Inv g').
  { apply (@reachable_Inv c). exact (reach_call (call_remove_vertex v) Hr). }
  assert (Eg1 : g1 = detach_all c v (dict_keys (_outgoing g)) g).
  { unfold g1, exec. now rewrite remove_incident_eq. }
  assert (Eg' : g' = drop_vertex v g1).
  { unfold g', exec. rewrite remove_vertex_eq by assumption. now rewrite Eg1. }
  assert (Hm : member v g' = false).
  { unfold g'. rewrite remove_vertex_member by assumption.
    now rewrite Nat.eqb_refl. }
  assert (Ho : forall a b, get2 (_outgoing g') a b =
                 if (a =? v) || (b =? v) then None
                 else get2 (_outgoing g) a b).
  { intros a b. now apply remove_vertex_get2. }
  split; [unfold eval; now rewrite remove_vertex_eq|].
  split; [unfold eval; now rewrite contains_eq, Hm|].
  split; [|split; [|split; [|split; [|split; [|split]]]]].
  - intros x. unfold eval. rewrite !edge_eq, !remove_edge_raise;
      rewrite ?Hm, ?andb_false_r; auto.
  - unfold eval.
    rewrite out_degree_eq, in_degree_eq, successors_eq, predecessors_eq,
      outgoing_edges_eq, incoming_edges_eq, remove_vertex_raise, Hm; auto 10.
  - assert (Hout : forall u d w e,
               dict_get u (_outgoing g') = Some d -> dict_get w d = Some e ->
               get2 (_outgoing g') u w = Some e).
    { intros u d w e Ed Ew. unfold get2. now rewrite Ed. }
    assert (Hinc : forall u d w e,
               dict_get u (_incoming g') = Some d -> dict_get w d = Some e ->
               get2 (_outgoing g') w u = Some e).
    { intros u d w e Ed Ew. rewrite (inv_adj H'). unfold get2. now rewrite Ed. }
    assert (Hfree : forall a b e, get2 (_outgoing g') a b = Some e ->
               a <> v /\ b <> v /\ _head e <> v /\ _tail e <> v).
    { intros a b e E. pose proof E as E0. rewrite Ho in E.
      destruct (Nat.eqb_spec a v) as [|Ha]; [discriminate|].
      destruct (Nat.eqb_spec b v) as [|Hb]; [discriminate|].
      simpl in E. apply (inv_ends H') in E0. unfold endpoints in E0.
      destruct E0 as [[= -> ->]|[= -> ->]]; auto. }
    intros u d [Ed|Ed]; (split; [|split]).
    + intros ->. unfold member, dict_mem in Hm. now rewrite Ed in Hm.
    + destruct (dict_mem v d) eqn:Em; [|reflexivity].
      apply dict_mem_get in Em. destruct Em as [e Ee].
      destruct (Hfree _ _ _ (Hout _ _ _ _ Ed Ee)). tauto.
    + intros w e Ew. destruct (Hfree _ _ _ (Hout _ _ _ _ Ed Ew)). tauto.
    + intros ->. unfold member in Hm. rewrite (inv_keys H') in Hm.
      unfold dict_mem in Hm. now rewrite Ed in Hm.
    + destruct (dict_mem v d) eqn:Em; [|reflexivity].
      apply dict_mem_get in Em. destruct Em as [e Ee].
      destruct (Hfree _ _ _ (Hinc _ _ _ _ Ed Ee)). tauto.
    + intros w e Ew. destruct (Hfree _ _ _ (Hinc _ _ _ _ Ed Ew)). tauto.
  - intros a b Ha Hb. split.
    + rewrite Ho. apply Nat.eqb_neq in Ha, Hb. now rewrite Ha, Hb.
    + rewrite <- (inv_adj H'), <- (inv_adj H), Ho.
      apply Nat.eqb_neq in Ha, Hb. now rewrite Ha, Hb.
  - assert (Hv1 : member v g1 = true)
      by (rewrite Eg1; now rewrite member_detach_all).
    unfold member, dict_mem in Hv1.
    destruct (dict_get v (_outgoing g1)) as [d|] eqn:Ed; [|discriminate].
    f_equal. apply dict_all_None. intros k.
    assert (E : get2 (_outgoing g1) v k = None).
    { rewrite Eg1, get2_detached by assumption. now rewrite Nat.eqb_refl. }
    unfold get2 in E. now rewrite Ed in E.
  - assert (HC1 : ClassInv c g1).
    { rewrite Eg1. apply ClassInv_detach_all; auto.
      intros u Hu. now apply member_keys. }
    pose proof (ClassInv_Inv _ _ HC1) as H1.
    assert (Hv1 : member v g1 = true)
      by (rewrite Eg1; now rewrite member_detach_all).
    unfold member in Hv1. rewrite (inv_keys H1) in Hv1. unfold dict_mem in Hv1.
    destruct (dict_get v (_incoming g1)) as [d|] eqn:Ed; [|discriminate].
    f_equal. apply dict_all_None. intros k.
    assert (E : get2 (_incoming g1) v k = None).
    { rewrite <- (inv_adj H1), Eg1, get2_detached by assumption.
      now rewrite Nat.eqb_refl, orb_true_r. }
    unfold get2 in E. now rewrite Ed in E.
  - exact Eg'.
Qed.

(** C5. On every directed graph a program can build,
    [Digraph.remove_edge(u, v)] raises exactly when [u] or [v] is not a
    member, the exception is then [ValueError] and the graph is as before;
    when [edge(u, v)] returns [None] it returns [None] and the graph is as
    before; when [edge(u, v)] returns [e] it returns [e], the entry is gone
    from both maps and every other entry is kept. *)
Theorem remove_edge_cases (g : Digraph) (u v : Vertex) :
  reachable DigraphClass g ->
  let r := eval (Digraph_remove_edge u v) g in
  let g' := exec (Digraph_remove_edge u v) g in
  ((exists x, r = Raise x) <-> member u g = false \/ member v g = false) /\
  (member u g = false \/ member v g = false ->
   r = Raise ValueError /\ g' = g) /\
  (eval (edge u v) g = Ok None -> r = Ok None /\ g' = g) /\
  (forall e,
      eval (edge u v) g = Ok (Some e) ->
      r = Ok (Some e) /\
      get2 (_outgoing g') u v = None /\
      get2 (_incoming g') v u = None /\
      forall a b, (a, b) <> (u, v) ->
                  get2 (_outgoing g') a b = get2 (_outgoing g) a b /\
                  get2 (_incoming g') b a = get2 (_incoming g) b a).
Proof.
  intros Hr r g'. pose proof (reachable_Inv Hr) as H.
  assert (H' : Inv g').
  { apply (@reachable_Inv DigraphClass).
    exact (reach_call (call_remove_edge u v) Hr). }
  assert (Hbad : member u g = false \/ member v g = false ->
                 r = Raise ValueError /\ g' = g).
  { intros Hm. unfold r, g', eval, exec.
    rewrite Digraph_remove_edge_raise; [auto|].
    destruct Hm as [-> | ->]; now rewrite ?andb_false_r. }
  assert (Hgood : member u g && member v g = true ->
                  r = Ok (get2 (_outgoing g) u v) /\ g' = cut u v g).
  { intros Hm. unfold r, g', eval, exec.
    now rewrite Digraph_remove_edge_eq. }
  split; [|split; [exact Hbad|split]].
  - split.
    + intros [x Ex]. destruct (member u g) eqn:Hu; [|auto].
      destruct (member v g) eqn:Hv; [|auto].
      destruct (Hgood eq_refl) as [Er _]. congruence.
    + intros Hm. exists ValueError. now apply Hbad.
  - intros E. unfold eval in E. rewrite edge_eq in E.
    destruct (member u g && member v g) eqn:Hm; [|discriminate].
    simpl in E. injection E as E.
    destruct (Hgood eq_refl) as [Er Eg]. rewrite Er, Eg, E.
    split; [reflexivity|]. unfold cut. now rewrite E.
  - intros e E. apply eval_edge_Some in E; [|assumption].
    destruct (get2_members _ _ H E) as [Hu Hv].
    destruct (Hgood ltac:(now rewrite Hu, Hv)) as [Er Eg].
    assert (Ho : forall a b, get2 (_outgoing g') a b =
                   if (a =? u) && (b =? v) then None
                   else get2 (_outgoing g) a b).
    { intros a b. rewrite Eg. apply get2_cut. }
    split; [congruence|]. split; [|split].
    + rewrite Ho. now rewrite !Nat.eqb_refl.
    + rewrite <- (inv_adj H'), Ho. now rewrite !Nat.eqb_refl.
    + intros a b Hab.
      assert (Eab : (a =? u) && (b =? v) = false).
      { destruct ((a =? u) && (b =? v)) eqn:Eab; [|reflexivity].
        apply eqb_pair_true in Eab. destruct Eab; subst. congruence. }
      split.
      * now rewrite Ho, Eab.
      * now rewrite <- (inv_adj H'), <- (inv_adj H), Ho, Eab.
Qed.

(** C6. [reverse()] returns after swapping the two maps, and a second
    [reverse()] restores the state; on a graph a program can build, every
    query after one [reverse()] answers what the opposite query answered
    before. *)
Theorem reverse_involution (c : Class) (g : Digraph) :
  exec reverse (exec reverse g) = g /\
  eval reverse g = Ok tt /\
  _outgoing (exec reverse g) = _incoming g /\
  _incoming (exec reverse g) = _outgoing g /\
  (reachable c g ->
   forall u v,
     eval (successors v) (exec reverse g) = eval (predecessors v) g /\
     eval (predecessors v) (exec reverse g) = eval (successors v) g /\
     eval (out_degree v) (exec reverse g) = eval (in_degree v) g /\
     eval (in_degree v) (exec reverse g) = eval (out_degree v) g /\
     eval (outgoing_edges v) (exec reverse g) = eval (incoming_edges v) g /\
     eval (incoming_edges v) (exec reverse g) = eval (outgoing_edges v) g /\
     eval (edge u v) (exec reverse g) = eval (edge v u) g).
Proof.
  split; [now destruct g|]. do 3 (split; [reflexivity|]).
  intros Hr u v. pose proof (reachable_Inv Hr) as H.
  assert (Hm : forall a, member a (exec reverse g) = member a g).
  { intros a. unfold member. simpl. symmetry. apply (inv_keys H). }
  unfold eval.
  rewrite !successors_eq, !predecessors_eq, !out_degree_eq, !in_degree_eq,
    !outgoing_edges_eq, !incoming_edges_eq, !edge_eq, !Hm.
  simpl. rewrite <- (inv_adj H), (andb_comm (member u g)).
  destruct (member v g), (member u g); simpl;
    destruct (dict_get v (_incoming g)), (dict_get v (_outgoing g));
    repeat split; reflexivity.
Qed.

(** C7, for graphs that do not hold [e1] under [(v, u)] as well.  On every
    directed graph a program can build that holds [e1] under [(u, v)] and
    not also under [(v, u)], inserting a different edge object [e2] with
    endpoints [(u, v)] replaces [e1]: [edge(u, v)] returns [e2], the object
    [e1] is not in [edges()], and [vertex_count()] and [edge_count()] are as
    before. *)
Theorem overwrite_last_write_wins (g : Digraph) (e1 e2 : Edge)
                                  (u v : Vertex) :
  reachable DigraphClass g ->
  eval (edge u v) g = Ok (Some e1) ->
  endpoints e2 = (u, v) ->
  e2 <> e1 ->
  u = v \/ eval (edge v u) g <> Ok (Some e1) ->
  overwritten g e1 e2.
Proof.
  intros Hr E He Hne Hrev. pose proof (reachable_Inv Hr) as H.
  injection He as <- <-.
  set (u := _head e2) in *. set (v := _tail e2) in *.
  apply eval_edge_Some in E; [|assumption].
  destruct (get2_members _ _ H E) as [Hu Hv].
  unfold overwritten. set (g' := exec (Digraph_insert_edge e2) g).
  assert (H' : Inv g').
  { apply (@reachable_Inv DigraphClass).
    exact (reach_call (call_insert_edge e2) Hr). }
  assert (Ho : forall a b, get2 (_outgoing g') a b =
                 if (a =? u) && (b =? v) then Some e2
                 else get2 (_outgoing g) a b).
  { intros a b. now apply Digraph_insert_edge_get2. }
  assert (Eg : g' = link u v e2 g).
  { unfold g', exec. rewrite Digraph_insert_edge_eq by assumption. simpl.
    fold u v. now rewrite (add_vertex_member u g Hu), (add_vertex_member v g Hv). }
  split; [|split; [|split]].
  - apply eval_edge_Some; [assumption|]. rewrite Ho.
    now rewrite !Nat.eqb_refl.
  - exists (set_update [] (all_edges (_outgoing g'))).
    split; [unfold eval; now rewrite edges_eq|].
    intros Hin. apply In_set_sub in Hin.
    apply In_all_edges in Hin; [|apply (inv_wf_out H')].
    destruct Hin as [a [b Eab]]. rewrite Ho in Eab.
    destruct ((a =? u) && (b =? v)) eqn:Ep; [congruence|].
    assert (Hab : ~ (a = u /\ b = v)).
    { intros Hp. apply eqb_pair_true in Hp. congruence. }
    pose proof (inv_ends H _ _ Eab) as P1.
    pose proof (inv_ends H _ _ E) as P2.
    assert (a = v /\ b = u) as [-> ->].
    { destruct P1 as [P1|P1], P2 as [P2|P2]; rewrite P1 in P2;
        injection P2 as -> ->; tauto. }
    destruct Hrev as [Huv|Hrev].
    + apply Hab. auto.
    + apply Hrev. now apply eval_edge_Some.
  - exists (len (_outgoing g)). unfold eval. rewrite !vertex_count_eq. simpl.
    split; [reflexivity|]. rewrite Eg. simpl. now rewrite len_adj_set.
  - exists (total (_outgoing g)). unfold eval.
    rewrite !edge_count_eq by (apply inv_wf_out; assumption). simpl.
    split; [reflexivity|]. rewrite Eg. simpl.
    rewrite total_adj_set by exact Hu. now rewrite E.
Qed.

(** Two edges that the maps of an undirected graph hold and that
    [Edge.__eq__] identifies are one object. *)
Lemma Graph_coherent g (x y : Edge) :
  ClassInv GraphClass g ->
  In x (all_edges (_outgoing g)) -> In y (all_edges (_outgoing g)) ->
  Edge_eq x y = true -> x = y.
Proof.
  intros [H Eq] Hx Hy E.
  apply In_all_edges in Hx; [|apply (inv_wf_out H)].
  apply In_all_edges in Hy; [|apply (inv_wf_out H)].
  destruct Hx as [a [b Ex]], Hy as [a' [b' Ey]].
  apply Edge_eq_endpoints in E.
  assert (Hsym : forall p q z, get2 (_outgoing g) p q = Some z ->
                               get2 (_outgoing g) q p = Some z).
  { intros p q z Ez. now rewrite (inv_adj H), Eq. }
  pose proof (inv_ends H _ _ Ex) as P1.
  pose proof (inv_ends H _ _ Ey) as P2.
  pose proof (Hsym _ _ _ Ex) as Ex'.
  rewrite E in P1.
  destruct P1 as [P1|P1], P2 as [P2|P2]; rewrite P1 in P2;
    injection P2 as -> ->; congruence.
Qed.

Lemma Graph_In_edges g (x : Edge) :
  ClassInv GraphClass g ->
  (In x (set_update [] (all_edges (_outgoing g))) <->
   exists a b, get2 (_outgoing g) a b = Some x).
Proof.
  intros HC. rewrite <- In_all_edges by (apply inv_wf_out, HC). split.
  - apply In_set_sub.
  - apply In_set_coherent. intros y z. now apply Graph_coherent.
Qed.

(** C9. On every undirected graph a program can build the incoming map is
    the outgoing map, key by key and entry by entry, in the same order, so
    that [reverse()] leaves the state, and with it the answer of every
    query, as it was. *)
Theorem Graph_incoming_redundant (g : Digraph) :
  reachable GraphClass g ->
  _incoming g = _outgoing g /\
  exec reverse g = g /\
  (forall (A : Type) (query : M A), query (exec reverse g) = query g) /\
  (forall u v,
      eval (edge u v) (exec reverse g) = eval (edge u v) g /\
      eval (successors v) (exec reverse g) = eval (successors v) g /\
      eval (predecessors v) (exec reverse g) = eval (predecessors v) g /\
      eval (out_degree v) (exec reverse g) = eval (out_degree v) g /\
      eval (in_degree v) (exec reverse g) = eval (in_degree v) g) /\
  eval edges (exec reverse g) = eval edges g.
Proof.
  intros Hr. destruct (reachable_ClassInv Hr) as [_ Eq].
  assert (Er : exec reverse g = g).
  { unfold exec, reverse. destruct g as [o i]. simpl in *. now subst i. }
  split; [exact Eq|]. split; [exact Er|]. rewrite Er.
  repeat split; reflexivity.
Qed.

(** C10. On every undirected graph a program can build, inserting an edge
    [e] with endpoints [(u, v)] where no entry is recorded under [(u, v)]
    raises [edge_count()] by two when [u] and [v] differ and by one when
    they are the same vertex, while [edges()] gains the one object [e]. *)
Theorem Graph_insert_edge_counts (g : Digraph) (e : Edge) (u v : Vertex) :
  reachable GraphClass g ->
  endpoints e = (u, v) ->
  get2 (_outgoing g) u v = None ->
  let g' := exec (Graph_insert_edge e) g in
  exists n es es',
    eval edge_count g = Ok n /\
    eval edge_count g' = Ok (if u =? v then n + 1 else n + 2) /\
    eval edges g = Ok es /\
    eval edges g' = Ok es' /\
    Permutation es' (e :: es).
Proof.
  intros Hr He Enone g'. injection He as <- <-.
  set (u := _head e) in *. set (v := _tail e) in *.
  pose proof (reachable_ClassInv Hr) as HC.
  pose proof (reachable_Inv Hr) as H.
  destruct HC as [_ Eq].
  assert (Hr' : reachable GraphClass g')
    by exact (reach_call (call_insert_edge e) Hr).
  pose proof (reachable_ClassInv Hr') as HC'.
  pose proof (reachable_Inv Hr') as H'.
  assert (Enone' : get2 (_outgoing g) v u = None)
    by now rewrite (inv_adj H), Eq.
  assert (Ho : forall a b, get2 (_outgoing g') a b =
                 if (a =? u) && (b =? v) || (a =? v) && (b =? u)
                 then Some e else get2 (_outgoing g) a b).
  { intros a b. now apply Graph_insert_edge_get2. }
  exists (total (_outgoing g)),
         (set_update [] (all_edges (_outgoing g))),
         (set_update [] (all_edges (_outgoing g'))).
  unfold eval.
  rewrite !edge_count_eq, !edges_eq by (apply inv_wf_out; assumption).
  simpl. split; [reflexivity|]. split; [|split; [reflexivity|split]].
  - f_equal. unfold g', exec. rewrite Graph_insert_edge_eq by assumption.
    simpl. fold u v.
    set (s2 := add_vertex v (add_vertex u g)).
    assert (Hu : member u s2 = true).
    { unfold s2. rewrite member_inserted, Nat.eqb_refl.
      now rewrite orb_true_r. }
    assert (Hv : member v s2 = true).
    { unfold s2. now rewrite member_inserted, Nat.eqb_refl. }
    rewrite total_adj_set by (now rewrite dict_mem_adj_set).
    rewrite get2_adj_set by exact Hu.
    rewrite total_adj_set by exact Hu.
    unfold s2. rewrite !get2_add_vertex, !total_add_vertex.
    rewrite Enone, Enone'.
    destruct (Nat.eqb_spec u v) as [Huv|Huv].
    + rewrite <- Huv, !Nat.eqb_refl. simpl. lia.
    + destruct (Nat.eqb_spec v u) as [Hvu|_]; [congruence|]. simpl. lia.
  - reflexivity.
  - assert (Hnew : ~ In e (set_update [] (all_edges (_outgoing g)))).
    { intros Hin. apply Graph_In_edges in Hin; [|exact (reachable_ClassInv Hr)].
      destruct Hin as [a [b Eab]].
      destruct (inv_ends H _ _ Eab) as [P|P];
        injection P as <- <-; unfold u, v in *; congruence. }
    apply NoDup_Permutation.
    + apply set_NoDup.
    + constructor; [exact Hnew | apply set_NoDup].
    + intros x. rewrite (Graph_In_edges x HC'). simpl.
      rewrite (Graph_In_edges x (reachable_ClassInv Hr)). split.
      * intros [a [b Eab]]. rewrite Ho in Eab.
        destruct ((a =? u) && (b =? v) || (a =? v) && (b =? u));
          [left; congruence | right; eauto].
      * intros [<- | [a [b Eab]]].
        { exists u, v. rewrite Ho. now rewrite !Nat.eqb_refl. }
        exists a, b. rewrite Ho.
        destruct ((a =? u) && (b =? v)) eqn:E1.
        { apply eqb_pair_true in E1. destruct E1; subst. congruence. }
        destruct ((a =? v) && (b =? u)) eqn:E2.
        { apply eqb_pair_true in E2. destruct E2; subst. congruence. }
        exact Eab.
Qed.



Lemma oriented_single_slot s u v e :
  oriented s ->
  get2 (_outgoing s) u v = Some e -> get2 (_outgoing s) v u = Some e ->
  u = v.
Proof.
  intros Ho E1 E2. apply Ho in E1. apply Ho in E2. congruence.
Qed.

(** C7 does not hold of every directed graph.  On a graph that was
    reversed between two insertions of the edge object [e12], the object
    sits under [(1, 2)] and under [(2, 1)]; [edges()] meets the entry under
    [(2, 1)] first, and the set then refuses [f12], which [Edge.__eq__]
    identifies with [e12]. *)
Lemma overwrite_counterexample :
  reachable DigraphClass Sample.twice /\
  eval (edge 1 2) Sample.twice = Ok (Some Sample.e12) /\
  endpoints Sample.e12 = (1, 2) /\
  endpoints Sample.f12 = (1, 2) /\
  Sample.f12 <> Sample.e12 /\
  eval edges (exec (Digraph_insert_edge Sample.f12) Sample.twice)
  = Ok [Sample.e12] /\
  ~ overwritten Sample.twice Sample.e12 Sample.f12.
Proof.
  split; [apply reachable_run_calls, reach_init|].
  do 3 (split; [reflexivity|]).
  split; [discriminate|].
  split; [reflexivity|].
  intros (_ & (es & Ees & Hes) & _).
  vm_compute in Ees. injection Ees as <-.
  apply Hes. now left.
Qed.

(** * The traversal of [chap14/bfs.py] *)

Lemma bfs_loop_fuel fuel fuel' g t r :
  bfs_loop fuel g t = Some r -> fuel <= fuel' -> bfs_loop fuel' g t = Some r.
Proof.
  revert fuel' t. induction fuel as [|fuel IH]; intros fuel' t.
  - destruct fuel'; simpl; destruct (is_empty (frontier t));
      try discriminate; auto.
  - destruct fuel' as [|fuel'']; [lia|]. simpl.
    destruct (is_empty (frontier t)); [auto|].
    destruct (dequeue (frontier t)) as [[u q]|]; [|auto].
    destruct (eval (successors u) g); [|auto].
    intros E Hle. apply IH; [exact E | lia].
Qed.

Lemma bfs_restarts_fuel fuel fuel' g vs t r :
  bfs_restarts fuel g vs t = Some r -> fuel <= fuel' ->
  bfs_restarts fuel' g vs t = Some r.
Proof.
  intros E Hle. revert t E. induction vs as [|v vs IH]; intros t; simpl.
  - auto.
  - destruct (Vtx.color (heap t v)); auto.
    destruct (bfs_loop fuel g (discover_vertex v None (Vtx.Fin 0) t))
      as [r1|] eqn:E1; [|discriminate].
    rewrite (@bfs_loop_fuel _ _ _ _ _ E1 Hle).
    destruct r1; auto.
Qed.

(** C8. On the graph that [chap14/bfs.py] builds, the traversal seeded at
    [A] ends, with fuel for four vertices or more, with the frontier empty,
    every vertex black, [A] at distance 0 without predecessor, and [B], [C]
    and [D] at distance 1 with predecessor [A]; the complete traversal that
    the script calls ends in the same way. *)
Theorem bfs_scenario (fuel : nat) (h : Heap) :
  4 <= fuel ->
  let ends (t : Traversal) :=
    frontier t = [] /\
    map (fun x => Vtx.color (heap t x)) [Bfs.a; Bfs.b; Bfs.c; Bfs.d]
    = [Vtx.black; Vtx.black; Vtx.black; Vtx.black] /\
    map (fun x => Vtx.distance (heap t x)) [Bfs.a; Bfs.b; Bfs.c; Bfs.d]
    = [Vtx.Fin 0; Vtx.Fin 1; Vtx.Fin 1; Vtx.Fin 1] /\
    map (fun x => Vtx.predecessor (heap t x)) [Bfs.a; Bfs.b; Bfs.c; Bfs.d]
    = [None; Some Bfs.a; Some Bfs.a; Some Bfs.a] in
  (exists t,
      breadth_first_search fuel Bfs.g [Bfs.a] h = Some (Ok t) /\ ends t) /\
  (exists t,
      complete_breadth_first_search fuel Bfs.g h = Some (Ok t) /\ ends t).
Proof.
  intros Hfuel ends. split.
  - eexists. split.
    + unfold breadth_first_search.
      apply (@bfs_loop_fuel 4); [|exact Hfuel]. vm_compute. reflexivity.
    + unfold ends. repeat split.
  - eexists. split.
    + unfold complete_breadth_first_search.
      apply (@bfs_restarts_fuel 4); [|exact Hfuel]. vm_compute. reflexivity.
    + unfold ends. repeat split.
Qed.

(** * The theorems at sample graphs *)

Lemma Sample_digraph_reachable : reachable DigraphClass Sample.digraph.
Proof. apply reachable_run_calls, reach_init. Qed.

Lemma Sample_graph_reachable : reachable GraphClass Sample.graph.
Proof. apply reachable_run_calls, reach_init. Qed.

Lemma insert_edge_records_edge_witness :
  reachable GraphClass Sample.graph /\
  endpoints Sample.e33 = (3, 3) /\
  eval (edge 3 3) (exec (insert_edge GraphClass Sample.e33) Sample.graph)
  = Ok (Some Sample.e33).
Proof.
  split; [exact Sample_graph_reachable|]. split; [reflexivity|].
  exact (proj1 (proj2 (@insert_edge_records_edge GraphClass Sample.graph
                         Sample.e33 3 3 Sample_graph_reachable eq_refl))).
Defined.

Lemma Graph_symmetry_witness :
  reachable GraphClass Sample.graph /\
  exists e', eval (edge 2 1) Sample.graph = Ok (Some e') /\
             e' = Sample.e12 /\
             _tag e' = _tag Sample.e12 /\
             distance e' = distance Sample.e12.
Proof.
  split; [exact Sample_graph_reachable|].
  exact (proj1 (@Graph_symmetry Sample.graph Sample_graph_reachable)
           1 2 Sample.e12 eq_refl).
Defined.

Lemma adjacency_maps_consistent_witness :
  reachable DigraphClass Sample.digraph /\
  forall v, In v (dict_keys (_outgoing Sample.digraph)) <->
            In v (dict_keys (_incoming Sample.digraph)).
Proof.
  split; [exact Sample_digraph_reachable|].
  exact (proj2 (@adjacency_maps_consistent DigraphClass Sample.digraph
                  Sample_digraph_reachable)).
Defined.

Lemma remove_vertex_detaches_witness :
  reachable DigraphClass Sample.digraph /\
  member 1 Sample.digraph = true /\
  eval (remove_vertex DigraphClass 1) Sample.digraph = Ok tt /\
  eval (contains 1) (exec (remove_vertex DigraphClass 1) Sample.digraph)
  = Ok false.
Proof.
  split; [exact Sample_digraph_reachable|]. split; [reflexivity|].
  pose proof (@remove_vertex_detaches DigraphClass Sample.digraph 1
                Sample_digraph_reachable eq_refl) as H.
  exact (conj (proj1 H) (proj1 (proj2 H))).
Defined.

Lemma remove_edge_cases_witness :
  reachable DigraphClass Sample.digraph /\
  eval (edge 1 2) Sample.digraph = Ok (Some Sample.e12) /\
  eval (Digraph_remove_edge 1 2) Sample.digraph = Ok (Some Sample.e12).
Proof.
  split; [exact Sample_digraph_reachable|]. split; [reflexivity|].
  exact (proj1 (proj2 (proj2 (proj2
           (@remove_edge_cases Sample.digraph 1 2 Sample_digraph_reachable)))
           Sample.e12 eq_refl)).
Defined.

Lemma reverse_involution_witness :
  reachable DigraphClass Sample.digraph /\
  exec reverse (exec reverse Sample.digraph) = Sample.digraph /\
  eval (edge 2 1) (exec reverse Sample.digraph)
  = eval (edge 1 2) Sample.digraph.
Proof.
  split; [exact Sample_digraph_reachable|].
  pose proof (@reverse_involution DigraphClass Sample.digraph) as H.
  split; [exact (proj1 H)|].
  exact (proj2 (proj2 (proj2 (proj2 (proj2 (proj2
           (proj2 (proj2 (proj2 (proj2 H)))
              Sample_digraph_reachable 2 1))))))).
Defined.

Lemma overwrite_last_write_wins_witness :
  reachable DigraphClass Sample.digraph /\
  eval (edge 1 2) Sample.digraph = Ok (Some Sample.e12) /\
  endpoints Sample.f12 = (1, 2) /\
  Sample.f12 <> Sample.e12 /\
  (1 = 2 \/ eval (edge 2 1) Sample.digraph <> Ok (Some Sample.e12)) /\
  overwritten Sample.digraph Sample.e12 Sample.f12.
Proof.
  assert (Hne : Sample.f12 <> Sample.e12) by discriminate.
  assert (Hrev : 1 = 2 \/
                 eval (edge 2 1) Sample.digraph <> Ok (Some Sample.e12))
    by (right; discriminate).
  split; [exact Sample_digraph_reachable|]. split; [reflexivity|].
  split; [reflexivity|]. split; [exact Hne|]. split; [exact Hrev|].
  exact (@overwrite_last_write_wins Sample.digraph Sample.e12 Sample.f12 1 2
           Sample_digraph_reachable eq_refl eq_refl Hne Hrev).
Defined.

Lemma bfs_scenario_witness :
  4 <= 4 /\
  exists t, breadth_first_search 4 Bfs.g [Bfs.a] Bfs.fresh = Some (Ok t) /\
            map (fun x => Vtx.distance (heap t x))
                [Bfs.a; Bfs.b; Bfs.c; Bfs.d]
            = [Vtx.Fin 0; Vtx.Fin 1; Vtx.Fin 1; Vtx.Fin 1].
Proof.
  split; [apply le_n|].
  destruct (proj1 (@bfs_scenario 4 Bfs.fresh (le_n 4))) as [t [E H]].
  exists t. split; [exact E|]. exact (proj1 (proj2 (proj2 H))).
Defined.

Lemma Graph_incoming_redundant_witness :
  reachable GraphClass Sample.graph /\
  _incoming Sample.graph = _outgoing Sample.graph.
Proof.
  split; [exact Sample_graph_reachable|].
  exact (proj1 (@Graph_incoming_redundant Sample.graph
                  Sample_graph_reachable)).
Defined.

Lemma Graph_insert_edge_counts_witness :
  reachable GraphClass Sample.graph /\
  endpoints Sample.e33 = (3, 3) /\
  get2 (_outgoing Sample.graph) 3 3 = None /\
  exists n es es',
    eval edge_count Sample.graph = Ok n /\
    eval edge_count (exec (Graph_insert_edge Sample.e33) Sample.graph)
    = Ok (if 3 =? 3 then n + 1 else n + 2) /\
    eval edges Sample.graph = Ok es /\
    eval edges (exec (Graph_insert_edge Sample.e33) Sample.graph) = Ok es' /\
    Permutation es' (Sample.e33 :: es).
Proof.
  split; [exact Sample_graph_reachable|]. split; [reflexivity|].
  split; [reflexivity|].
  exact (@Graph_insert_edge_counts Sample.graph Sample.e33 3 3
           Sample_graph_reachable eq_refl eq_refl).
Defined.

(** * Runs of the model *)

(** The graph of [chap14/bfs.py] has four vertices and seven edges, and
    removing the edge from [B] to [A] leaves the edge from [A] to [B]. *)
Example Bfs_graph_counts :
  eval vertex_count Bfs.g = Ok 4 /\ eval edge_count Bfs.g = Ok 7 /\
  eval (edge Bfs.a Bfs.b)
       (exec (Digraph_remove_edge Bfs.b Bfs.a) Bfs.g) = Ok (Some Bfs.ab) /\
  eval (edge Bfs.b Bfs.a)
       (exec (Digraph_remove_edge Bfs.b Bfs.a) Bfs.g) = Ok None.
Proof. repeat split. Qed.

(** On an undirected graph one edge between two vertices counts twice and
    is reported once; [remove_edge] of a self-loop returns [None]. *)
Example Graph_counts :
  eval edge_count Sample.graph = Ok 2 /\
  eval edges Sample.graph = Ok [Sample.e12] /\
  eval (Graph_remove_edge 3 3)
       (exec (Graph_insert_edge Sample.e33) Sample.graph) = Ok None.
Proof. repeat split. Qed.

(** A vertex that is not in the graph is refused. *)
Example not_a_member :
  eval (edge 1 9) Sample.digraph = Raise ValueError /\
  eval (remove_vertex DigraphClass 9) Sample.digraph = Raise ValueError /\
  eval (Digraph_remove_edge 5 1) Sample.digraph = Ok None.
Proof. repeat split. Qed.

(** * Further facts about dictionaries and adjacency maps *)

Lemma dict_pop_absent V k (d : dict V) :
  dict_mem k d = false -> dict_pop k d = d.
Proof.
  unfold dict_mem, dict_pop. induction d as [|[k0 y] d IH]; simpl;
    [reflexivity|].
  destruct (k =? k0); simpl; [discriminate|].
  intros H. now rewrite IH.
Qed.

Lemma len_pop V k (d : dict V) :
  dict_wf d -> dict_mem k d = true -> S (len (dict_pop k d)) = len d.
Proof.
  unfold dict_wf, dict_mem, dict_pop, len.
  induction d as [|[k0 y] d IH]; simpl; [discriminate|].
  intros Hwf. inversion Hwf as [|? ? Hn Hd]; subst.
  destruct (Nat.eqb_spec k k0) as [->|Hne]; simpl.
  - intros _. f_equal.
    assert (E : dict_mem k0 d = false).
    { destruct (dict_mem k0 d) eqn:E; [|reflexivity].
      apply In_keys_mem in E. contradiction. }
    apply dict_pop_absent in E. unfold dict_pop in E. now rewrite E.
  - intros H. f_equal. now apply IH.
Qed.

Lemma dict_set_same V k (x : V) (d : dict V) :
  dict_get k d = Some x -> dict_set k x d = d.
Proof.
  induction d as [|[k0 y] d IH]; simpl; [discriminate|].
  destruct (Nat.eqb_spec k k0) as [->|Hne].
  - now intros [= ->].
  - intros H. now rewrite IH.
Qed.

Lemma dict_set_twice V k (x y : V) (d : dict V) :
  dict_set k x (dict_set k y d) = dict_set k x d.
Proof.
  induction d as [|[k0 z] d IH]; simpl.
  - now rewrite Nat.eqb_refl.
  - destruct (k =? k0) eqn:E; simpl.
    + now rewrite Nat.eqb_refl.
    + now rewrite E, IH.
Qed.

Lemma dict_pop_set_new V k (x : V) (d : dict V) :
  dict_mem k d = false -> dict_pop k (dict_set k x d) = d.
Proof.
  unfold dict_mem, dict_pop. induction d as [|[k0 y] d IH]; simpl.
  - now rewrite Nat.eqb_refl.
  - destruct (k =? k0) eqn:E; simpl; [discriminate|].
    rewrite E. simpl. intros H. now rewrite IH.
Qed.

Lemma total_adj_pop (m : AdjMap) u v e :
  adj_wf m -> get2 m u v = Some e -> S (total (adj_pop m u v)) = total m.
Proof.
  intros [Hm Hin]. unfold adj_pop, get2.
  destruct (dict_get u m) as [d|] eqn:E; [|discriminate].
  intros Ev.
  pose proof (@total_set_old m u d (dict_pop v d) E) as H.
  assert (Hl : S (len (dict_pop v d)) = len d).
  { apply len_pop; [now apply (Hin u)|]. apply dict_mem_get. eauto. }
  lia.
Qed.

Lemma total_dict_pop (m : AdjMap) v d :
  dict_wf m -> dict_get v m = Some d ->
  total (dict_pop v m) + len d = total m.
Proof.
  unfold dict_wf, total, dict_pop.
  induction m as [|[k x] m IH]; simpl; [discriminate|].
  intros Hwf. inversion Hwf as [|? ? Hn Hd]; subst.
  destruct (Nat.eqb_spec v k) as [->|Hne]; simpl.
  - intros [= ->].
    assert (E : dict_mem k m = false).
    { destruct (dict_mem k m) eqn:E; [|reflexivity].
      apply In_keys_mem in E. contradiction. }
    apply dict_pop_absent in E. unfold dict_pop in E. rewrite E. lia.
  - intros H. apply IH in H; [lia | assumption].
Qed.

Lemma length_all_edges (m : AdjMap) : List.length (all_edges m) = total m.
Proof.
  unfold all_edges, total. induction m as [|[k d] m IH]; simpl;
    [reflexivity|].
  rewrite length_app, IH. unfold dict_values, len. now rewrite length_map.
Qed.

Lemma total_keys (m m0 : AdjMap) :
  (forall k d, In (k, d) m -> dict_get k m0 = Some d) ->
  list_sum (map (fun k => match dict_get k m0 with
                          | Some d => len d
                          | None => 0
                          end) (dict_keys m)) = total m.
Proof.
  unfold total. induction m as [|[k d] m IH]; intros H; simpl;
    [reflexivity|].
  rewrite (H k d) by now left. f_equal. apply IH.
  intros k' d' Hin. apply H. now right.
Qed.

Lemma keys_Permutation c s :
  reachable c s ->
  Permutation (dict_keys (_outgoing s)) (dict_keys (_incoming s)).
Proof.
  intros Hr. pose proof (reachable_Inv Hr) as H.
  apply NoDup_Permutation.
  - apply (inv_wf_out H).
  - apply (inv_wf_inc H).
  - intros v. rewrite !In_keys_mem. now rewrite (inv_keys H).
Qed.

(** * The two maps hold as many entries *)

Lemma total_add_vertex_inc v s :
  Inv s -> total (_incoming (add_vertex v s)) = total (_incoming s).
Proof.
  intros H. unfold add_vertex.
  destruct (dict_mem v (_outgoing s)) eqn:E; [reflexivity|].
  simpl. apply total_set_new. now rewrite <- (inv_keys H).
Qed.

Lemma balanced_add_vertex v s :
  Inv s -> balanced s -> balanced (add_vertex v s).
Proof.
  unfold balanced. intros H B.
  now rewrite total_add_vertex, total_add_vertex_inc.
Qed.

Lemma balanced_link u v e s :
  Inv s -> member u s = true -> member v s = true ->
  balanced s -> balanced (link u v e s).
Proof.
  unfold balanced, member. intros H Hu Hv B. simpl.
  rewrite !total_adj_set; [|now rewrite <- (inv_keys H)|assumption].
  rewrite <- (inv_adj H), B. reflexivity.
Qed.

Lemma balanced_cut u v s : Inv s -> balanced s -> balanced (cut u v s).
Proof.
  unfold balanced, cut. intros H B.
  destruct (get2 (_outgoing s) u v) as [e|] eqn:E; [|exact B]. simpl.
  pose proof (@total_adj_pop _ _ _ _ (inv_wf_out H) E) as Ho.
  rewrite (inv_adj H) in E.
  pose proof (@total_adj_pop _ _ _ _ (inv_wf_inc H) E) as Hi.
  lia.
Qed.

Lemma balanced_cuts c u v s : Inv s -> balanced s -> balanced (cuts c u v s).
Proof.
  intros H B. destruct c; simpl.
  - now apply balanced_cut.
  - apply balanced_cut; [now apply Inv_cut | now apply balanced_cut].
Qed.

Lemma Inv_cuts c u v s : Inv s -> Inv (cuts c u v s).
Proof. intros H. destruct c; simpl; auto using Inv_cut. Qed.

Lemma Inv_detach_all c v l s : Inv s -> Inv (detach_all c v l s).
Proof.
  revert s. induction l as [|u l IH]; intros s H; simpl; [exact H|].
  apply IH. unfold detach. now apply Inv_cuts, Inv_cuts.
Qed.

Lemma balanced_detach_all c v l s :
  Inv s -> balanced s -> balanced (detach_all c v l s).
Proof.
  revert s. induction l as [|u l IH]; intros s H B; simpl; [exact B|].
  apply IH; unfold detach.
  - now apply Inv_cuts, Inv_cuts.
  - apply balanced_cuts; [now apply Inv_cuts | now apply balanced_cuts].
Qed.

(** When the loop of [remove_vertex] ends, the dictionaries of [v] are
    empty. *)
Lemma detached_empty c v s :
  Inv s -> member v s = true ->
  let s1 := detach_all c v (dict_keys (_outgoing s)) s in
  dict_get v (_outgoing s1) = Some [] /\ dict_get v (_incoming s1) = Some [].
Proof.
  intros H Hv s1.
  assert (H1 : Inv s1) by now apply Inv_detach_all.
  assert (Hv1 : member v s1 = true)
    by (unfold s1; now rewrite member_detach_all).
  assert (Ho : forall k, get2 (_outgoing s1) v k = None).
  { intros k. unfold s1. rewrite get2_detached by assumption.
    now rewrite Nat.eqb_refl. }
  assert (Hi : forall k, get2 (_incoming s1) v k = None).
  { intros k. rewrite <- (inv_adj H1). unfold s1.
    rewrite get2_detached by assumption.
    now rewrite Nat.eqb_refl, orb_true_r. }
  split.
  - unfold member, dict_mem in Hv1.
    destruct (dict_get v (_outgoing s1)) as [d|] eqn:Ed; [|discriminate].
    f_equal. apply dict_all_None. intros k. specialize (Ho k).
    unfold get2 in Ho. now rewrite Ed in Ho.
  - unfold member in Hv1. rewrite (inv_keys H1) in Hv1.
    unfold dict_mem in Hv1.
    destruct (dict_get v (_incoming s1)) as [d|] eqn:Ed; [|discriminate].
    f_equal. apply dict_all_None. intros k. specialize (Hi k).
    unfold get2 in Hi. now rewrite Ed in Hi.
Qed.

Lemma balanced_run_call c k s :
  ClassInv c s -> balanced s -> balanced (run_call c k s).
Proof.
  intros HC B. pose proof (ClassInv_Inv _ _ HC) as H.
  destruct k as [x|x|x y|x|]; simpl; unfold exec.
  - rewrite insert_vertex_eq. now apply balanced_add_vertex.
  - set (s2 := add_vertex (_tail x) (add_vertex (_head x) s)).
    assert (H2 : Inv s2) by now apply Inv_add_vertex, Inv_add_vertex.
    assert (B2 : balanced s2).
    { apply balanced_add_vertex; [now apply Inv_add_vertex|].
      now apply balanced_add_vertex. }
    assert (Hu : member (_head x) s2 = true).
    { unfold s2. rewrite member_inserted, Nat.eqb_refl.
      now rewrite orb_true_r. }
    assert (Hv : member (_tail x) s2 = true).
    { unfold s2. now rewrite member_inserted, Nat.eqb_refl. }
    destruct c; simpl.
    + rewrite Digraph_insert_edge_eq by assumption. simpl.
      now apply balanced_link.
    + rewrite Graph_insert_edge_eq by assumption. simpl.
      apply balanced_link; rewrite ?member_link; auto.
      * apply Inv_link; auto.
      * now apply balanced_link.
  - destruct (member x s && member y s) eqn:E.
    + apply andb_true_iff in E. destruct E as [Hx Hy].
      destruct (remove_edge_members c x y s HC Hx Hy) as [r ->]. simpl.
      now apply balanced_cuts.
    + now rewrite remove_edge_raise.
  - destruct (member x s) eqn:Hx.
    + rewrite remove_vertex_eq by assumption. simpl.
      set (s1 := detach_all c x (dict_keys (_outgoing s)) s).
      assert (H1 : Inv s1) by now apply Inv_detach_all.
      assert (B1 : balanced s1) by now apply balanced_detach_all.
      destruct (@detached_empty c x s H Hx) as [Eo Ei]. fold s1 in Eo, Ei.
      pose proof (@total_dict_pop _ _ _ (proj1 (inv_wf_out H1)) Eo) as To.
      pose proof (@total_dict_pop _ _ _ (proj1 (inv_wf_inc H1)) Ei) as Ti.
      unfold balanced in *. simpl in *. lia.
    + now rewrite remove_vertex_raise.
  - unfold reverse, balanced in *. simpl. now symmetry.
Qed.

Lemma reachable_balanced c s : reachable c s -> balanced s.
Proof.
  induction 1 as [|s k Hr IH]; [reflexivity|].
  apply balanced_run_call; [now apply reachable_ClassInv | exact IH].
Qed.

(** X1. On every graph a program can build, the in-degrees of the vertices
    are returned, add up to what [edge_count()] returns, and so do the
    out-degrees. *)
Theorem edge_count_is_degree_sum (c : Class) (g : Digraph) :
  reachable c g ->
  exists ins outs : list nat,
    map (fun v => eval (in_degree v) g) (dict_keys (_outgoing g))
    = map Ok ins /\
    map (fun v => eval (out_degree v) g) (dict_keys (_outgoing g))
    = map Ok outs /\
    eval edge_count g = Ok (list_sum ins) /\
    list_sum ins = list_sum outs.
Proof.
  intros Hr. pose proof (reachable_Inv Hr) as H.
  set (deg := fun (m : AdjMap) k =>
                match dict_get k m with Some d => len d | None => 0 end).
  exists (map (deg (_incoming g)) (dict_keys (_outgoing g))),
         (map (deg (_outgoing g)) (dict_keys (_outgoing g))).
  assert (Hout : list_sum (map (deg (_outgoing g)) (dict_keys (_outgoing g)))
                 = total (_outgoing g)).
  { apply total_keys. intros k d. apply dict_In_get, (inv_wf_out H). }
  assert (Hinc : list_sum (map (deg (_incoming g)) (dict_keys (_outgoing g)))
                 = total (_incoming g)).
  { rewrite (Permutation_map _ (keys_Permutation Hr)).
    apply total_keys. intros k d. apply dict_In_get, (inv_wf_inc H). }
  split; [|split; [|split]].
  - rewrite map_map. apply map_ext_in. intros v Hv.
    apply In_keys_mem in Hv. fold (member v g) in Hv.
    pose proof Hv as Hv'. unfold member in Hv'.
    rewrite (inv_keys H) in Hv'. apply dict_mem_get in Hv'.
    destruct Hv' as [d Ed].
    unfold eval, deg. now rewrite in_degree_eq, Hv, Ed.
  - rewrite map_map. apply map_ext_in. intros v Hv.
    apply In_keys_mem in Hv. fold (member v g) in Hv.
    pose proof Hv as Hv'. unfold member in Hv'. apply dict_mem_get in Hv'.
    destruct Hv' as [d Ed].
    unfold eval, deg. now rewrite out_degree_eq, Hv, Ed.
  - unfold eval. rewrite edge_count_eq by apply (inv_wf_out H). simpl.
    f_equal. rewrite Hinc. apply (reachable_balanced Hr).
  - rewrite Hinc, Hout. symmetry. apply (reachable_balanced Hr).
Qed.

Lemma edge_count_is_degree_sum_witness :
  reachable DigraphClass Bfs.g /\
  exists ins outs : list nat,
    map (fun v => eval (in_degree v) Bfs.g) (dict_keys (_outgoing Bfs.g))
    = map Ok ins /\
    map (fun v => eval (out_degree v) Bfs.g) (dict_keys (_outgoing Bfs.g))
    = map Ok outs /\
    eval edge_count Bfs.g = Ok (list_sum ins) /\
    list_sum ins = list_sum outs.
Proof.
  assert (Hr : reachable DigraphClass Bfs.g).
  { exact (@reachable_run_calls DigraphClass
             [call_insert_edge Bfs.ab; call_insert_edge Bfs.ba;
              call_insert_edge Bfs.ac; call_insert_edge Bfs.ca;
              call_insert_edge Bfs.ad; call_insert_edge Bfs.bc;
              call_insert_edge Bfs.bd] Digraph_init
             (reach_init DigraphClass)). }
  split; [exact Hr|].
  exact (@edge_count_is_degree_sum DigraphClass Bfs.g Hr).
Defined.

(** X2. On every graph a program can build, [insert_vertex(v)] returns
    [v], makes [v] a member, keeps every entry of the two maps, and a
    second call changes nothing.  When [v] was a member the graph is as
    before; otherwise [v] comes last in [vertices()], without successors or
    predecessors, [vertex_count()] goes up by one and [edge_count()] stays. *)
Theorem insert_vertex_effect (c : Class) (g : Digraph) (v : Vertex) :
  reachable c g ->
  let g' := exec (insert_vertex v) g in
  eval (insert_vertex v) g = Ok v /\
  eval (contains v) g' = Ok true /\
  exec (insert_vertex v) g' = g' /\
  (forall a b, get2 (_outgoing g') a b = get2 (_outgoing g) a b /\
               get2 (_incoming g') a b = get2 (_incoming g) a b) /\
  (eval (contains v) g = Ok true -> g' = g) /\
  (eval (contains v) g = Ok false ->
   dict_keys (_outgoing g') = dict_keys (_outgoing g) ++ [v] /\
   eval (successors v) g' = Ok [] /\
   eval (predecessors v) g' = Ok [] /\
   (exists n, eval vertex_count g = Ok n /\ eval vertex_count g' = Ok (S n)) /\
   (exists n, eval edge_count g = Ok n /\ eval edge_count g' = Ok n)).
Proof.
  intros Hr g'. pose proof (reachable_Inv Hr) as H.
  assert (Eg : g' = add_vertex v g)
    by (unfold g', exec; now rewrite insert_vertex_eq).
  assert (H' : Inv g') by (rewrite Eg; now apply Inv_add_vertex).
  assert (Hm : member v g' = true).
  { rewrite Eg, member_add_vertex. now rewrite Nat.eqb_refl. }
  split; [unfold eval; now rewrite insert_vertex_eq|].
  split; [unfold eval; now rewrite contains_eq, Hm|].
  split; [unfold exec; rewrite insert_vertex_eq; now apply add_vertex_member|].
  split; [|split].
  - intros a b. split; [rewrite Eg; apply get2_add_vertex|].
    rewrite <- (inv_adj H'), <- (inv_adj H), Eg. apply get2_add_vertex.
  - intros E. unfold eval in E. rewrite contains_eq in E.
    simpl in E. injection E as E.
    rewrite Eg. now apply add_vertex_member.
  - intros E. unfold eval in E. rewrite contains_eq in E.
    simpl in E. injection E as E.
    assert (Eo : _outgoing g' = @dict_set (dict Edge) v [] (_outgoing g)).
    { rewrite Eg. unfold add_vertex. unfold member in E. now rewrite E. }
    assert (Ei : _incoming g' = @dict_set (dict Edge) v [] (_incoming g)).
    { rewrite Eg. unfold add_vertex. unfold member in E. now rewrite E. }
    unfold eval. split; [|split; [|split; [|split]]].
    + rewrite Eo. now apply dict_keys_set_new.
    + rewrite successors_eq, Hm, Eo, dict_get_set, Nat.eqb_refl. reflexivity.
    + rewrite predecessors_eq, Hm, Ei, dict_get_set, Nat.eqb_refl.
      reflexivity.
    + exists (len (_outgoing g)). rewrite !vertex_count_eq. simpl.
      split; [reflexivity|]. rewrite Eo, len_set.
      unfold member in E. now rewrite E.
    + exists (total (_outgoing g)).
      rewrite !edge_count_eq by (apply inv_wf_out; assumption). simpl.
      split; [reflexivity|]. rewrite Eg. now rewrite total_add_vertex.
Qed.

Lemma insert_vertex_effect_witness :
  reachable DigraphClass Sample.digraph /\
  eval (insert_vertex 7) Sample.digraph = Ok 7 /\
  eval (contains 7) (exec (insert_vertex 7) Sample.digraph) = Ok true.
Proof.
  split; [exact Sample_digraph_reachable|].
  pose proof (@insert_vertex_effect DigraphClass Sample.digraph 7
                Sample_digraph_reachable) as H.
  exact (conj (proj1 H) (proj1 (proj2 H))).
Defined.

(** ** [Edge.opposite] *)

(** X3. [opposite(v)] returns the other endpoint of the edge, raises
    [ValueError] exactly when [v] is no endpoint, and applied to the vertex
    it returned gives [v] back; on a self-loop it returns the vertex
    itself. *)
Theorem opposite_involutive (e : Edge) (v : Vertex) :
  (opposite e v = Raise ValueError <-> v <> _head e /\ v <> _tail e) /\
  (forall x, opposite e v = Raise x -> x = ValueError) /\
  (forall w, opposite e v = Ok w ->
             opposite e w = Ok v /\
             ((v = _head e /\ w = _tail e) \/ (v = _tail e /\ w = _head e))) /\
  (_head e = _tail e -> opposite e (_head e) = Ok (_head e)).
Proof.
  unfold opposite. split; [|split; [|split]].
  - destruct (Nat.eqb_spec v (_head e)), (Nat.eqb_spec v (_tail e));
      split; try discriminate; try tauto.
  - intros x.
    destruct (v =? _head e), (v =? _tail e); congruence.
  - intros w.
    destruct (Nat.eqb_spec v (_head e)) as [Eh|Nh].
    + intros [= <-]. split; [|auto].
      destruct (Nat.eqb_spec (_tail e) (_head e)); [congruence|].
      rewrite Nat.eqb_refl. now subst.
    + destruct (Nat.eqb_spec v (_tail e)) as [Et|Nt]; [|discriminate].
      intros [= <-]. split; [|auto].
      rewrite Nat.eqb_refl. now subst.
  - intros E. now rewrite Nat.eqb_refl, E.
Qed.

Lemma opposite_involutive_witness :
  opposite Sample.e12 1 = Ok 2 /\ opposite Sample.e12 2 = Ok 1 /\
  opposite Sample.e33 3 = Ok 3.
Proof.
  pose proof (@opposite_involutive Sample.e12 1) as H.
  split; [reflexivity|].
  split; [exact (proj1 (proj1 (proj2 (proj2 H)) 2 eq_refl))|].
  exact (proj2 (proj2 (proj2 (@opposite_involutive Sample.e33 3))) eq_refl).
Defined.

(** * What [edges()] reports *)


Lemma set_update_length (l r : list Edge) :
  List.length (set_update r l) <= List.length r + List.length l.
Proof.
  unfold set_update. revert r. induction l as [|e l IH]; intros r; simpl.
  - lia.
  - specialize (IH (set_add e r)).
    assert (List.length (set_add e r) <= S (List.length r)).
    { unfold set_add. destruct (existsb (Edge_eq e) r); [lia|].
      rewrite length_app. simpl. lia. }
    lia.
Qed.






(** X5. On every undirected graph a program can build, [edges()] holds
    exactly the edge objects the graph records, each once, and no two of
    its elements join the same two vertices: the two entries of an edge
    are reported as one. *)
Theorem Graph_edges_once (g : Digraph) :
  reachable GraphClass g ->
  exists es,
    eval edges g = Ok es /\
    NoDup es /\
    (forall e, In e es <-> exists a b, eval (edge a b) g = Ok (Some e)) /\
    (forall x y, In x es -> In y es ->
                 endpoints x = endpoints y \/
                 endpoints x = (_tail y, _head y) ->
                 x = y).
Proof.
  intros Hr. pose proof (reachable_ClassInv Hr) as HC.
  pose proof (reachable_Inv Hr) as H. destruct HC as [_ Eq].
  exists (set_update [] (all_edges (_outgoing g))). unfold eval.
  rewrite edges_eq. simpl.
  split; [reflexivity|]. split; [apply set_NoDup|]. split.
  - intros e. rewrite (Graph_In_edges e (reachable_ClassInv Hr)).
    split; intros [a [b E]]; exists a, b.
    + fold (eval (edge a b) g). now apply eval_edge_Some.
    + fold (eval (edge a b) g) in E. now apply eval_edge_Some in E.
  - intros x y Hx Hy Hxy.
    apply (Graph_In_edges x (reachable_ClassInv Hr)) in Hx.
    apply (Graph_In_edges y (reachable_ClassInv Hr)) in Hy.
    destruct Hx as [a [b Ex]], Hy as [a' [b' Ey]].
    assert (Hsym : forall p q z, get2 (_outgoing g) p q = Some z ->
                                 get2 (_outgoing g) q p = Some z).
    { intros p q z Ez. now rewrite (inv_adj H), Eq. }
    pose proof (Hsym _ _ _ Ex) as Ex'.
    pose proof (inv_ends H _ _ Ex) as P1.
    pose proof (inv_ends H _ _ Ey) as P2.
    unfold endpoints in *.
    destruct Hxy as [Hxy|Hxy]; rewrite Hxy in P1;
      destruct P1 as [P1|P1], P2 as [P2|P2];
      injection P1 as <- <-; injection P2 as <- <-; congruence.
Qed.

Lemma Graph_edges_once_witness :
  reachable GraphClass Sample.graph /\
  exists es,
    eval edges Sample.graph = Ok es /\
    NoDup es /\
    (forall e, In e es <->
               exists a b, eval (edge a b) Sample.graph = Ok (Some e)) /\
    (forall x y, In x es -> In y es ->
                 endpoints x = endpoints y \/
                 endpoints x = (_tail y, _head y) ->
                 x = y).
Proof.
  split; [exact Sample_graph_reachable|].
  exact (@Graph_edges_once Sample.graph Sample_graph_reachable).
Defined.

(** X6. On every graph a program can build, [edges()] never holds two
    edges with the same ordered endpoints and never more elements than
    [edge_count()] counts; each element is an edge the graph records, and
    each recorded edge has an element that [Edge.__eq__] identifies with
    it. *)
Theorem edges_bounded (c : Class) (g : Digraph) :
  reachable c g ->
  exists es n,
    eval edges g = Ok es /\
    eval edge_count g = Ok n /\
    List.length es <= n /\
    NoDup (map endpoints es) /\
    (forall e, In e es -> exists a b, eval (edge a b) g = Ok (Some e)) /\
    (forall a b e, eval (edge a b) g = Ok (Some e) ->
                   exists e', In e' es /\ Edge_eq e e' = true).
Proof.
  intros Hr. pose proof (reachable_Inv Hr) as H.
  exists (set_update [] (all_edges (_outgoing g))), (total (_outgoing g)).
  unfold eval. rewrite edges_eq, edge_count_eq by apply (inv_wf_out H).
  simpl. split; [reflexivity|]. split; [reflexivity|].
  split; [|split; [|split]].
  - rewrite <- length_all_edges. apply (set_update_length _ []).
  - apply set_update_distinct. constructor.
  - intros e He. apply In_set_sub in He.
    apply In_all_edges in He; [|apply (inv_wf_out H)].
    destruct He as [a [b E]]. exists a, b.
    fold (eval (edge a b) g). now apply eval_edge_Some.
  - intros a b e E. fold (eval (edge a b) g) in E.
    apply eval_edge_Some in E; [|assumption].
    apply set_update_has. apply In_all_edges; [apply (inv_wf_out H)|].
    eauto.
Qed.

Lemma edges_bounded_witness :
  reachable DigraphClass Sample.twice /\
  exists es n,
    eval edges Sample.twice = Ok es /\
    eval edge_count Sample.twice = Ok n /\
    List.length es <= n /\
    NoDup (map endpoints es) /\
    (forall e, In e es ->
               exists a b, eval (edge a b) Sample.twice = Ok (Some e)) /\
    (forall a b e, eval (edge a b) Sample.twice = Ok (Some e) ->
                   exists e', In e' es /\ Edge_eq e e' = true).
Proof.
  assert (Hr : reachable DigraphClass Sample.twice)
    by apply reachable_run_calls, reach_init.
  split; [exact Hr|].
  exact (@edges_bounded DigraphClass Sample.twice Hr).
Defined.

(** * Edges of a vertex *)

Lemma In_values_get V (d : dict V) (x : V) :
  dict_wf d -> (In x (dict_values d) <-> exists k, dict_get k d = Some x).
Proof.
  intros Hwf. unfold dict_values. rewrite in_map_iff. split.
  - intros [[k y] [E Hin]]. simpl in E. subst y. exists k.
    now apply dict_In_get.
  - intros [k E]. exists (k, x). split; [reflexivity|].
    now apply dict_get_In.
Qed.

(** X7. On every graph a program can build and for every member [v],
    [outgoing_edges(v)] and [incoming_edges(v)] return; the first holds
    exactly the edges that [edge(v, w)] returns for some [w], the second
    exactly the edges that [edge(u, v)] returns for some [u], and they
    have [out_degree(v)] and [in_degree(v)] elements. *)
Theorem incident_edges_exact (c : Class) (g : Digraph) (v : Vertex) :
  reachable c g -> member v g = true ->
  exists outs ins,
    eval (outgoing_edges v) g = Ok outs /\
    eval (incoming_edges v) g = Ok ins /\
    eval (out_degree v) g = Ok (List.length outs) /\
    eval (in_degree v) g = Ok (List.length ins) /\
    (forall e, In e outs <-> exists w, eval (edge v w) g = Ok (Some e)) /\
    (forall e, In e ins <-> exists u, eval (edge u v) g = Ok (Some e)).
Proof.
  intros Hr Hv. pose proof (reachable_Inv Hr) as H.
  destruct (member_queries_return v Hr Hv)
    as (d & d' & Es & Ep & Eo & Ei & Eoe & Eie).
  exists (dict_values d), (dict_values d').
  assert (Ed : dict_get v (_outgoing g) = Some d).
  { unfold eval in Es. rewrite successors_eq, Hv in Es.
    destruct (dict_get v (_outgoing g)); simpl in Es; congruence. }
  assert (Ed' : dict_get v (_incoming g) = Some d').
  { unfold eval in Ep. rewrite predecessors_eq, Hv in Ep.
    destruct (dict_get v (_incoming g)); simpl in Ep; congruence. }
  split; [exact Eoe|]. split; [exact Eie|].
  split; [rewrite Eo; unfold dict_values, len; now rewrite length_map|].
  split; [rewrite Ei; unfold dict_values, len; now rewrite length_map|].
  split; intros e.
  - rewrite In_values_get by exact (proj2 (inv_wf_out H) _ _ Ed).
    split; intros [w E]; exists w.
    + apply eval_edge_Some; [assumption|]. unfold get2. now rewrite Ed.
    + apply eval_edge_Some in E; [|assumption]. unfold get2 in E.
      now rewrite Ed in E.
  - rewrite In_values_get by exact (proj2 (inv_wf_inc H) _ _ Ed').
    split; intros [u E]; exists u.
    + apply eval_edge_Some; [assumption|]. rewrite (inv_adj H).
      unfold get2. now rewrite Ed'.
    + apply eval_edge_Some in E; [|assumption]. rewrite (inv_adj H) in E.
      unfold get2 in E. now rewrite Ed' in E.
Qed.

Lemma incident_edges_exact_witness :
  reachable DigraphClass Sample.digraph /\
  member 2 Sample.digraph = true /\
  exists outs ins,
    eval (outgoing_edges 2) Sample.digraph = Ok outs /\
    eval (incoming_edges 2) Sample.digraph = Ok ins /\
    eval (out_degree 2) Sample.digraph = Ok (List.length outs) /\
    eval (in_degree 2) Sample.digraph = Ok (List.length ins) /\
    (forall e, In e outs <->
               exists w, eval (edge 2 w) Sample.digraph = Ok (Some e)) /\
    (forall e, In e ins <->
               exists u, eval (edge u 2) Sample.digraph = Ok (Some e)).
Proof.
  split; [exact Sample_digraph_reachable|]. split; [reflexivity|].
  exact (@incident_edges_exact DigraphClass Sample.digraph 2
           Sample_digraph_reachable eq_refl).
Defined.

(** * Removing what was inserted *)

Lemma adj_pop_adj_set (m : AdjMap) u v e :
  get2 m u v = None -> dict_mem u m = true ->
  adj_pop (adj_set m u v e) u v = m.
Proof.
  unfold adj_pop, adj_set, get2, dict_mem.
  destruct (dict_get u m) as [d|] eqn:E; [|discriminate].
  intros Ev _. rewrite dict_get_set, Nat.eqb_refl.
  rewrite dict_set_twice, dict_pop_set_new by now apply dict_mem_false.
  now apply dict_set_same.
Qed.

Lemma adj_set_twice (m : AdjMap) u v e e' :
  adj_set (adj_set m u v e) u v e' = adj_set m u v e'.
Proof.
  unfold adj_set. destruct (dict_get u m) as [d|] eqn:E.
  - rewrite dict_get_set, Nat.eqb_refl, dict_set_twice. f_equal.
    clear E. induction d as [|[k x] d IH]; simpl.
    + now rewrite Nat.eqb_refl.
    + destruct (v =? k) eqn:Ek; simpl.
      * now rewrite Nat.eqb_refl.
      * now rewrite Ek, IH.
  - now rewrite E.
Qed.

Lemma link_member_state c e s :
  Inv s -> member (_head e) s = true -> member (_tail e) s = true ->
  exec (insert_edge c e) s =
  match c with
  | DigraphClass => link (_head e) (_tail e) e s
  | GraphClass => link (_tail e) (_head e) e (link (_head e) (_tail e) e s)
  end.
Proof.
  intros H Hu Hv. unfold exec. destruct c; simpl.
  - rewrite Digraph_insert_edge_eq by assumption. simpl.
    now rewrite (add_vertex_member _ s Hu), (add_vertex_member _ s Hv).
  - rewrite Graph_insert_edge_eq by assumption. simpl.
    now rewrite (add_vertex_member _ s Hu), (add_vertex_member _ s Hv).
Qed.

(** X8. On every graph a program can build, where [u] and [v] are members
    and [edge(u, v)] returns [None]: after [insert_edge(e)] for an edge [e]
    with endpoints [(u, v)], [remove_edge(u, v)] puts the graph back as it
    was, order of the dictionaries included.  It returns [e], except on an
    undirected graph for a self-loop, where it returns [None]. *)
Theorem insert_remove_round_trip (c : Class) (g : Digraph) (e : Edge)
                                 (u v : Vertex) :
  reachable c g ->
  endpoints e = (u, v) ->
  eval (edge u v) g = Ok None ->
  let g' := exec (insert_edge c e) g in
  exec (remove_edge c u v) g' = g /\
  eval (remove_edge c u v) g' =
  Ok (match c with
      | DigraphClass => Some e
      | GraphClass => if u =? v then None else Some e
      end).
Proof.
  intros Hr He E g'. injection He as <- <-.
  set (u := _head e) in *. set (v := _tail e) in *.
  pose proof (reachable_Inv Hr) as H.
  unfold eval in E. rewrite edge_eq in E.
  destruct (member u g && member v g) eqn:Hm; [|discriminate].
  simpl in E. injection E as E.
  apply andb_true_iff in Hm. destruct Hm as [Hu Hv].
  assert (Hu' : dict_mem u (_incoming g) = true)
    by (rewrite <- (inv_keys H); exact Hu).
  assert (Hv' : dict_mem v (_incoming g) = true)
    by (rewrite <- (inv_keys H); exact Hv).
  assert (Ei : get2 (_incoming g) v u = None) by now rewrite <- (inv_adj H).
  assert (Hr' : reachable c g') by exact (reach_call (call_insert_edge e) Hr).
  pose proof (reachable_Inv Hr') as H'.
  assert (Eg : g' = match c with
                    | DigraphClass => link u v e g
                    | GraphClass => link v u e (link u v e g)
                    end) by now apply link_member_state.
  assert (Hu1 : member u g' = true).
  { destruct c; rewrite Eg, ?member_link; exact Hu. }
  assert (Hv1 : member v g' = true).
  { destruct c; rewrite Eg, ?member_link; exact Hv. }
  destruct c; simpl.
  - unfold exec, eval.
    rewrite Digraph_remove_edge_eq by (auto; now rewrite Hu1, Hv1).
    simpl. unfold cut. rewrite Eg. simpl.
    rewrite get2_adj_set, !Nat.eqb_refl by exact Hu. simpl.
    unfold unlink. simpl.
    rewrite !adj_pop_adj_set by assumption.
    split; [now destruct g | reflexivity].
  - destruct (reachable_ClassInv Hr) as [_ Eq].
    assert (E' : get2 (_outgoing g) v u = None)
      by now rewrite (inv_adj H), Eq.
    assert (Ei' : get2 (_incoming g) u v = None) by now rewrite <- (inv_adj H).
    unfold exec, eval, Graph_remove_edge.
    rewrite (bind_ok (Digraph_remove_edge_eq u v H'
                        ltac:(now rewrite Hu1, Hv1))).
    rewrite Digraph_remove_edge_eq;
      [|now apply Inv_cut|now rewrite !member_cut, Hu1, Hv1].
    simpl. rewrite get2_cut.
    destruct (Nat.eqb_spec u v) as [Huv|Huv].
    + rewrite <- Huv in *. rewrite !Nat.eqb_refl. simpl.
      split; [|reflexivity].
      unfold cut at 1. rewrite get2_cut, !Nat.eqb_refl. simpl.
      unfold cut. rewrite Eg. simpl.
      rewrite !adj_set_twice.
      rewrite get2_adj_set, !Nat.eqb_refl by exact Hu. simpl.
      unfold unlink. simpl. rewrite !adj_set_twice.
      rewrite !adj_pop_adj_set by assumption. now destruct g.
    + destruct (Nat.eqb_spec v u) as [Hvu|_]; [congruence|]. simpl.
      assert (Eo1 : get2 (_outgoing g') v u = Some e).
      { rewrite Eg. simpl. rewrite get2_adj_set, !Nat.eqb_refl;
          [reflexivity | now rewrite dict_mem_adj_set]. }
      assert (Eo2 : get2 (_outgoing g') u v = Some e).
      { rewrite Eg. simpl.
        rewrite get2_adj_set by (now rewrite dict_mem_adj_set).
        rewrite get2_adj_set, !Nat.eqb_refl by exact Hu.
        destruct ((u =? v) && (v =? u)); reflexivity. }
      split; [|now rewrite Eo1].
      unfold cut at 1. rewrite get2_cut.
      destruct (Nat.eqb_spec v u) as [Hvu|_]; [congruence|]. simpl.
      rewrite Eo1. unfold cut. rewrite Eo2. unfold unlink. simpl.
      rewrite Eg. simpl.
      assert (Ea : adj_pop (adj_pop (adj_set (adj_set (_outgoing g) u v e)
                                       v u e) u v) v u = _outgoing g).
      { rewrite (@adj_set_comm _ _ _ e e Huv Hu Hv).
        rewrite adj_pop_adj_set;
          [| rewrite get2_adj_set by exact Hv;
             destruct (Nat.eqb_spec u v); [congruence|exact E]
           | now rewrite dict_mem_adj_set].
        now apply adj_pop_adj_set. }
      assert (Eb : adj_pop (adj_pop (adj_set (adj_set (_incoming g) v u e)
                                       u v e) v u) u v = _incoming g).
      { rewrite (@adj_set_comm _ _ _ e e (not_eq_sym Huv) Hv' Hu').
        rewrite adj_pop_adj_set;
          [| rewrite get2_adj_set by exact Hu';
             destruct (Nat.eqb_spec v u); [congruence|exact Ei]
           | now rewrite dict_mem_adj_set].
        now apply adj_pop_adj_set. }
      rewrite Ea, Eb. now destruct g.
Qed.

Lemma insert_remove_round_trip_witness :
  reachable GraphClass Sample.graph /\
  endpoints (mkEdge 20 1 5 "e15" 1) = (1, 5) /\
  eval (edge 1 5) Sample.graph = Ok None /\
  exec (remove_edge GraphClass 1 5)
       (exec (insert_edge GraphClass (mkEdge 20 1 5 "e15" 1)) Sample.graph)
  = Sample.graph.
Proof.
  split; [exact Sample_graph_reachable|]. split; [reflexivity|].
  split; [reflexivity|].
  exact (proj1 (@insert_remove_round_trip GraphClass Sample.graph
                  (mkEdge 20 1 5 "e15" 1) 1 5
                  Sample_graph_reachable eq_refl eq_refl)).
Defined.

(** X9. On every undirected graph a program can build,
    [Graph.remove_edge(u, v)] with two different vertices returns what
    [edge(u, v)] returned, an exception included; with one vertex [u] of
    the graph given twice it returns [None], also when it has just removed
    the self-loop of [u]. *)
Theorem Graph_remove_edge_returns (g : Digraph) (u v : Vertex) :
  reachable GraphClass g ->
  (u <> v -> eval (Graph_remove_edge u v) g = eval (edge u v) g) /\
  (member u g = true ->
   eval (Graph_remove_edge u u) g = Ok None /\
   eval (edge u u) (exec (Graph_remove_edge u u) g) = Ok None) /\
  (member u g = false \/ member v g = false ->
   eval (Graph_remove_edge u v) g = Raise ValueError).
Proof.
  intros Hr. pose proof (reachable_Inv Hr) as H.
  destruct (reachable_ClassInv Hr) as [_ Eq].
  assert (Hgood : forall a b, member a g = true -> member b g = true ->
            Graph_remove_edge a b g =
            (Ok (get2 (_outgoing (cut a b g)) b a), cut b a (cut a b g))).
  { intros a b Ha Hb. unfold Graph_remove_edge.
    rewrite (bind_ok (Digraph_remove_edge_eq a b H
                        ltac:(now rewrite Ha, Hb))).
    apply Digraph_remove_edge_eq; [now apply Inv_cut|].
    now rewrite !member_cut, Ha, Hb. }
  assert (Hbad : member u g = false \/ member v g = false ->
                 eval (Graph_remove_edge u v) g = Raise ValueError).
  { intros Hm. unfold eval.
    change (Graph_remove_edge u v) with (remove_edge GraphClass u v).
    rewrite remove_edge_raise; [reflexivity|].
    destruct Hm as [-> | ->]; now rewrite ?andb_false_r. }
  split; [|split; [|exact Hbad]].
  - intros Hne. destruct (member u g) eqn:Hu, (member v g) eqn:Hv;
      try (rewrite Hbad by auto; unfold eval; rewrite edge_eq, Hu, Hv;
           reflexivity).
    unfold eval. rewrite Hgood, edge_eq, Hu, Hv by assumption. simpl.
    rewrite get2_cut.
    destruct (Nat.eqb_spec v u) as [Hvu|_]; [congruence|]. simpl.
    now rewrite (inv_adj H), Eq.
  - intros Hu.
    assert (Hu2 : member u (cut u u (cut u u g)) = true)
      by now rewrite !member_cut.
    unfold eval, exec. rewrite Hgood by assumption. simpl.
    rewrite edge_eq, Hu2. simpl.
    rewrite !get2_cut, !Nat.eqb_refl. auto.
Qed.

Lemma Graph_remove_edge_returns_witness :
  reachable GraphClass
    (exec (Graph_insert_edge Sample.e33) Sample.graph) /\
  eval (edge 3 3) (exec (Graph_insert_edge Sample.e33) Sample.graph)
  = Ok (Some Sample.e33) /\
  eval (Graph_remove_edge 3 3)
       (exec (Graph_insert_edge Sample.e33) Sample.graph) = Ok None.
Proof.
  assert (Hr : reachable GraphClass
                 (exec (Graph_insert_edge Sample.e33) Sample.graph))
    by exact (reach_call (call_insert_edge Sample.e33)
                Sample_graph_reachable).
  split; [exact Hr|]. split; [reflexivity|].
  exact (proj1 (proj1 (proj2 (@Graph_remove_edge_returns _ 3 3 Hr))
                  eq_refl)).
Defined.

(** * [Digraph.vertex] *)

Lemma first_tagged_app tag_of tag (l1 l2 : list Vertex) :
  first_tagged tag_of tag (l1 ++ l2) =
  match first_tagged tag_of tag l1 with
  | Some w => Some w
  | None => first_tagged tag_of tag l2
  end.
Proof.
  induction l1 as [|x l1 IH]; simpl; [reflexivity|].
  destruct (String.eqb (tag_of x) tag); [reflexivity|exact IH].
Qed.

Lemma first_tagged_Some tag_of tag (l : list Vertex) v :
  first_tagged tag_of tag l = Some v ->
  tag_of v = tag /\
  exists before after,
    l = before ++ v :: after /\ forall w, In w before -> tag_of w <> tag.
Proof.
  induction l as [|x l IH]; simpl; [discriminate|].
  destruct (String.eqb_spec (tag_of x) tag) as [E|E].
  - intros [= <-]. split; [exact E|]. exists [], l. split; [reflexivity|].
    intros w [].
  - intros Hv. destruct (IH Hv) as [Et [l1 [l2 [El Hl]]]].
    split; [exact Et|]. exists (x :: l1), l2. split; [now rewrite El|].
    intros w [<-|Hw]; auto.
Qed.

Lemma first_tagged_None tag_of tag (l : list Vertex) :
  first_tagged tag_of tag l = None <-> forall w, In w l -> tag_of w <> tag.
Proof.
  induction l as [|x l IH]; simpl.
  - split; [intros _ w [] | reflexivity].
  - destruct (String.eqb_spec (tag_of x) tag) as [E|E].
    + split; [discriminate|]. intros Hn. exfalso. apply (Hn x); auto.
    + rewrite IH. split.
      * intros Hn w [<-|Hw]; auto.
      * intros Hn w Hw. apply Hn. now right.
Qed.

(** X10. [vertex(tag)] returns the member with that tag that comes first
    in the order of insertion and raises exactly when no member has the
    tag.  After [insert_vertex(v)] it returns what it returned before, so
    an earlier vertex with the same tag hides a later one; where it raised
    before it now returns [v] if [v] has the tag and still raises if not. *)
Theorem vertex_first_match (tag_of : Vertex -> string) (tag : string)
                           (g : Digraph) :
  (forall v, vertex tag_of tag g = Some v ->
             eval (contains v) g = Ok true /\ tag_of v = tag /\
             exists before after,
               dict_keys (_outgoing g) = before ++ v :: after /\
               forall w, In w before -> tag_of w <> tag) /\
  (vertex tag_of tag g = None <->
   forall w, eval (contains w) g = Ok true -> tag_of w <> tag) /\
  (forall v,
      vertex tag_of tag (exec (insert_vertex v) g) =
      match vertex tag_of tag g with
      | Some w => Some w
      | None => if String.eqb (tag_of v) tag then Some v else None
      end).
Proof.
  unfold vertex, eval, vertices, read. simpl. split; [|split].
  - intros v Hv. destruct (first_tagged_Some _ _ _ Hv) as [Et Hsplit].
    split; [|split; assumption].
    rewrite contains_eq. simpl. f_equal. apply In_keys_mem.
    destruct Hsplit as [l1 [l2 [El _]]]. rewrite El.
    apply in_or_app. right. now left.
  - rewrite first_tagged_None. split.
    + intros Hn w Hw. rewrite contains_eq in Hw. simpl in Hw.
      injection Hw as Hw. apply Hn. now apply In_keys_mem.
    + intros Hn w Hw. apply Hn. rewrite contains_eq. simpl. f_equal.
      now apply In_keys_mem.
  - intros v. unfold exec. rewrite insert_vertex_eq. simpl.
    unfold add_vertex.
    destruct (dict_mem v (_outgoing g)) eqn:Em; simpl.
    + destruct (first_tagged tag_of tag (dict_keys (_outgoing g))) eqn:E;
        [reflexivity|].
      destruct (String.eqb_spec (tag_of v) tag) as [Et|Et]; [|reflexivity].
      exfalso. rewrite first_tagged_None in E. apply (E v); [|exact Et].
      now apply In_keys_mem.
    + rewrite dict_keys_set_new by exact Em.
      rewrite first_tagged_app. simpl.
      destruct (first_tagged tag_of tag (dict_keys (_outgoing g)));
        reflexivity.
Qed.

(** * Counting after a removal or an insertion *)

Lemma len_keys V (d : dict V) : len d = List.length (dict_keys d).
Proof. unfold len, dict_keys. now rewrite length_map. Qed.

Lemma deg_adj_pop (m : AdjMap) a b e v :
  adj_wf m -> get2 m a b = Some e ->
  deg (adj_pop m a b) v + (if v =? a then 1 else 0) = deg m v.
Proof.
  intros [Hm Hin]. unfold deg, adj_pop, get2.
  destruct (dict_get a m) as [d|] eqn:E; [|discriminate].
  intros Eb. rewrite dict_get_set.
  destruct (Nat.eqb_spec v a) as [->|Hne]; [|lia].
  rewrite E.
  assert (Hl : S (len (dict_pop b d)) = len d).
  { apply len_pop; [now apply (Hin a)|]. apply dict_mem_get. eauto. }
  lia.
Qed.

(** Removing an entry that touches [v] takes one from the number of
    entries and one from each degree of [v] it counts in. *)
Lemma potential_cut a b v s :
  Inv s -> a = v \/ b = v ->
  total (_outgoing (cut a b s)) + loops (cut a b s) v
  + deg (_outgoing s) v + deg (_incoming s) v
  = total (_outgoing s) + loops s v
    + deg (_outgoing (cut a b s)) v + deg (_incoming (cut a b s)) v.
Proof.
  intros H Hab. unfold loops. rewrite get2_cut. unfold cut.
  destruct (get2 (_outgoing s) a b) as [e|] eqn:E.
  - simpl.
    pose proof (@total_adj_pop _ _ _ _ (inv_wf_out H) E) as Ht.
    pose proof (@deg_adj_pop _ _ _ _ v (inv_wf_out H) E) as Ho.
    pose proof E as E'. rewrite (inv_adj H) in E'.
    pose proof (@deg_adj_pop _ _ _ _ v (inv_wf_inc H) E') as Hi.
    destruct (Nat.eqb_spec v a) as [Ea|Ea], (Nat.eqb_spec v b) as [Eb|Eb];
      simpl; subst.
    + rewrite E. lia.
    + destruct (get2 (_outgoing s) a a); lia.
    + destruct (get2 (_outgoing s) b b); lia.
    + destruct Hab; congruence.
  - destruct ((v =? a) && (v =? b)) eqn:Ev; [|lia].
    apply eqb_pair_true in Ev. destruct Ev; subst. rewrite E. lia.
Qed.

Lemma potential_detach c v u s :
  Inv s ->
  total (_outgoing (detach c v u s)) + loops (detach c v u s) v
  + deg (_outgoing s) v + deg (_incoming s) v
  = total (_outgoing s) + loops s v
    + deg (_outgoing (detach c v u s)) v + deg (_incoming (detach c v u s)) v.
Proof.
  intros H. unfold detach. destruct c; simpl.
  - pose proof (@potential_cut u v v s H (or_intror eq_refl)) as P1.
    pose proof (@potential_cut v u v (cut u v s) (Inv_cut u v H)
                  (or_introl eq_refl)) as P2.
    lia.
  - set (s1 := cut u v s). set (s2 := cut v u s1). set (s3 := cut v u s2).
    assert (H1 : Inv s1) by now apply Inv_cut.
    assert (H2 : Inv s2) by now apply Inv_cut.
    assert (H3 : Inv s3) by now apply Inv_cut.
    pose proof (@potential_cut u v v s H (or_intror eq_refl)) as P1.
    pose proof (@potential_cut v u v s1 H1 (or_introl eq_refl)) as P2.
    pose proof (@potential_cut v u v s2 H2 (or_introl eq_refl)) as P3.
    pose proof (@potential_cut u v v s3 H3 (or_intror eq_refl)) as P4.
    fold s1 in P1. fold s2 in P2. fold s3 in P3. lia.
Qed.

Lemma potential_detach_all c v l s :
  Inv s ->
  total (_outgoing (detach_all c v l s)) + loops (detach_all c v l s) v
  + deg (_outgoing s) v + deg (_incoming s) v
  = total (_outgoing s) + loops s v
    + deg (_outgoing (detach_all c v l s)) v
    + deg (_incoming (detach_all c v l s)) v.
Proof.
  revert s. induction l as [|u l IH]; intros s H; simpl; [lia|].
  assert (H1 : Inv (detach c v u s))
    by (unfold detach; now apply Inv_cuts, Inv_cuts).
  pose proof (potential_detach c v u H) as P1.
  pose proof (IH _ H1) as P2. lia.
Qed.

(** X11. On every graph a program can build and for every member [v],
    [remove_vertex(v)] takes one from [vertex_count()] and takes from
    [edge_count()] the out-degree and the in-degree of [v], a self-loop of
    [v] counting once. *)
Theorem remove_vertex_counts (c : Class) (g : Digraph) (v : Vertex) :
  reachable c g -> member v g = true ->
  let g' := exec (remove_vertex c v) g in
  exists n n' o i k r,
    eval edge_count g = Ok n /\
    eval edge_count g' = Ok n' /\
    eval (out_degree v) g = Ok o /\
    eval (in_degree v) g = Ok i /\
    eval (edge v v) g = Ok r /\
    n' + o + i = n + (match r with Some _ => 1 | None => 0 end) /\
    eval vertex_count g = Ok (S k) /\
    eval vertex_count g' = Ok k.
Proof.
  intros Hr Hv g'.
  pose proof (reachable_ClassInv Hr) as HC.
  pose proof (reachable_Inv Hr) as H.
  assert (H' : Inv g').
  { apply (@reachable_Inv c). exact (reach_call (call_remove_vertex v) Hr). }
  set (s1 := detach_all c v (dict_keys (_outgoing g)) g).
  assert (Eg : g' = drop_vertex v s1).
  { unfold g', exec. now rewrite remove_vertex_eq. }
  assert (H1 : Inv s1) by now apply Inv_detach_all.
  destruct (@detached_empty c v g H Hv) as [Eo Ei]. fold s1 in Eo, Ei.
  destruct (member_queries_return v Hr Hv)
    as (d & d' & Es & Ep & Eod & Eid & _).
  assert (Ed : dict_get v (_outgoing g) = Some d).
  { unfold eval in Es. rewrite successors_eq, Hv in Es.
    destruct (dict_get v (_outgoing g)); simpl in Es; congruence. }
  assert (Ed' : dict_get v (_incoming g) = Some d').
  { unfold eval in Ep. rewrite predecessors_eq, Hv in Ep.
    destruct (dict_get v (_incoming g)); simpl in Ep; congruence. }
  pose proof (potential_detach_all c v (dict_keys (_outgoing g)) H) as P.
  fold s1 in P. unfold deg, loops in P.
  rewrite Eo, Ei, Ed, Ed' in P.
  assert (El : get2 (_outgoing s1) v v = None).
  { unfold get2. now rewrite Eo. }
  rewrite El in P. simpl in P.
  pose proof (@total_dict_pop _ _ _ (proj1 (inv_wf_out H1)) Eo) as To.
  simpl in To.
  exists (total (_outgoing g)), (total (_outgoing g')), (len d), (len d'),
         (len (_outgoing g')), (get2 (_outgoing g) v v).
  unfold eval.
  rewrite !edge_count_eq by (apply inv_wf_out; assumption).
  rewrite !vertex_count_eq. simpl.
  split; [reflexivity|]. split; [reflexivity|].
  split; [exact Eod|]. split; [exact Eid|].
  split; [rewrite edge_eq, Hv; reflexivity|].
  split.
  - rewrite Eg. simpl. lia.
  - split; [|reflexivity]. f_equal. rewrite Eg. simpl. symmetry.
    replace (len (_outgoing g)) with (len (_outgoing s1)).
    + apply len_pop; [apply (inv_wf_out H1)|].
      apply dict_mem_get. eauto.
    + rewrite !len_keys. unfold s1. now rewrite keys_detach_all.
Qed.

Lemma remove_vertex_counts_witness :
  reachable DigraphClass Bfs.g /\
  member Bfs.a Bfs.g = true /\
  exists n n' o i k r,
    eval edge_count Bfs.g = Ok n /\
    eval edge_count (exec (remove_vertex DigraphClass Bfs.a) Bfs.g) = Ok n' /\
    eval (out_degree Bfs.a) Bfs.g = Ok o /\
    eval (in_degree Bfs.a) Bfs.g = Ok i /\
    eval (edge Bfs.a Bfs.a) Bfs.g = Ok r /\
    n' + o + i = n + (match r with Some _ => 1 | None => 0 end) /\
    eval vertex_count Bfs.g = Ok (S k) /\
    eval vertex_count (exec (remove_vertex DigraphClass Bfs.a) Bfs.g) = Ok k.
Proof.
  assert (Hr : reachable DigraphClass Bfs.g).
  { exact (@reachable_run_calls DigraphClass
             [call_insert_edge Bfs.ab; call_insert_edge Bfs.ba;
              call_insert_edge Bfs.ac; call_insert_edge Bfs.ca;
              call_insert_edge Bfs.ad; call_insert_edge Bfs.bc;
              call_insert_edge Bfs.bd] Digraph_init
             (reach_init DigraphClass)). }
  split; [exact Hr|]. split; [reflexivity|].
  exact (@remove_vertex_counts DigraphClass Bfs.g Bfs.a Hr eq_refl).
Defined.

Lemma len_add_vertex v s :
  len (_outgoing (add_vertex v s))
  = len (_outgoing s) + (if member v s then 0 else 1).
Proof.
  unfold add_vertex, member.
  destruct (dict_mem v (_outgoing s)) eqn:E; simpl; [lia|].
  rewrite len_set, E. lia.
Qed.

Lemma has_key2_None (m : AdjMap) u v :
  has_key2 m u v = false <-> get2 m u v = None.
Proof.
  unfold has_key2, get2. destruct (dict_get u m) as [d|].
  - apply dict_mem_false.
  - tauto.
Qed.

(** X12. On every graph a program can build, [insert_edge(e)] raises
    [vertex_count()] by the number of endpoints of [e] that were no
    members.  It leaves [edge_count()] as it was when [v] was a key of
    [outgoing[u]]; otherwise it raises it by one on a directed graph, and
    on an undirected graph by two, or by one for a self-loop. *)
Theorem insert_edge_counts (c : Class) (g : Digraph) (e : Edge)
                           (u v : Vertex) :
  reachable c g -> endpoints e = (u, v) ->
  let g' := exec (insert_edge c e) g in
  exists n k,
    eval vertex_count g = Ok n /\
    eval vertex_count g' =
    Ok (n + (if member u g then 0 else 1)
          + (if member v g || (v =? u) then 0 else 1)) /\
    eval edge_count g = Ok k /\
    eval edge_count g' =
    Ok (k + (if has_key2 (_outgoing g) u v then 0
             else match c with
                  | DigraphClass => 1
                  | GraphClass => if u =? v then 1 else 2
                  end)).
Proof.
  intros Hr He g'. injection He as <- <-.
  set (u := _head e) in *. set (v := _tail e) in *.
  pose proof (reachable_Inv Hr) as H.
  assert (H' : Inv g').
  { apply (@reachable_Inv c). exact (reach_call (call_insert_edge e) Hr). }
  set (s2 := add_vertex v (add_vertex u g)).
  assert (H2 : Inv s2) by now apply Inv_add_vertex, Inv_add_vertex.
  assert (Hu : member u s2 = true).
  { unfold s2. rewrite member_inserted, Nat.eqb_refl.
    now rewrite orb_true_r. }
  assert (Hv : member v s2 = true).
  { unfold s2. now rewrite member_inserted, Nat.eqb_refl. }
  assert (Eg : g' = match c with
                    | DigraphClass => link u v e s2
                    | GraphClass => link v u e (link u v e s2)
                    end).
  { unfold g', exec. destruct c; simpl.
    - now rewrite Digraph_insert_edge_eq.
    - now rewrite Graph_insert_edge_eq. }
  assert (El : len (_outgoing s2)
               = len (_outgoing g) + (if member u g then 0 else 1)
                 + (if member v g || (v =? u) then 0 else 1)).
  { unfold s2. rewrite !len_add_vertex, member_add_vertex.
    rewrite (orb_comm (v =? u)). lia. }
  assert (Et : total (_outgoing s2) = total (_outgoing g)).
  { unfold s2. now rewrite !total_add_vertex. }
  assert (Eget : forall a b, get2 (_outgoing s2) a b = get2 (_outgoing g) a b).
  { intros a b. unfold s2. now rewrite !get2_add_vertex. }
  exists (len (_outgoing g)), (total (_outgoing g)). unfold eval.
  rewrite !vertex_count_eq, !edge_count_eq by (apply inv_wf_out; assumption).
  simpl. split; [reflexivity|]. split; [|split; [reflexivity|]].
  - f_equal. rewrite <- El, Eg. destruct c; simpl;
      now rewrite ?len_adj_set.
  - f_equal. rewrite <- Et, Eg.
    destruct (has_key2 (_outgoing g) u v) eqn:Ek.
    + apply has_key2_get2 in Ek. destruct Ek as [x Ex].
      destruct c; simpl.
      * rewrite total_adj_set, Eget, Ex by exact Hu. lia.
      * destruct (reachable_ClassInv Hr) as [_ Eq].
        assert (Ex' : get2 (_outgoing g) v u = Some x)
          by now rewrite (inv_adj H), Eq.
        rewrite total_adj_set by (now rewrite dict_mem_adj_set).
        rewrite get2_adj_set by exact Hu.
        rewrite total_adj_set by exact Hu.
        rewrite !Eget, Ex, Ex'.
        destruct ((v =? u) && (u =? v)); lia.
    + apply has_key2_None in Ek. destruct c; simpl.
      * rewrite total_adj_set, Eget, Ek by exact Hu. lia.
      * destruct (reachable_ClassInv Hr) as [_ Eq].
        assert (Ek' : get2 (_outgoing g) v u = None)
          by now rewrite (inv_adj H), Eq.
        rewrite total_adj_set by (now rewrite dict_mem_adj_set).
        rewrite get2_adj_set by exact Hu.
        rewrite total_adj_set by exact Hu.
        rewrite !Eget, Ek, Ek'.
        destruct (Nat.eqb_spec u v) as [Huv|Huv].
        -- rewrite <- Huv, !Nat.eqb_refl. simpl. lia.
        -- destruct (Nat.eqb_spec v u) as [Hvu|_]; [congruence|]. simpl. lia.
Qed.

Lemma insert_edge_counts_witness :
  reachable DigraphClass Sample.digraph /\
  endpoints Sample.e33 = (3, 3) /\
  exists n k,
    eval vertex_count Sample.digraph = Ok n /\
    eval vertex_count (exec (insert_edge DigraphClass Sample.e33)
                            Sample.digraph) =
    Ok (n + (if member 3 Sample.digraph then 0 else 1)
          + (if member 3 Sample.digraph || (3 =? 3) then 0 else 1)) /\
    eval edge_count Sample.digraph = Ok k /\
    eval edge_count (exec (insert_edge DigraphClass Sample.e33)
                          Sample.digraph) =
    Ok (k + (if has_key2 (_outgoing Sample.digraph) 3 3 then 0 else 1)).
Proof.
  split; [exact Sample_digraph_reachable|]. split; [reflexivity|].
  exact (@insert_edge_counts DigraphClass Sample.digraph Sample.e33 3 3
           Sample_digraph_reachable eq_refl).
Defined.

(** X13. On every graph a program can build, [remove_edge(u, v)] leaves
    [vertex_count()] as it was, whether it returns or raises.  Where [v] is
    a key of [outgoing[u]] it takes one from [edge_count()] on a directed
    graph, and two, or one for a self-loop, on an undirected graph;
    elsewhere [edge_count()] stays. *)
Theorem remove_edge_counts (c : Class) (g : Digraph) (u v : Vertex) :
  reachable c g ->
  let g' := exec (remove_edge c u v) g in
  exists n k k',
    eval vertex_count g = Ok n /\
    eval vertex_count g' = Ok n /\
    eval edge_count g = Ok k /\
    eval edge_count g' = Ok k' /\
    k = k' + (if has_key2 (_outgoing g) u v then
                match c with
                | DigraphClass => 1
                | GraphClass => if u =? v then 1 else 2
                end
              else 0).
Proof.
  intros Hr g'. pose proof (reachable_ClassInv Hr) as HC.
  pose proof (reachable_Inv Hr) as H.
  assert (H' : Inv g').
  { apply (@reachable_Inv c). exact (reach_call (call_remove_edge u v) Hr). }
  exists (len (_outgoing g)), (total (_outgoing g)), (total (_outgoing g')).
  unfold eval.
  rewrite !vertex_count_eq, !edge_count_eq by (apply inv_wf_out; assumption).
  simpl. split; [reflexivity|].
  assert (Hcut : forall a b s, Inv s ->
            total (_outgoing s) = total (_outgoing (cut a b s))
              + (match get2 (_outgoing s) a b with Some _ => 1 | None => 0 end)).
  { intros a b s Hs. unfold cut.
    destruct (get2 (_outgoing s) a b) as [x|] eqn:Ex; [|lia]. simpl.
    pose proof (@total_adj_pop _ _ _ _ (inv_wf_out Hs) Ex). lia. }
  destruct (member u g && member v g) eqn:Hm.
  - apply andb_true_iff in Hm. destruct Hm as [Hu Hv].
    assert (Eg : g' = cuts c u v g).
    { unfold g', exec.
      destruct (remove_edge_members c u v g HC Hu Hv) as [r ->].
      reflexivity. }
    split; [f_equal; rewrite Eg, !len_keys; now rewrite keys_cuts|].
    split; [reflexivity|]. split; [reflexivity|].
    rewrite Eg. destruct c; simpl.
    + rewrite (Hcut u v g H).
      destruct (has_key2 (_outgoing g) u v) eqn:Ek.
      * apply has_key2_get2 in Ek. destruct Ek as [x ->]. lia.
      * apply has_key2_None in Ek. rewrite Ek. lia.
    + destruct HC as [_ Eq].
      rewrite (Hcut u v g H), (Hcut v u (cut u v g) (Inv_cut u v H)).
      rewrite get2_cut.
      assert (Esym : get2 (_outgoing g) v u = get2 (_outgoing g) u v)
        by now rewrite (inv_adj H), Eq.
      rewrite Esym.
      destruct (has_key2 (_outgoing g) u v) eqn:Ek.
      * apply has_key2_get2 in Ek. destruct Ek as [x ->].
        destruct (Nat.eqb_spec u v) as [Huv|Huv].
        -- rewrite <- Huv, !Nat.eqb_refl. simpl. lia.
        -- destruct (Nat.eqb_spec v u) as [Hvu|_]; [congruence|]. simpl. lia.
      * apply has_key2_None in Ek. rewrite Ek.
        destruct ((v =? u) && (u =? v)); lia.
  - assert (Eg : g' = g).
    { unfold g', exec. now rewrite remove_edge_raise. }
    rewrite Eg. split; [reflexivity|].
    split; [reflexivity|]. split; [reflexivity|].
    assert (Ek : has_key2 (_outgoing g) u v = false).
    { apply has_key2_None. apply andb_false_iff in Hm.
      destruct Hm; [now apply get2_nonmember_l|now apply get2_nonmember_r]. }
    rewrite Ek. lia.
Qed.

Lemma remove_edge_counts_witness :
  reachable GraphClass Sample.graph /\
  exists n k k',
    eval vertex_count Sample.graph = Ok n /\
    eval vertex_count (exec (remove_edge GraphClass 1 2) Sample.graph)
    = Ok n /\
    eval edge_count Sample.graph = Ok k /\
    eval edge_count (exec (remove_edge GraphClass 1 2) Sample.graph)
    = Ok k' /\
    k = k' + (if has_key2 (_outgoing Sample.graph) 1 2 then
                if 1 =? 2 then 1 else 2
              else 0).
Proof.
  split; [exact Sample_graph_reachable|].
  exact (@remove_edge_counts GraphClass Sample.graph 1 2
           Sample_graph_reachable).
Defined.

(** * [graph_read] *)

Lemma tag_get_app (t : string) (d1 d2 : TagMap) :
  tag_get t (d1 ++ d2) =
  match tag_get t d1 with Some x => Some x | None => tag_get t d2 end.
Proof.
  induction d1 as [|[k x] d1 IH]; simpl; [reflexivity|].
  destruct (String.eqb t k); [reflexivity|exact IH].
Qed.

Lemma tag_get_In (t : string) (d : TagMap) (x : Vertex) : tag_get t d = Some x -> In (t, x) d.
Proof.
  induction d as [|[k y] d IH]; simpl; [discriminate|].
  destruct (String.eqb_spec t k) as [->|Hne].
  - intros [= ->]. now left.
  - auto.
Qed.

Lemma tag_get_None (t : string) (d : TagMap) :
  tag_get t d = None <-> ~ In t (map fst d).
Proof.
  induction d as [|[k y] d IH]; simpl; [tauto|].
  destruct (String.eqb_spec t k) as [->|Hne].
  - split; [discriminate | intros H; exfalso; auto].
  - rewrite IH. split; [|tauto]. intros H [E|E]; [congruence|auto].
Qed.

Lemma tag_get_Some_In (t : string) (d : TagMap) :
  In t (map fst d) <-> exists x, tag_get t d = Some x.
Proof.
  destruct (tag_get t d) as [x|] eqn:E.
  - split; [eauto|]. intros _. apply tag_get_In in E.
    apply in_map_iff. now exists (t, x).
  - apply tag_get_None in E. split; [contradiction|].
    intros [x Hx]. discriminate.
Qed.

Lemma ensure_tag_vertices (u : string) (r : Reader) :
  rd_vertices (ensure_tag u r) =
  match tag_get u (rd_vertices r) with
  | Some _ => rd_vertices r
  | None => rd_vertices r ++ [(u, rd_vertex_ids r)]
  end.
Proof.
  unfold ensure_tag. destruct (tag_get u (rd_vertices r)); reflexivity.
Qed.

Lemma ensure_tag_found (u : string) (r : Reader) :
  exists x, tag_get u (rd_vertices (ensure_tag u r)) = Some x.
Proof.
  rewrite ensure_tag_vertices.
  destruct (tag_get u (rd_vertices r)) as [x|] eqn:E; [eauto|].
  rewrite tag_get_app, E. simpl. rewrite String.eqb_refl. eauto.
Qed.

Lemma ensure_tag_keeps (u : string) (r : Reader) (t : string) (x : Vertex) :
  tag_get t (rd_vertices r) = Some x ->
  tag_get t (rd_vertices (ensure_tag u r)) = Some x.
Proof.
  intros E. rewrite ensure_tag_vertices.
  destruct (tag_get u (rd_vertices r)); [exact E|].
  now rewrite tag_get_app, E.
Qed.

Lemma ensure_tag_graph (u : string) (r : Reader) : rd_graph (ensure_tag u r) = rd_graph r.
Proof.
  unfold ensure_tag. destruct (tag_get u (rd_vertices r)); reflexivity.
Qed.

Lemma ensure_tag_edge_ids (u : string) (r : Reader) : rd_edge_ids (ensure_tag u r) = rd_edge_ids r.
Proof.
  unfold ensure_tag. destruct (tag_get u (rd_vertices r)); reflexivity.
Qed.

(** The tag dictionary after [ensure_tag]: identities are given out in
    order, a known tag keeps its vertex. *)
Lemma ensure_tag_ids (u : string) (r : Reader) :
  map snd (rd_vertices r) = seq 0 (rd_vertex_ids r) ->
  NoDup (map fst (rd_vertices r)) ->
  map snd (rd_vertices (ensure_tag u r)) = seq 0 (rd_vertex_ids (ensure_tag u r))
  /\ NoDup (map fst (rd_vertices (ensure_tag u r)))
  /\ (forall t, In t (map fst (rd_vertices (ensure_tag u r))) <->
                t = u \/ In t (map fst (rd_vertices r))).
Proof.
  intros Hs Hn. unfold ensure_tag.
  destruct (tag_get u (rd_vertices r)) as [x|] eqn:E;
    cbn [rd_vertices rd_vertex_ids].
  - split; [exact Hs|]. split; [exact Hn|]. intros t. split; [auto|].
    intros [->|H]; [|exact H]. apply tag_get_Some_In. eauto.
  - rewrite !map_app, seq_S, Hs. simpl. split; [reflexivity|]. split.
    + apply NoDup_app; [exact Hn | repeat constructor; simpl; tauto|].
      intros a Ha [<-|[]]. apply tag_get_None in E. contradiction.
    + intros t. rewrite in_app_iff. simpl. intuition.
Qed.

Lemma keys_add_vertex v s :
  dict_keys (_outgoing (add_vertex v s)) =
  dict_keys (_outgoing s) ++ (if member v s then [] else [v]).
Proof.
  unfold add_vertex, member.
  destruct (dict_mem v (_outgoing s)) eqn:E; simpl.
  - now rewrite app_nil_r.
  - now apply dict_keys_set_new.
Qed.

Lemma keys_insert_edge c e s :
  Inv s ->
  dict_keys (_outgoing (exec (insert_edge c e) s)) =
  dict_keys (_outgoing s)
  ++ (if member (_head e) s then [] else [_head e])
  ++ (if member (_tail e) s || (_tail e =? _head e) then [] else [_tail e]).
Proof.
  intros H. unfold exec.
  assert (E : dict_keys (_outgoing (add_vertex (_tail e)
                                      (add_vertex (_head e) s))) =
              dict_keys (_outgoing s)
              ++ (if member (_head e) s then [] else [_head e])
              ++ (if member (_tail e) s || (_tail e =? _head e)
                  then [] else [_tail e])).
  { rewrite !keys_add_vertex, member_add_vertex, <- app_assoc.
    now rewrite (orb_comm (_tail e =? _head e)). }
  destruct c; simpl.
  - rewrite Digraph_insert_edge_eq by assumption. simpl.
    now rewrite dict_keys_adj_set.
  - rewrite Graph_insert_edge_eq by assumption. simpl.
    now rewrite !dict_keys_adj_set.
Qed.

Lemma insert_edge_get2_kept c e s a b (x : Edge) :
  Inv s -> get2 (_outgoing s) a b = Some x ->
  exists y, get2 (_outgoing (exec (insert_edge c e) s)) a b = Some y.
Proof.
  intros H E. destruct c; simpl.
  - rewrite Digraph_insert_edge_get2 by assumption.
    destruct ((a =? _head e) && (b =? _tail e)); eauto.
  - rewrite Graph_insert_edge_get2 by assumption.
    destruct ((a =? _head e) && (b =? _tail e)
              || (a =? _tail e) && (b =? _head e)); eauto.
Qed.

Lemma insert_edge_get2_from c e s a b (x : Edge) :
  Inv s -> get2 (_outgoing (exec (insert_edge c e) s)) a b = Some x ->
  x = e \/ get2 (_outgoing s) a b = Some x.
Proof.
  intros H. destruct c; simpl.
  - rewrite Digraph_insert_edge_get2 by assumption.
    destruct ((a =? _head e) && (b =? _tail e)); [left; congruence|auto].
  - rewrite Graph_insert_edge_get2 by assumption.
    destruct ((a =? _head e) && (b =? _tail e)
              || (a =? _tail e) && (b =? _head e)); [left; congruence|auto].
Qed.

Lemma mentioned_app (l1 l2 : list (list string)) : mentioned (l1 ++ l2) = mentioned l1 ++ mentioned l2.
Proof. unfold mentioned. apply flat_map_app. Qed.

Lemma line_ok_tokens (float : string -> option Z) (token : list string) :
  line_ok float token = true ->
  exists (t0 u v : string) (w : Z),
    nth_error token 0 = Some t0 /\ nth_error token 1 = Some u /\
    nth_error token 2 = Some v /\ read_weight float token = Read w.
Proof.
  unfold line_ok, read_weight. intros H. apply andb_true_iff in H.
  destruct H as [Hlen Hw]. apply Nat.leb_le in Hlen.
  destruct token as [|t0 [|u [|v rest]]]; simpl in Hlen; try lia.
  exists t0, u, v.
  destruct (List.length (t0 :: u :: v :: rest) =? 4).
  - destruct (nth_error (t0 :: u :: v :: rest) 3) as [t|]; [|discriminate].
    destruct (float t) as [w|]; [|discriminate]. exists w. auto.
  - exists 1%Z. auto.
Qed.

Lemma mentioned_line (token : list string) (u v : string) :
  nth_error token 1 = Some u -> nth_error token 2 = Some v ->
  mentioned [token] = [u; v].
Proof.
  intros E1 E2. unfold mentioned. cbn [flat_map]. now rewrite E1, E2.
Qed.

Lemma read_line_step (float : string -> option Z) c
      (done : list (list string)) (r : Reader) (g : Digraph)
      (token : list string) :
  RInv float c done r g -> line_ok float token = true ->
  exists r' g', read_line float token r = Read r' /\
                RInv float c (done ++ [token]) r' g'.
Proof.
  intros (Hg & Hr & Hk & Hs & Hn & Hm & Hp & Ha) Hok.
  destruct (line_ok_tokens _ _ Hok) as (t0 & u & v & w & E0 & E1 & E2 & Ew).
  pose proof (reachable_Inv Hr) as HI.
  destruct (ensure_tag_ids u r Hs Hn) as (Hs1 & Hn1 & Hm1).
  destruct (ensure_tag_ids v (ensure_tag u r) Hs1 Hn1) as (Hs2 & Hn2 & Hm2).
  destruct (ensure_tag_found u r) as [vu Hvu1].
  pose proof (ensure_tag_keeps v (ensure_tag u r) u Hvu1) as Hvu.
  destruct (ensure_tag_found v (ensure_tag u r)) as [vv Hvv].
  set (r2 := ensure_tag v (ensure_tag u r)) in *.
  set (e := mkEdge (rd_edge_ids r2) vu vv t0 w).
  exists (mkReader (Some (c, exec (insert_edge c e) g)) (rd_vertices r2)
                   (rd_vertex_ids r2) (S (rd_edge_ids r2))),
         (exec (insert_edge c e) g).
  split.
  - unfold read_line. rewrite E1, E2, Ew. cbv zeta. fold r2.
    rewrite Hvu, Hvv, E0.
    assert (Hg2 : rd_graph r2 = Some (c, g))
      by (unfold r2; now rewrite !ensure_tag_graph).
    rewrite Hg2. fold e.
    pose proof (insert_edge_returns c e HI) as Hret.
    unfold eval in Hret. unfold exec.
    destruct (insert_edge c e g) as [res g']. simpl in *. now subst res.
  - assert (Hmem : forall x, member x g = true <-> x < rd_vertex_ids r).
    { intros x. unfold member. rewrite <- In_keys_mem, Hk, Hs, in_seq. lia. }
    assert (Hold : forall t x, tag_get t (rd_vertices r) = Some x ->
                               tag_get t (rd_vertices r2) = Some x).
    { intros t x E. unfold r2. now apply ensure_tag_keeps, ensure_tag_keeps. }
    unfold RInv. cbn [rd_graph rd_vertices rd_vertex_ids rd_edge_ids].
    split; [reflexivity|].
    split; [exact (@reach_call c g (call_insert_edge e) Hr)|].
    split.
    { rewrite keys_insert_edge by assumption. cbn [_head _tail e].
      rewrite Hk. clear Hold Hp Ha Hm Hm1 Hm2 Hn1 Hn2 Hs1 Hs2 Hvu.
      unfold r2 in *. clear r2 e.
      rewrite (ensure_tag_vertices v (ensure_tag u r)) in *.
      rewrite (ensure_tag_vertices u r) in *.
      assert (Hlt : forall t x, tag_get t (rd_vertices r) = Some x ->
                                x < rd_vertex_ids r).
      { intros t x E. apply tag_get_In in E.
        assert (In x (map snd (rd_vertices r)))
          by (apply in_map_iff; now exists (t, x)).
        rewrite Hs in H. apply in_seq in H. lia. }
      destruct (tag_get u (rd_vertices r)) as [x|] eqn:Eu.
      - assert (x = vu) by congruence. subst x.
        pose proof (Hlt _ _ Eu) as Lu.
        assert (Mu : member vu g = true) by now apply Hmem.
        rewrite Mu. simpl.
        replace (ensure_tag u r) with r in *
          by (unfold ensure_tag; now rewrite Eu).
        destruct (tag_get v (rd_vertices r)) as [y|] eqn:Ev.
        + assert (y = vv) by congruence. subst y.
          assert (Mv : member vv g = true) by (apply Hmem; eauto).
          rewrite Mv. simpl. now rewrite app_nil_r.
        + rewrite tag_get_app, Ev in Hvv. simpl in Hvv.
          rewrite String.eqb_refl in Hvv. injection Hvv as <-.
          assert (Mv : member (rd_vertex_ids r) g = false).
          { destruct (member (rd_vertex_ids r) g) eqn:M; [|reflexivity].
            apply Hmem in M. lia. }
          rewrite Mv. cbn [orb app].
          destruct (Nat.eqb_spec (rd_vertex_ids r) vu); [lia|].
          now rewrite map_app.
      - rewrite tag_get_app, Eu in Hvu1. simpl in Hvu1.
        rewrite String.eqb_refl in Hvu1. injection Hvu1 as <-.
        assert (Mu : member (rd_vertex_ids r) g = false).
        { destruct (member (rd_vertex_ids r) g) eqn:M; [|reflexivity].
          apply Hmem in M. lia. }
        rewrite Mu.
        assert (En : rd_vertex_ids (ensure_tag u r) = S (rd_vertex_ids r))
          by (unfold ensure_tag; now rewrite Eu).
        rewrite En in Hvv |- *.
        destruct (tag_get v (rd_vertices r ++ [(u, rd_vertex_ids r)]))
          as [y|] eqn:Ev.
        + assert (y = vv) by congruence. subst y.
          rewrite tag_get_app in Ev.
          destruct (tag_get v (rd_vertices r)) as [z|] eqn:Ez.
          * injection Ev as ->.
            assert (Mv : member vv g = true) by (apply Hmem; eauto).
            rewrite Mv. simpl. now rewrite map_app.
          * simpl in Ev. destruct (String.eqb v u); [|discriminate].
            injection Ev as <-. rewrite Nat.eqb_refl, orb_true_r.
            now rewrite map_app.
        + rewrite tag_get_app, Ev in Hvv. simpl in Hvv.
          rewrite String.eqb_refl in Hvv. injection Hvv as <-.
          assert (Mv : member (S (rd_vertex_ids r)) g = false).
          { destruct (member (S (rd_vertex_ids r)) g) eqn:M; [|reflexivity].
            apply Hmem in M. lia. }
          rewrite Mv. cbn [orb].
          destruct (Nat.eqb_spec (S (rd_vertex_ids r)) (rd_vertex_ids r));
            [lia|].
          rewrite !map_app. cbn [map snd]. now rewrite <- app_assoc. }
    split; [exact Hs2|]. split; [exact Hn2|].
    split.
    { intros t. rewrite mentioned_app, in_app_iff.
      rewrite (mentioned_line token E1 E2). simpl.
      rewrite Hm2, Hm1, Hm. intuition. }
    split.
    { intros a b x E. apply insert_edge_get2_from in E; [|assumption].
      destruct E as [->|E].
      - exists token, t0, u, v. rewrite in_app_iff. simpl.
        repeat split; auto.
      - destruct (Hp _ _ _ E) as (tk & s0 & su & sv & Hin & F0 & F1 & F2
                                  & Ft & Fu & Fv & Fw).
        exists tk, s0, su, sv. rewrite in_app_iff.
        repeat split; auto. }
    intros tk su sv Hin F1 F2. apply in_app_iff in Hin.
    destruct Hin as [Hin|[<-|[]]].
    + destruct (Ha _ _ _ Hin F1 F2) as (a & b & x & Fa & Fb & Fx).
      destruct (@insert_edge_get2_kept c e g a b x HI Fx) as [y Hy].
      exists a, b, y. auto.
    + assert (su = u) by congruence. assert (sv = v) by congruence.
      subst su sv. exists vu, vv, e. repeat split; auto.
      exact (@insert_edge_get2_same c e g HI).
Qed.

Lemma read_lines_ok (float : string -> option Z) c (lines : list (list string)) :
  forall (done : list (list string)) (r : Reader) (g : Digraph),
    RInv float c done r g -> forallb (line_ok float) lines = true ->
    exists r' g', read_lines float lines r = Read r' /\
                  RInv float c (done ++ lines) r' g'.
Proof.
  induction lines as [|token lines IH]; intros done r g H Hok.
  - exists r, g. rewrite app_nil_r. auto.
  - simpl in Hok. apply andb_true_iff in Hok. destruct Hok as [H1 H2].
    destruct (read_line_step token H H1) as (r1 & g1 & E & H').
    destruct (IH _ _ _ H' H2) as (r' & g' & E' & H'').
    exists r', g'. simpl. rewrite E. rewrite <- app_assoc in H''. auto.
Qed.

Lemma read_line_Read_ok (float : string -> option Z) (token : list string)
      (r r' : Reader) :
  read_line float token r = Read r' -> line_ok float token = true.
Proof.
  unfold read_line, line_ok, read_weight.
  destruct token as [|t0 [|u [|v rest]]]; simpl; try discriminate.
  destruct rest as [|w [|w' rest]]; simpl; auto.
  destruct (float w); [auto | discriminate].
Qed.

Lemma read_lines_Read_ok (float : string -> option Z)
      (lines : list (list string)) :
  forall r r' : Reader,
    read_lines float lines r = Read r' ->
    forallb (line_ok float) lines = true.
Proof.
  induction lines as [|token lines IH]; intros r r' E; [reflexivity|].
  simpl in *. destruct (read_line float token r) as [r1|x] eqn:E1;
    [|discriminate].
  apply read_line_Read_ok in E1. rewrite E1. simpl. eauto.
Qed.

Lemma read_line_bad (float : string -> option Z) (token : list string)
      (r : Reader) :
  line_ok float token = false ->
  read_line float token r = ReadRaise (line_error token).
Proof.
  unfold read_line, line_ok, read_weight, line_error.
  destruct token as [|t0 [|u [|v rest]]]; simpl; try reflexivity.
  destruct rest as [|w [|w' rest]]; simpl; try discriminate.
  destruct (float w); [discriminate | reflexivity].
Qed.

Lemma read_line_no_graph (float : string -> option Z) (token : list string)
      (r : Reader) :
  rd_graph r = None -> line_ok float token = true ->
  read_line float token r = ReadRaise AttributeError.
Proof.
  intros Hg Hok.
  destruct (line_ok_tokens _ _ Hok) as (t0 & u & v & w & E0 & E1 & E2 & Ew).
  destruct (ensure_tag_found u r) as [vu Hvu1].
  pose proof (ensure_tag_keeps v (ensure_tag u r) u Hvu1) as Hvu.
  destruct (ensure_tag_found v (ensure_tag u r)) as [vv Hvv].
  unfold read_line. rewrite E1, E2, Ew. cbv zeta.
  rewrite Hvu, Hvv, E0, !ensure_tag_graph, Hg. reflexivity.
Qed.

Lemma read_lines_bad (float : string -> option Z) c
      (post : list (list string)) (bad : list string)
      (pre : list (list string)) :
  forall (done : list (list string)) (r : Reader) (g : Digraph),
    RInv float c done r g ->
    forallb (line_ok float) pre = true -> line_ok float bad = false ->
    read_lines float (pre ++ bad :: post) r = ReadRaise (line_error bad).
Proof.
  induction pre as [|token pre IH]; intros done r g H Hpre Hbad.
  - simpl. now rewrite read_line_bad.
  - simpl in *. apply andb_true_iff in Hpre. destruct Hpre as [H1 H2].
    destruct (read_line_step token H H1) as (r1 & g1 & E & H').
    rewrite E. eauto.
Qed.

Lemma RInv_header (float : string -> option Z) (header : string) c :
  header = "digraph"%string /\ c = DigraphClass \/
  header = "graph"%string /\ c = GraphClass ->
  RInv float c [] (read_header header) Digraph_init.
Proof.
  intros H. unfold RInv.
  split; [destruct H as [[-> ->]|[-> ->]]; reflexivity|].
  split; [apply reach_init|]. simpl.
  repeat split; auto; try constructor; try contradiction; try discriminate.
Qed.

Lemma read_header_unknown (header : string) :
  header <> "digraph"%string -> header <> "graph"%string ->
  rd_graph (read_header header) = None.
Proof.
  intros H1 H2. unfold read_header. simpl.
  apply String.eqb_neq in H1, H2. now rewrite H1, H2.
Qed.

Lemma read_header_known (header : string) c (g : Digraph) :
  rd_graph (read_header header) = Some (c, g) ->
  header = "digraph"%string /\ c = DigraphClass \/
  header = "graph"%string /\ c = GraphClass.
Proof.
  unfold read_header. simpl.
  destruct (String.eqb_spec header "digraph") as [->|H1].
  - intros [= <- <-]. auto.
  - destruct (String.eqb_spec header "graph") as [->|H2].
    + intros [= <- <-]. auto.
    + discriminate.
Qed.

Lemma read_lines_no_graph (float : string -> option Z)
      (lines : list (list string)) (r r' : Reader) :
  rd_graph r = None -> read_lines float lines r = Read r' ->
  lines = [] /\ r' = r.
Proof.
  intros Hg. destruct lines as [|token lines]; simpl.
  - intros [= <-]. auto.
  - destruct (line_ok float token) eqn:Hok.
    + now rewrite read_line_no_graph.
    + now rewrite read_line_bad.
Qed.

(** What a returned graph tells about the file. *)
Lemma graph_read_inv (float : string -> option Z) (header : string)
      (lines : list (list string)) c (g : Digraph) :
  graph_read float header lines = Read (Some (c, g)) ->
  (header = "digraph"%string /\ c = DigraphClass \/
   header = "graph"%string /\ c = GraphClass) /\
  forallb (line_ok float) lines = true /\
  exists r, read_lines float lines (read_header header) = Read r /\
            RInv float c lines r g.
Proof.
  unfold graph_read.
  destruct (read_lines float lines (read_header header)) as [r|x] eqn:E;
    [|discriminate].
  intros [= Hg]. pose proof (read_lines_Read_ok _ _ _ E) as Hok.
  destruct (rd_graph (read_header header)) as [[c0 g0]|] eqn:Eh.
  - pose proof (read_header_known _ Eh) as Hh.
    assert (g0 = Digraph_init).
    { unfold read_header in Eh. simpl in Eh.
      destruct (String.eqb header "digraph");
        [|destruct (String.eqb header "graph")]; congruence. }
    subst g0.
    destruct (read_lines_ok lines (RInv_header float Hh) Hok)
      as (r1 & g1 & E1 & H1).
    simpl in H1. assert (r1 = r) by congruence. subst r1.
    assert (Some (c0, g1) = Some (c, g)) as [= -> ->]
        by (destruct H1 as [<- _]; exact Hg).
    eauto.
  - destruct (@read_lines_no_graph float lines _ r Eh E) as [_ ->]. congruence.
Qed.


(** X14. [graph_read] returns a graph object exactly when the first line is
    [digraph] or [graph] and every following line has three tokens at least
    and, where it has exactly four, a fourth that [float] converts; the
    object is a [Digraph] for [digraph] and a [Graph] for [graph]. *)
Theorem graph_read_returns_iff (float : string -> option Z) (header : string)
        (lines : list (list string)) (c : Class) :
  (exists g, graph_read float header lines = Read (Some (c, g))) <->
  (header = "digraph"%string /\ c = DigraphClass \/
   header = "graph"%string /\ c = GraphClass) /\
  forallb (line_ok float) lines = true.
Proof.
  split.
  - intros [g H]. apply graph_read_inv in H. tauto.
  - intros [Hh Hok].
    destruct (read_lines_ok lines (RInv_header float Hh) Hok)
      as (r & g & E & H).
    exists g. unfold graph_read. rewrite E. now destruct H as [-> _].
Qed.



(** X16. In a graph that [graph_read] returns, every edge that [edge(a, b)]
    finds was made for a line of the file: its tag is the first token, its
    endpoints are the vertices of the second and the third token, and its
    distance is [float] of the fourth token where the line has exactly
    four tokens and 1 otherwise. *)
Theorem graph_read_edges_from_lines (float : string -> option Z)
        (header : string) (lines : list (list string)) (c : Class)
        (g : Digraph) (a b : Vertex) (e : Edge) :
  graph_read float header lines = Read (Some (c, g)) ->
  eval (edge a b) g = Ok (Some e) ->
  from_line float (graph_read_vertices float header lines) lines e.
Proof.
  intros H He. apply graph_read_inv in H.
  destruct H as (_ & _ & r & E & Hg & Hr & _ & _ & _ & _ & Hp & _).
  unfold graph_read_vertices. rewrite E.
  apply eval_edge_Some in He; [|now apply reachable_Inv with c].
  eauto.
Qed.

Lemma graph_read_edges_from_lines_witness :
  graph_read ReadSample.float "digraph" ReadSample.lines =
  Read (Some (DigraphClass, ReadSample.digraph)) /\
  eval (edge 2 0) ReadSample.digraph = Ok (Some ReadSample.ca) /\
  from_line ReadSample.float
    (graph_read_vertices ReadSample.float "digraph" ReadSample.lines)
    ReadSample.lines ReadSample.ca.
Proof.
  split; [reflexivity|]. split; [reflexivity|].
  apply (@graph_read_edges_from_lines ReadSample.float "digraph"
           ReadSample.lines DigraphClass ReadSample.digraph 2 0
           ReadSample.ca eq_refl eq_refl).
Defined.

(** X17. In a graph that [graph_read] returns, every line of the file has
    left an edge behind: the vertices of its second and third token are in
    [vertices], and [edge] finds an edge from the first to the second. *)
Theorem graph_read_lines_adjacent (float : string -> option Z)
        (header : string) (lines : list (list string)) (c : Class)
        (g : Digraph) (token : list string) :
  graph_read float header lines = Read (Some (c, g)) ->
  In token lines ->
  exists (u v : string) (a b : Vertex) (e : Edge),
    nth_error token 1 = Some u /\ nth_error token 2 = Some v /\
    tag_get u (graph_read_vertices float header lines) = Some a /\
    tag_get v (graph_read_vertices float header lines) = Some b /\
    eval (edge a b) g = Ok (Some e).
Proof.
  intros H Hin. apply graph_read_inv in H.
  destruct H as (_ & Hok & r & E & Hg & Hr & _ & _ & _ & _ & _ & Ha).
  unfold graph_read_vertices. rewrite E.
  assert (Htok : line_ok float token = true).
  { rewrite forallb_forall in Hok. now apply Hok. }
  destruct (line_ok_tokens _ _ Htok) as (t0 & u & v & w & _ & E1 & E2 & _).
  destruct (Ha _ _ _ Hin E1 E2) as (a & b & e & Fa & Fb & Fe).
  exists u, v, a, b, e. repeat split; auto.
  apply eval_edge_Some; [now apply reachable_Inv with c | exact Fe].
Qed.

Lemma graph_read_lines_adjacent_witness :
  graph_read ReadSample.float "digraph" ReadSample.lines =
  Read (Some (DigraphClass, ReadSample.digraph)) /\
  In ["bc"; "b"; "c"]%string ReadSample.lines /\
  exists (u v : string) (a b : Vertex) (e : Edge),
    nth_error ["bc"; "b"; "c"]%string 1 = Some u /\
    nth_error ["bc"; "b"; "c"]%string 2 = Some v /\
    tag_get u (graph_read_vertices ReadSample.float "digraph"
                 ReadSample.lines) = Some a /\
    tag_get v (graph_read_vertices ReadSample.float "digraph"
                 ReadSample.lines) = Some b /\
    eval (edge a b) ReadSample.digraph = Ok (Some e).
Proof.
  split; [reflexivity|]. split; [simpl; tauto|].
  apply (@graph_read_lines_adjacent ReadSample.float "digraph"
           ReadSample.lines DigraphClass ReadSample.digraph
           ["bc"; "b"; "c"]%string eq_refl).
  simpl. tauto.
Defined.

(** X18. Where the first line is [digraph] or [graph], the first line of
    the rest that the loop does not accept ends [graph_read] with an
    exception: [IndexError] where it has fewer than three tokens, as a blank
    line has, and the [ValueError] of [float] where it has exactly four
    tokens and the fourth is no number.  No graph is returned, whatever
    follows. *)
Theorem graph_read_bad_line (float : string -> option Z) (header : string)
        (pre post : list (list string)) (bad : list string) :
  header = "digraph"%string \/ header = "graph"%string ->
  forallb (line_ok float) pre = true ->
  line_ok float bad = false ->
  graph_read float header (pre ++ bad :: post) =
  ReadRaise (line_error bad).
Proof.
  intros Hh Hpre Hbad. unfold graph_read.
  assert (exists c, RInv float c [] (read_header header) Digraph_init)
    as [c H].
  { destruct Hh as [->| ->].
    - exists DigraphClass. apply RInv_header. auto.
    - exists GraphClass. apply RInv_header. auto. }
  now rewrite (read_lines_bad post bad pre H Hpre Hbad).
Qed.

Lemma graph_read_bad_line_witness :
  graph_read ReadSample.float "graph"
    (ReadSample.lines ++ [] :: [["cd"; "c"; "d"]%string]) =
  ReadRaise IndexError.
Proof.
  apply (@graph_read_bad_line ReadSample.float "graph" ReadSample.lines
           [["cd"; "c"; "d"]%string] []); [right|..]; reflexivity.
Defined.

(** X19. Where the first line is neither [digraph] nor [graph],
    [graph_read] returns [None] for a file without further lines and never
    returns otherwise: the first of the further lines raises, and where the
    loop would accept it the exception is the [AttributeError] of
    [None.insert_edge]. *)
Theorem graph_read_unknown_header (float : string -> option Z)
        (header : string) (lines : list (list string)) :
  header <> "digraph"%string -> header <> "graph"%string ->
  graph_read float header lines =
  match lines with
  | [] => Read None
  | token :: _ =>
      ReadRaise (if line_ok float token then AttributeError
                 else line_error token)
  end.
Proof.
  intros H1 H2. pose proof (read_header_unknown H1 H2) as Hg.
  unfold graph_read. destruct lines as [|token rest]; cbn [read_lines].
  - now rewrite Hg.
  - destruct (line_ok float token) eqn:Hok.
    + now rewrite read_line_no_graph.
    + now rewrite read_line_bad.
Qed.

Lemma graph_read_unknown_header_witness :
  graph_read ReadSample.float "Digraph" ReadSample.lines =
  ReadRaise AttributeError.
Proof.
  apply (@graph_read_unknown_header ReadSample.float "Digraph"
           ReadSample.lines); discriminate.
Defined.

(** * Queries on vertices *)

(** X20. On every graph a program can build, the six queries on a vertex
    [v] raise [ValueError] where [v] is no vertex of the graph and return
    where it is one, [in_degree], [predecessors] and [incoming_edges] from
    the entry of [v] in the incoming map; [edge(u, v)] raises [ValueError]
    where [u] or [v] is no vertex of the graph and returns otherwise.  No
    query ends in [KeyError]. *)
Theorem queries_validate (c : Class) (g : Digraph) (u v : Vertex) :
  reachable c g ->
  (if member v g then
     exists d d',
       dict_get v (_outgoing g) = Some d /\
       dict_get v (_incoming g) = Some d' /\
       eval (successors v) g = Ok d /\
       eval (predecessors v) g = Ok d' /\
       eval (out_degree v) g = Ok (len d) /\
       eval (in_degree v) g = Ok (len d') /\
       eval (outgoing_edges v) g = Ok (dict_values d) /\
       eval (incoming_edges v) g = Ok (dict_values d')
   else
     eval (successors v) g = Raise ValueError /\
     eval (predecessors v) g = Raise ValueError /\
     eval (out_degree v) g = Raise ValueError /\
     eval (in_degree v) g = Raise ValueError /\
     eval (outgoing_edges v) g = Raise ValueError /\
     eval (incoming_edges v) g = Raise ValueError) /\
  (if member u g && member v g then
     eval (edge u v) g = Ok (get2 (_outgoing g) u v)
   else eval (edge u v) g = Raise ValueError).
Proof.
  intros Hr. pose proof (reachable_Inv Hr) as H. split.
  - destruct (member v g) eqn:Hv.
    + pose proof Hv as Hv'. unfold member in Hv'.
      rewrite (inv_keys H) in Hv'.
      pose proof Hv as Hv''. unfold member in Hv''.
      apply dict_mem_get in Hv'', Hv'.
      destruct Hv'' as [d Ed], Hv' as [d' Ed'].
      exists d, d'. unfold eval.
      rewrite successors_eq, predecessors_eq, out_degree_eq, in_degree_eq,
        outgoing_edges_eq, incoming_edges_eq, Hv, Ed, Ed'.
      repeat split.
    + unfold eval.
      rewrite successors_eq, predecessors_eq, out_degree_eq, in_degree_eq,
        outgoing_edges_eq, incoming_edges_eq, Hv.
      repeat split.
  - unfold eval. rewrite edge_eq.
    destruct (member u g && member v g); reflexivity.
Qed.

Lemma queries_validate_witness :
  reachable DigraphClass Sample.digraph /\
  eval (in_degree 7) Sample.digraph = Raise ValueError /\
  eval (edge 1 7) Sample.digraph = Raise ValueError.
Proof.
  split; [exact Sample_digraph_reachable|].
  pose proof (@queries_validate DigraphClass Sample.digraph 1 7
                Sample_digraph_reachable) as [H1 H2].
  split; [apply H1 | exact H2].
Defined.

(** X21. On every graph a program can build, [reverse()] changes neither
    [vertex_count()] nor [edge_count()] nor the membership of a vertex. *)
Theorem reverse_keeps_counts (c : Class) (g : Digraph) (v : Vertex) :
  reachable c g ->
  eval vertex_count (exec reverse g) = eval vertex_count g /\
  eval edge_count (exec reverse g) = eval edge_count g /\
  eval (contains v) (exec reverse g) = eval (contains v) g.
Proof.
  intros Hr. pose proof (reachable_Inv Hr) as H.
  unfold eval, exec, reverse. cbn [snd].
  rewrite !vertex_count_eq, !contains_eq.
  rewrite !edge_count_eq;
    [|apply (inv_wf_out H) | apply (inv_wf_inc H)].
  cbn [fst _outgoing _incoming]. unfold member. cbn [_outgoing].
  split; [|split].
  - rewrite !len_keys. f_equal. symmetry.
    apply Permutation_length, (keys_Permutation Hr).
  - f_equal. symmetry. apply (reachable_balanced Hr).
  - now rewrite (inv_keys H).
Qed.

Lemma reverse_keeps_counts_witness :
  reachable DigraphClass Sample.digraph /\
  eval vertex_count (exec reverse Sample.digraph) =
  eval vertex_count Sample.digraph /\
  eval edge_count (exec reverse Sample.digraph) =
  eval edge_count Sample.digraph /\
  eval (contains 2) (exec reverse Sample.digraph) =
  eval (contains 2) Sample.digraph.
Proof.
  split; [exact Sample_digraph_reachable|].
  exact (@reverse_keeps_counts DigraphClass Sample.digraph 2
           Sample_digraph_reachable).
Defined.

(** * Singly linked lists *)

Lemma store_same A (h : Slist.ref -> option (Slist.Node A)) p nd :
  Slist.store h p nd p = Some nd.
Proof. unfold Slist.store. now rewrite Nat.eqb_refl. Qed.

Lemma store_other A (h : Slist.ref -> option (Slist.Node A)) p nd q :
  q <> p -> Slist.store h p nd q = h q.
Proof.
  intros H. unfold Slist.store. apply Nat.eqb_neq in H. now rewrite H.
Qed.

Lemma next_store_other A (h : Slist.ref -> option (Slist.Node A)) p nd q :
  q <> p -> Slist.next (Slist.store h p nd) q = Slist.next h q.
Proof. intros H. unfold Slist.next. now rewrite store_other. Qed.

Lemma next_store_same A (h : Slist.ref -> option (Slist.Node A)) p nd :
  Slist.next (Slist.store h p nd) p = Some (Slist._next nd).
Proof. unfold Slist.next. now rewrite store_same. Qed.

Lemma path_frame A (h : Slist.ref -> option (Slist.Node A)) q nd ns :
  forall p, ~ In q (p :: ns) -> Slist.path h p ns ->
            Slist.path (Slist.store h q nd) p ns.
Proof.
  induction ns as [|n ns IH]; intros p Hq; simpl in *.
  - rewrite next_store_other by intuition. auto.
  - intros [H1 H2]. rewrite next_store_other by intuition.
    split; [exact H1|]. apply IH; [simpl; intuition | exact H2].
Qed.

Lemma seg_frame A (h : Slist.ref -> option (Slist.Node A)) q nd r ns :
  forall p, ~ In q (p :: ns) -> Slist.seg h p ns r ->
            Slist.seg (Slist.store h q nd) p ns r.
Proof.
  induction ns as [|n ns IH]; intros p Hq; simpl in *.
  - rewrite next_store_other by intuition. auto.
  - intros [H1 H2]. rewrite next_store_other by intuition.
    split; [exact H1|]. apply IH; [simpl; intuition | exact H2].
Qed.

Lemma path_app A (h : Slist.ref -> option (Slist.Node A)) n ns2 ns1 :
  forall p, Slist.path h p (ns1 ++ n :: ns2) <->
            Slist.seg h p ns1 n /\ Slist.path h n ns2.
Proof.
  induction ns1 as [|n1 ns1 IH]; intros p; simpl; [tauto|].
  rewrite IH. tauto.
Qed.

Lemma path_det A (h : Slist.ref -> option (Slist.Node A)) (l1 : list Slist.ref) :
  forall p (l2 : list Slist.ref),
    Slist.path h p l1 -> Slist.path h p l2 -> l1 = l2.
Proof.
  induction l1 as [|n l1 IH]; intros p [|n2 l2]; simpl.
  - reflexivity.
  - intros H [H' _]. congruence.
  - intros [H _] H'. congruence.
  - intros [H1 H2] [H1' H2']. assert (n = n2) by congruence. subst n2.
    f_equal. eauto.
Qed.

Lemma path_suffix A (h : Slist.ref -> option (Slist.Node A)) p (ms : list Slist.ref) :
  forall q, Slist.path h q ms -> In p ms ->
            exists l2 : list Slist.ref,
              Slist.path h p l2 /\ List.length l2 < List.length ms.
Proof.
  induction ms as [|n ms IH]; intros q H Hin; [contradiction|].
  simpl in H. destruct H as [_ H]. destruct Hin as [->|Hin].
  - exists ms. simpl. split; [exact H | lia].
  - destruct (IH _ H Hin) as (l2 & H2 & Hlen). exists l2. simpl.
    split; [exact H2 | lia].
Qed.

Lemma path_NoDup A (h : Slist.ref -> option (Slist.Node A)) (ns : list Slist.ref) :
  forall p, Slist.path h p ns -> NoDup (p :: ns).
Proof.
  induction ns as [|n ns IH]; intros p H.
  - repeat constructor. simpl. tauto.
  - constructor.
    + intros Hin. destruct (@path_suffix _ h p _ _ H Hin) as (l2 & H2 & Hlen).
      pose proof (@path_det _ h _ _ _ H H2) as E. rewrite E in Hlen. lia.
    + apply IH. simpl in H. tauto.
Qed.

Lemma path_allocated A (h : Slist.ref -> option (Slist.Node A)) (ns : list Slist.ref) :
  forall p q, Slist.path h p ns -> In q (p :: ns) -> h q <> None.
Proof.
  induction ns as [|n ns IH]; intros p q H Hin.
  - destruct Hin as [<-|[]]. simpl in H. unfold Slist.next in H.
    destruct (h p); [discriminate | discriminate].
  - simpl in H. destruct H as [H1 H2]. destruct Hin as [<-|Hin].
    + unfold Slist.next in H1. destruct (h p); discriminate.
    + eauto.
Qed.

Lemma path_insert A (h : Slist.ref -> option (Slist.Node A)) p nd node
      (el : A) (ns : list Slist.ref) :
  Slist.path h p ns -> h p = Some nd -> h node = None ->
  Slist.path
    (Slist.store (Slist.store h node (Slist.mkNode el (Slist._next nd)))
                 p (Slist.mkNode (Slist._element nd) (Some node)))
    p (node :: ns).
Proof.
  intros H Hp Hn.
  assert (Hnp : node <> p) by congruence.
  pose proof (@path_NoDup _ h _ _ H) as Hnd. inversion_clear Hnd as [|? ? Hpn _].
  assert (Hnn : ~ In node (p :: ns)).
  { intros Hin. now apply (@path_allocated _ h _ _ _ H Hin). }
  simpl. rewrite next_store_same. split; [reflexivity|].
  destruct ns as [|n ns]; simpl in *.
  - rewrite next_store_other, next_store_same by assumption.
    unfold Slist.next in H. rewrite Hp in H. simpl in H. exact H.
  - destruct H as [H1 H2].
    rewrite next_store_other, next_store_same by assumption.
    unfold Slist.next in H1. rewrite Hp in H1. simpl in H1.
    split; [exact H1|].
    apply path_frame; [simpl in *; intuition|].
    apply path_frame; [simpl in *; intuition|]. exact H2.
Qed.

Lemma path_remove A (h : Slist.ref -> option (Slist.Node A)) p nd n nn
      (ns : list Slist.ref) :
  Slist.path h p (n :: ns) -> h p = Some nd -> h n = Some nn ->
  Slist.path (Slist.store h p (Slist.mkNode (Slist._element nd)
                                            (Slist._next nn)))
             p ns.
Proof.
  intros H Hp Hn.
  pose proof (@path_NoDup _ h _ _ H) as Hnd. inversion_clear Hnd as [|? ? Hpn _].
  simpl in H. destruct H as [_ H].
  destruct ns as [|n2 ns]; simpl in *.
  - rewrite next_store_same. simpl. unfold Slist.next in H.
    rewrite Hn in H. exact H.
  - destruct H as [H1 H2]. rewrite next_store_same. simpl.
    unfold Slist.next in H1. rewrite Hn in H1. simpl in H1.
    split; [exact H1|]. apply path_frame; [simpl in *; intuition | exact H2].
Qed.

(** Writing the slot [_next] of an object changes no element. *)
Lemma elements_relink A (h : Slist.ref -> option (Slist.Node A)) p nd nx
      (ns : list Slist.ref) :
  h p = Some nd ->
  Slist.elements (Slist.store h p (Slist.mkNode (Slist._element nd) nx)) ns
  = Slist.elements h ns.
Proof.
  intros Hp. unfold Slist.elements. apply map_ext. intros n.
  unfold Slist.store. destruct (Nat.eqb_spec n p) as [->|_];
    [now rewrite Hp | reflexivity].
Qed.

Lemma elements_new A (h : Slist.ref -> option (Slist.Node A)) node nd
      (ns : list Slist.ref) :
  ~ In node ns ->
  Slist.elements (Slist.store h node nd) ns = Slist.elements h ns.
Proof.
  intros Hn. unfold Slist.elements. apply map_ext_in. intros n Hin.
  rewrite store_other; [reflexivity|]. intros ->. contradiction.
Qed.

Lemma firstn_length_app B (l1 l2 : list B) :
  firstn (List.length l1) (l1 ++ l2) = l1.
Proof. induction l1; simpl; [now destruct l2 | now f_equal]. Qed.

Lemma skipn_length_app B (l1 l2 : list B) :
  skipn (List.length l1) (l1 ++ l2) = l2.
Proof. induction l1; simpl; auto. Qed.

Lemma unused_allocated A (w : Slist.World A) p :
  Slist.unused w -> Slist.heap w p <> None -> p < Slist.fresh w.
Proof.
  intros Hu Hp. destruct (Nat.lt_ge_cases p (Slist.fresh w)) as [H|H];
    [exact H|]. now apply Hu in H.
Qed.

Lemma elements_app A (h : Slist.ref -> option (Slist.Node A))
      (l1 l2 : list Slist.ref) :
  Slist.elements h (l1 ++ l2) = Slist.elements h l1 ++ Slist.elements h l2.
Proof. unfold Slist.elements. apply map_app. Qed.

Lemma elements_length A (h : Slist.ref -> option (Slist.Node A))
      (ns : list Slist.ref) :
  List.length (Slist.elements h ns) = List.length ns.
Proof. unfold Slist.elements. apply length_map. Qed.

Lemma split_at B (l1 l2 : list B) (y : B) :
  firstn (List.length l1) (l1 ++ l2) ++ y :: skipn (List.length l1) (l1 ++ l2)
  = l1 ++ y :: l2.
Proof. now rewrite firstn_length_app, skipn_length_app. Qed.

(** X22. Where the list holds the nodes [ns] and [position] is the sentinel
    or one of them, [insert_back(e, position)] returns a new node, links it
    right behind [position] and adds one to the length: the elements of the
    list are those before, with [e] put in at the index of the position.
    Without a position [e] becomes the first element. *)
Theorem insert_back_inserts A (el : A) (w : Slist.World A)
        (l : Slist.SinglyLinkedList) (ns pre post : list Slist.ref)
        (pos : Slist.ref) (position : option Slist.ref) :
  Slist.Repr w l ns ->
  Slist._sentinel l :: ns = pre ++ pos :: post ->
  position = Some pos \/ position = None /\ pre = [] ->
  exists w' l',
    Slist.insert_back el position w l
    = (Slist.Return (Slist.fresh w), w', l') /\
    Slist.Repr w' l' (tl (pre ++ pos :: Slist.fresh w :: post)) /\
    Slist.__len__ l' = S (Slist.__len__ l) /\
    Slist.elements (Slist.heap w') (tl (pre ++ pos :: Slist.fresh w :: post))
    = firstn (List.length pre) (Slist.elements (Slist.heap w) ns)
      ++ Some el :: skipn (List.length pre) (Slist.elements (Slist.heap w) ns).
Proof.
  intros [[Hu Hp] Hsz] Hsplit Hpos.
  assert (Hin : In pos (Slist._sentinel l :: ns))
    by (rewrite Hsplit; apply in_elt).
  pose proof (@path_allocated _ _ _ _ _ Hp Hin) as Hal.
  destruct (Slist.heap w pos) as [nd|] eqn:End; [clear Hal|congruence].
  assert (Hfr : Slist.heap w (Slist.fresh w) = None) by (apply Hu; lia).
  assert (Hlt : pos < Slist.fresh w)
    by (apply unused_allocated; [exact Hu | congruence]).
  assert (Epos : match position with
                 | Some p => p
                 | None => Slist._sentinel l
                 end = pos).
  { destruct Hpos as [->|[-> ->]]; [reflexivity|].
    simpl in Hsplit. congruence. }
  set (h1 := Slist.store (Slist.heap w) (Slist.fresh w)
                         (Slist.mkNode el (Slist._next nd))).
  set (h2 := Slist.store h1 pos
                         (Slist.mkNode (Slist._element nd)
                                       (Some (Slist.fresh w)))).
  exists (Slist.mkWorld h2 (S (Slist.fresh w))),
         (Slist.mkList (Slist._sentinel l) (S (Slist._size l))).
  assert (Hfresh_out : ~ In (Slist.fresh w) (Slist._sentinel l :: ns)).
  { intros Hf. now apply (@path_allocated _ _ _ _ _ Hp Hf). }
  assert (Hel : forall X : list Slist.ref,
             ~ In (Slist.fresh w) X ->
             Slist.elements h2 X = Slist.elements (Slist.heap w) X).
  { intros X HX. unfold h2. rewrite elements_relink.
    - unfold h1. now apply elements_new.
    - unfold h1. rewrite store_other by lia. exact End. }
  assert (Hnew : Slist.elements h2 [Slist.fresh w] = [Some el]).
  { unfold Slist.elements, h2, h1. simpl.
    rewrite store_other by lia. now rewrite store_same. }
  split; [|split; [|split]].
  - unfold Slist.insert_back. rewrite Epos, End. reflexivity.
  - split; [split|].
    + intros p Hge. simpl in *. unfold h2, h1.
      rewrite !store_other by lia. apply Hu. lia.
    + simpl. destruct pre as [|s0 pre].
      * simpl in *. injection Hsplit as Es En. subst pos ns.
        apply path_insert; assumption.
      * simpl in *. injection Hsplit as Es En. subst s0 ns.
        apply path_app in Hp. destruct Hp as [Hseg Hpath].
        apply path_app. split.
        -- pose proof (@path_NoDup _ (Slist.heap w) _ _
                         (proj2 (path_app _ _ _ _ _) (conj Hseg Hpath)))
             as Hnd.
           change (Slist._sentinel l :: pre ++ pos :: post)
             with ((Slist._sentinel l :: pre) ++ pos :: post) in Hnd.
           apply NoDup_remove_2 in Hnd.
           apply seg_frame;
             [intros Hc; apply Hnd; rewrite in_app_iff; now left|].
           apply seg_frame; [|exact Hseg].
           intros Hc. apply Hfresh_out.
           change (In (Slist.fresh w)
                      ((Slist._sentinel l :: pre) ++ pos :: post)).
           rewrite in_app_iff. now left.
        -- apply path_insert; assumption.
    + simpl. rewrite Hsz. destruct pre as [|s0 pre]; simpl in *.
      * injection Hsplit as _ ->. reflexivity.
      * injection Hsplit as _ ->. rewrite !length_app. simpl. lia.
  - reflexivity.
  - cbn [Slist.heap]. destruct pre as [|s0 pre]; simpl in Hsplit.
    + cbn [app tl List.length firstn skipn].
      injection Hsplit as Es En. subst pos ns.
      change (Slist.fresh w :: post) with ([Slist.fresh w] ++ post).
      rewrite elements_app, Hnew, Hel; [reflexivity|].
      intros Hc. apply Hfresh_out. now right.
    + injection Hsplit as Es En. subst s0 ns.
      assert (Hout : ~ In (Slist.fresh w) (pre ++ pos :: post))
        by (intros Hc; apply Hfresh_out; now right).
      cbn [app tl List.length].
      replace (pre ++ pos :: Slist.fresh w :: post)
        with ((pre ++ [pos]) ++ [Slist.fresh w] ++ post)
        by (now rewrite <- app_assoc).
      replace (pre ++ pos :: post) with ((pre ++ [pos]) ++ post) in *
        by (now rewrite <- app_assoc).
      rewrite (elements_app (Slist.heap w) (pre ++ [pos]) post).
      replace (S (List.length pre))
        with (List.length (Slist.elements (Slist.heap w) (pre ++ [pos])))
        by (rewrite elements_length, length_app; simpl; lia).
      rewrite split_at.
      rewrite (elements_app h2 (pre ++ [pos])), (elements_app h2 [_] post).
      rewrite Hnew.
      rewrite !Hel
        by (intros Hc; apply Hout; rewrite in_app_iff; tauto).
      reflexivity.
Qed.

Lemma nth_error_middle B (l1 l2 : list B) (y : B) :
  nth_error (l1 ++ y :: l2) (List.length l1) = Some y.
Proof. induction l1; simpl; auto. Qed.

Lemma remove_at B (l1 l2 : list B) (y : B) :
  firstn (List.length l1) (l1 ++ y :: l2)
  ++ skipn (S (List.length l1)) (l1 ++ y :: l2) = l1 ++ l2.
Proof.
  rewrite firstn_length_app. f_equal.
  induction l1; simpl; auto.
Qed.

Lemma Repr_nonempty A (w : Slist.World A) (l : Slist.SinglyLinkedList)
      (ns : list Slist.ref) :
  Slist.Repr w l ns -> ns <> [] -> Slist.is_empty l = false.
Proof.
  intros [_ Hsz] Hne. unfold Slist.is_empty. rewrite Hsz.
  destruct ns; [contradiction | reflexivity].
Qed.

(** X23. Where the list holds the nodes [ns], [position] is the sentinel or
    one of them and a node follows it, [remove_back(position)] returns the
    element of the node that follows, unlinks this node and takes one from
    the length: the element returned is the one at the index of the
    position, and the other elements stay, in their order. *)
Theorem remove_back_removes A (w : Slist.World A)
        (l : Slist.SinglyLinkedList) (ns pre post : list Slist.ref)
        (pos n : Slist.ref) :
  Slist.Repr w l ns ->
  Slist._sentinel l :: ns = pre ++ pos :: n :: post ->
  exists (el : A) w' l',
    Slist.remove_back pos w l = (Slist.Return el, w', l') /\
    nth_error (Slist.elements (Slist.heap w) ns) (List.length pre)
    = Some (Some el) /\
    Slist.Repr w' l' (tl (pre ++ pos :: post)) /\
    S (Slist.__len__ l') = Slist.__len__ l /\
    Slist.elements (Slist.heap w') (tl (pre ++ pos :: post))
    = firstn (List.length pre) (Slist.elements (Slist.heap w) ns)
      ++ skipn (S (List.length pre)) (Slist.elements (Slist.heap w) ns).
Proof.
  intros HR Hsplit. pose proof HR as [[Hu Hp] Hsz].
  assert (Hne : ns <> []).
  { intros ->. destruct pre as [|s0 [|s1 pre]]; discriminate. }
  pose proof (Repr_nonempty HR Hne) as Hemp.
  pose proof (@path_NoDup _ _ _ _ Hp) as Hnd.
  assert (Hpp : Slist.path (Slist.heap w) pos (n :: post) /\
                (pre = [] \/
                 exists pre', pre = Slist._sentinel l :: pre' /\
                              Slist.seg (Slist.heap w) (Slist._sentinel l)
                                        pre' pos)).
  { destruct pre as [|s0 pre]; simpl in Hsplit;
      injection Hsplit as Es En.
    - subst pos ns. auto.
    - subst s0 ns. apply path_app in Hp. destruct Hp as [Hseg Hpath].
      split; [exact Hpath|]. right. eauto. }
  destruct Hpp as [Hpp Hpre].
  assert (Hnx : Slist.next (Slist.heap w) pos = Some (Some n))
    by (simpl in Hpp; tauto).
  unfold Slist.next in Hnx.
  destruct (Slist.heap w pos) as [nd|] eqn:End; [|discriminate].
  simpl in Hnx. injection Hnx as Hnx.
  assert (Hal : Slist.heap w n <> None).
  { apply (@path_allocated _ _ _ _ n (proj2 Hpp)). now left. }
  destruct (Slist.heap w n) as [nn|] eqn:Enn; [clear Hal|congruence].
  set (h' := Slist.store (Slist.heap w) pos
                         (Slist.mkNode (Slist._element nd)
                                       (Slist._next nn))).
  exists (Slist._element nn), (Slist.mkWorld h' (Slist.fresh w)),
         (Slist.mkList (Slist._sentinel l) (pred (Slist._size l))).
  assert (Hel : forall X : list Slist.ref,
             Slist.elements h' X = Slist.elements (Slist.heap w) X)
    by (intros X; apply elements_relink; exact End).
  assert (Hn : Slist.elements (Slist.heap w) [n] = [Some (Slist._element nn)])
    by (unfold Slist.elements; simpl; now rewrite Enn).
  split; [|split; [|split; [|split]]].
  - unfold Slist.remove_back. now rewrite Hemp, End, Hnx, Enn.
  - destruct Hpre as [->|(pre' & -> & _)]; simpl in Hsplit;
      injection Hsplit as En; subst ns.
    + unfold Slist.elements. simpl. now rewrite Enn.
    + replace (pre' ++ pos :: n :: post)
        with ((pre' ++ [pos]) ++ [n] ++ post)
        by (now rewrite <- app_assoc).
      rewrite (elements_app (Slist.heap w) (pre' ++ [pos])).
      rewrite (elements_app (Slist.heap w) [n] post), Hn.
      replace (List.length (Slist._sentinel l :: pre'))
        with (List.length (Slist.elements (Slist.heap w) (pre' ++ [pos])))
        by (rewrite elements_length, length_app; simpl; lia).
      apply nth_error_middle.
  - split; [split|].
    + intros p Hge. cbn [Slist.heap Slist.fresh] in *. unfold h'.
      rewrite store_other; [now apply Hu|].
      assert (pos < Slist.fresh w)
        by (apply unused_allocated; [exact Hu | congruence]).
      lia.
    + cbn [Slist.heap Slist._sentinel].
      destruct Hpre as [->|(pre' & -> & Hseg)]; simpl in Hsplit;
        injection Hsplit as En; subst ns; cbn [app tl].
      * subst pos. exact (@path_remove _ _ _ nd n nn post Hpp End Enn).
      * apply path_app.
        split; [|exact (@path_remove _ _ _ nd n nn post Hpp End Enn)].
        apply seg_frame; [|exact Hseg].
        change (Slist._sentinel l :: pre' ++ pos :: n :: post)
          with ((Slist._sentinel l :: pre') ++ pos :: n :: post) in Hnd.
        apply NoDup_remove_2 in Hnd. intros Hc. apply Hnd.
        rewrite in_app_iff. now left.
    + cbn [Slist._size]. rewrite Hsz.
      destruct Hpre as [->|(pre' & -> & _)]; simpl in Hsplit;
        injection Hsplit as En; subst ns; cbn [app tl].
      * reflexivity.
      * rewrite !length_app. simpl. lia.
  - unfold Slist.__len__. cbn [Slist._size]. rewrite Hsz.
    destruct ns; [contradiction | reflexivity].
  - cbn [Slist.heap]. rewrite Hel.
    destruct Hpre as [->|(pre' & -> & _)]; simpl in Hsplit;
      injection Hsplit as En; subst ns.
    + reflexivity.
    + cbn [app tl List.length].
      replace (pre' ++ pos :: n :: post)
        with ((pre' ++ [pos]) ++ n :: post)
        by (now rewrite <- app_assoc).
      replace (pre' ++ pos :: post) with ((pre' ++ [pos]) ++ post)
        by (now rewrite <- app_assoc).
      change (n :: post) with ([n] ++ post).
      rewrite !(elements_app (Slist.heap w) (pre' ++ [pos])).
      rewrite (elements_app (Slist.heap w) [n] post), Hn.
      replace (S (List.length pre'))
        with (List.length (Slist.elements (Slist.heap w) (pre' ++ [pos])))
        by (rewrite elements_length, length_app; simpl; lia).
      symmetry. apply remove_at.
Qed.

Lemma last_cons B (l : list B) :
  forall y z : B, last (y :: l) z = last l y.
Proof.
  induction l as [|y2 l IH]; intros y z; [reflexivity|].
  change (last (y :: y2 :: l) z) with (last (y2 :: l) z).
  now rewrite !IH.
Qed.

Lemma path_last A (h : Slist.ref -> option (Slist.Node A))
      (ns : list Slist.ref) :
  forall p, Slist.path h p ns -> Slist.next h (last ns p) = Some None.
Proof.
  induction ns as [|n ns IH]; intros p H; [exact H|].
  destruct H as [_ H]. rewrite last_cons. now apply IH.
Qed.

Lemma path_ext A (h h' : Slist.ref -> option (Slist.Node A))
      (ns : list Slist.ref) :
  forall p, (forall q, In q (p :: ns) -> h' q = h q) ->
            Slist.path h p ns -> Slist.path h' p ns.
Proof.
  induction ns as [|n ns IH]; intros p Hq; simpl.
  - unfold Slist.next. rewrite Hq by now left. auto.
  - unfold Slist.next at 2. rewrite Hq by now left. intros [H1 H2].
    split; [exact H1|]. apply IH; [|exact H2].
    intros q Hin. apply Hq. now right.
Qed.

Lemma elements_ext A (h h' : Slist.ref -> option (Slist.Node A))
      (ns : list Slist.ref) :
  (forall q, In q ns -> h' q = h q) ->
  Slist.elements h' ns = Slist.elements h ns.
Proof.
  intros Hq. unfold Slist.elements. apply map_ext_in.
  intros q Hin. now rewrite Hq.
Qed.

(** X24. On an empty list [remove_back], [remove_first] and
    [first_element] raise [EmptyListError].  On a list that holds nodes,
    [remove_back] at the last of them, behind which no node is, raises
    [AttributeError].  The list is left as it was. *)
Theorem remove_back_errors A (w : Slist.World A)
        (l : Slist.SinglyLinkedList) (ns : list Slist.ref)
        (pos : Slist.ref) :
  Slist.Repr w l ns ->
  (ns = [] ->
   Slist.remove_back pos w l = (Slist.Raises Slist.EmptyListError, w, l) /\
   Slist.remove_first w l = (Slist.Raises Slist.EmptyListError, w, l) /\
   Slist.first_element w l = Slist.Raises Slist.EmptyListError) /\
  (ns <> [] ->
   Slist.remove_back (last ns (Slist._sentinel l)) w l
   = (Slist.Raises Slist.AttributeError, w, l)).
Proof.
  intros HR. pose proof HR as [[Hu Hp] Hsz]. split.
  - intros ->. simpl in Hsz.
    unfold Slist.remove_first, Slist.remove_back, Slist.first_element,
      Slist.is_empty.
    rewrite Hsz. auto.
  - intros Hne. pose proof (Repr_nonempty HR Hne) as Hemp.
    pose proof (path_last _ _ _ Hp) as Hl. unfold Slist.next in Hl.
    unfold Slist.remove_back. rewrite Hemp.
    destruct (Slist.heap w (last ns (Slist._sentinel l))) as [nd|];
      [|discriminate].
    simpl in Hl. injection Hl as ->. reflexivity.
Qed.

(** X25. On a list that holds nodes, [first_element()] returns the element
    of the first of them and changes nothing; [remove_first()] returns the
    same element. *)
Theorem first_element_is_head A (w : Slist.World A)
        (l : Slist.SinglyLinkedList) (n : Slist.ref)
        (ns : list Slist.ref) :
  Slist.Repr w l (n :: ns) ->
  exists el : A,
    Slist.first_element w l = Slist.Return el /\
    Slist.elements (Slist.heap w) (n :: ns)
    = Some el :: Slist.elements (Slist.heap w) ns /\
    fst (fst (Slist.remove_first w l)) = Slist.Return el.
Proof.
  intros HR. pose proof HR as [[Hu Hp] Hsz].
  assert (Hemp : Slist.is_empty l = false)
    by (apply (Repr_nonempty HR); discriminate).
  simpl in Hp. destruct Hp as [Hnx Hp]. unfold Slist.next in Hnx.
  destruct (Slist.heap w (Slist._sentinel l)) as [nd|] eqn:End;
    [|discriminate].
  simpl in Hnx. injection Hnx as Hnx.
  assert (Hal : Slist.heap w n <> None).
  { apply (@path_allocated _ _ _ _ n Hp). now left. }
  destruct (Slist.heap w n) as [nn|] eqn:Enn; [|congruence].
  exists (Slist._element nn).
  unfold Slist.remove_first, Slist.remove_back, Slist.first_element.
  rewrite Hemp, End, Hnx, Enn. repeat split.
  unfold Slist.elements. simpl. now rewrite Enn.
Qed.

(** X26. [insert_back(e)] without a position and then [remove_first()]
    gives [e] back and restores the list: in between [first_element()] is
    [e], and afterwards the list object is as before and holds the same
    nodes with the same elements. *)
Theorem push_front_round_trip A (el : A) (w : Slist.World A)
        (l : Slist.SinglyLinkedList) (ns : list Slist.ref) :
  Slist.Repr w l ns ->
  exists node w1 l1 w2,
    Slist.insert_back el None w l = (Slist.Return node, w1, l1) /\
    Slist.first_element w1 l1 = Slist.Return el /\
    Slist.remove_first w1 l1 = (Slist.Return el, w2, l) /\
    Slist.Repr w2 l ns /\
    Slist.elements (Slist.heap w2) ns = Slist.elements (Slist.heap w) ns.
Proof.
  intros HR. pose proof HR as [[Hu Hp] Hsz].
  assert (Hal : Slist.heap w (Slist._sentinel l) <> None).
  { apply (@path_allocated _ _ _ _ (Slist._sentinel l) Hp). now left. }
  destruct (Slist.heap w (Slist._sentinel l)) as [nd|] eqn:End;
    [clear Hal|congruence].
  assert (Hlt : Slist._sentinel l < Slist.fresh w)
    by (apply unused_allocated; [exact Hu | congruence]).
  assert (Hne : Slist.fresh w <> Slist._sentinel l) by lia.
  set (h1 := Slist.store (Slist.heap w) (Slist.fresh w)
                         (Slist.mkNode el (Slist._next nd))).
  set (h2 := Slist.store h1 (Slist._sentinel l)
                         (Slist.mkNode (Slist._element nd)
                                       (Some (Slist.fresh w)))).
  set (h3 := Slist.store h2 (Slist._sentinel l)
                         (Slist.mkNode (Slist._element nd)
                                       (Slist._next nd))).
  assert (E2s : h2 (Slist._sentinel l)
                = Some (Slist.mkNode (Slist._element nd)
                                     (Some (Slist.fresh w))))
    by (unfold h2; apply store_same).
  assert (E2f : h2 (Slist.fresh w)
                = Some (Slist.mkNode el (Slist._next nd))).
  { unfold h2, h1. rewrite store_other by exact Hne. apply store_same. }
  assert (Hsame : forall q, q <> Slist.fresh w -> h3 q = Slist.heap w q).
  { intros q Hq. unfold h3, h2, h1, Slist.store.
    destruct (Nat.eqb_spec q (Slist._sentinel l)) as [->|Hqs].
    - rewrite End. now destruct nd.
    - apply Nat.eqb_neq in Hq. now rewrite Hq. }
  assert (Hout : ~ In (Slist.fresh w) (Slist._sentinel l :: ns)).
  { intros Hf. apply (@path_allocated _ _ _ _ _ Hp Hf). apply Hu. lia. }
  exists (Slist.fresh w), (Slist.mkWorld h2 (S (Slist.fresh w))),
         (Slist.mkList (Slist._sentinel l) (S (Slist._size l))),
         (Slist.mkWorld h3 (S (Slist.fresh w))).
  split; [|split; [|split; [|split]]].
  - unfold Slist.insert_back. now rewrite End.
  - unfold Slist.first_element, Slist.is_empty.
    cbn [Slist._size Slist._sentinel Slist.heap Nat.eqb].
    rewrite E2s. cbn [Slist._next]. now rewrite E2f.
  - unfold Slist.remove_first, Slist.remove_back, Slist.is_empty.
    cbn [Slist._size Slist._sentinel Slist.heap Slist.fresh Nat.eqb
         Slist._next Slist._element pred].
    rewrite E2s. cbn [Slist._next Slist._element]. rewrite E2f.
    cbn [Slist._next Slist._element]. fold h3. now destruct l.
  - split; [split|exact Hsz].
    + intros p Hge. cbn [Slist.heap Slist.fresh] in *.
      rewrite Hsame by lia. apply Hu. lia.
    + cbn [Slist.heap]. apply path_ext with (Slist.heap w); [|exact Hp].
      intros q Hin. apply Hsame. intros ->. contradiction.
  - cbn [Slist.heap]. apply elements_ext. intros q Hin. apply Hsame.
    intros ->. apply Hout. now right.
Qed.

(** X27. [insert_back(e, position)] at a node that exists but is neither
    the sentinel nor a node of the list, as a node is that was removed,
    returns a new node and adds one to the length, and the list holds the
    nodes and the elements it held: from then on the length is not the
    number of elements. *)
Theorem stale_position_miscounts A (el : A) (w : Slist.World A)
        (l : Slist.SinglyLinkedList) (ns : list Slist.ref)
        (pos : Slist.ref) :
  Slist.Repr w l ns ->
  Slist.heap w pos <> None ->
  ~ In pos (Slist._sentinel l :: ns) ->
  exists w' l',
    Slist.insert_back el (Some pos) w l
    = (Slist.Return (Slist.fresh w), w', l') /\
    Slist.holds w' l' ns /\
    Slist.elements (Slist.heap w') ns = Slist.elements (Slist.heap w) ns /\
    Slist.__len__ l' = S (List.length ns) /\
    ~ Slist.Repr w' l' ns.
Proof.
  intros [[Hu Hp] Hsz] Hal Hout.
  destruct (Slist.heap w pos) as [nd|] eqn:End; [clear Hal|congruence].
  assert (Hlt : pos < Slist.fresh w)
    by (apply unused_allocated; [exact Hu | congruence]).
  assert (Hfr : ~ In (Slist.fresh w) (Slist._sentinel l :: ns)).
  { intros Hf. apply (@path_allocated _ _ _ _ _ Hp Hf). apply Hu. lia. }
  set (h1 := Slist.store (Slist.heap w) (Slist.fresh w)
                         (Slist.mkNode el (Slist._next nd))).
  set (h2 := Slist.store h1 pos
                         (Slist.mkNode (Slist._element nd)
                                       (Some (Slist.fresh w)))).
  exists (Slist.mkWorld h2 (S (Slist.fresh w))),
         (Slist.mkList (Slist._sentinel l) (S (Slist._size l))).
  split; [|split; [|split; [|split]]].
  - unfold Slist.insert_back. now rewrite End.
  - split.
    + intros p Hge. cbn [Slist.heap Slist.fresh] in *. unfold h2, h1.
      rewrite !store_other by lia. apply Hu. lia.
    + cbn [Slist.heap Slist._sentinel]. unfold h2, h1.
      apply path_frame; [exact Hout|].
      apply path_frame; [exact Hfr | exact Hp].
  - cbn [Slist.heap]. apply elements_ext. intros q Hin.
    unfold h2, h1. rewrite !store_other; [reflexivity| |].
    + intros ->. apply Hfr. now right.
    + intros ->. apply Hout. now right.
  - unfold Slist.__len__. cbn [Slist._size]. now rewrite Hsz.
  - intros [_ Hsz']. cbn [Slist._size] in Hsz'. lia.
Qed.

(** X28. [SinglyLinkedList()] makes an empty list of length 0 around a new
    sentinel, and a list that was there before holds the nodes and the
    elements it held. *)
Theorem new_list_is_empty A (PyNone : A) (w : Slist.World A)
        (l0 : Slist.SinglyLinkedList) (ns0 : list Slist.ref) :
  Slist.unused w ->
  Slist.Repr (fst (Slist.__init__ PyNone w))
             (snd (Slist.__init__ PyNone w)) [] /\
  Slist.is_empty (snd (Slist.__init__ PyNone w)) = true /\
  Slist.__len__ (snd (Slist.__init__ PyNone w)) = 0 /\
  (Slist.holds w l0 ns0 ->
   Slist.holds (fst (Slist.__init__ PyNone w)) l0 ns0 /\
   Slist.elements (Slist.heap (fst (Slist.__init__ PyNone w))) ns0
   = Slist.elements (Slist.heap w) ns0).
Proof.
  intros Hu. unfold Slist.__init__. cbn [fst snd].
  assert (Hu' : Slist.unused
                  (Slist.mkWorld
                     (Slist.store (Slist.heap w) (Slist.fresh w)
                                  (Slist.mkNode PyNone None))
                     (S (Slist.fresh w)))).
  { intros p Hge. cbn [Slist.heap Slist.fresh] in *.
    rewrite store_other by lia. apply Hu. lia. }
  split; [|split; [|split]]; try reflexivity.
  - split; [split|reflexivity]; [exact Hu'|].
    cbn [Slist.heap Slist._sentinel Slist.path].
    now rewrite next_store_same.
  - intros [_ Hp].
    assert (Hfr : ~ In (Slist.fresh w) (Slist._sentinel l0 :: ns0)).
    { intros Hf. apply (@path_allocated _ _ _ _ _ Hp Hf). apply Hu. lia. }
    split; [split; [exact Hu'|]|].
    + cbn [Slist.heap]. now apply path_frame.
    + cbn [Slist.heap]. apply elements_new. intros Hc. apply Hfr.
      now right.
Qed.

Lemma SlistSample_Repr2 :
  Slist.Repr SlistSample.w2 SlistSample.l2 [2; 1].
Proof.
  split; [split|reflexivity].
  - intros p Hp. simpl in Hp.
    do 3 (destruct p as [|p]; [lia|]). reflexivity.
  - simpl. repeat split.
Qed.

Lemma SlistSample_Repr4 :
  Slist.Repr SlistSample.w4 SlistSample.l4 [].
Proof.
  split; [split|reflexivity].
  - intros p Hp. simpl in Hp.
    do 3 (destruct p as [|p]; [lia|]). reflexivity.
  - reflexivity.
Qed.

Lemma insert_back_inserts_witness :
  Slist.Repr SlistSample.w2 SlistSample.l2 [2; 1] /\
  exists w' l',
    Slist.insert_back (Some 3%Z) (Some 1) SlistSample.w2 SlistSample.l2
    = (Slist.Return 3, w', l') /\
    Slist.Repr w' l' [2; 1; 3] /\
    Slist.__len__ l' = 3 /\
    Slist.elements (Slist.heap w') [2; 1; 3]
    = [Some (Some 2%Z); Some (Some 1%Z); Some (Some 3%Z)].
Proof.
  split; [exact SlistSample_Repr2|].
  apply (@insert_back_inserts SlistSample.A (Some 3%Z) SlistSample.w2
           SlistSample.l2 [2; 1] [0; 2] [] 1 (Some 1) SlistSample_Repr2).
  - reflexivity.
  - left. reflexivity.
Defined.

Lemma remove_back_removes_witness :
  Slist.Repr SlistSample.w2 SlistSample.l2 [2; 1] /\
  exists (el : SlistSample.A) w' l',
    Slist.remove_back 0 SlistSample.w2 SlistSample.l2
    = (Slist.Return el, w', l') /\
    nth_error (Slist.elements (Slist.heap SlistSample.w2) [2; 1]) 0
    = Some (Some el) /\
    Slist.Repr w' l' [1] /\
    S (Slist.__len__ l') = 2 /\
    Slist.elements (Slist.heap w') [1] = [Some (Some 1%Z)].
Proof.
  split; [exact SlistSample_Repr2|].
  apply (@remove_back_removes SlistSample.A SlistSample.w2 SlistSample.l2
           [2; 1] [] [1] 0 2 SlistSample_Repr2).
  reflexivity.
Defined.

Lemma remove_back_errors_witness :
  Slist.Repr SlistSample.w2 SlistSample.l2 [2; 1] /\
  Slist.remove_back 1 SlistSample.w2 SlistSample.l2
  = (Slist.Raises Slist.AttributeError, SlistSample.w2, SlistSample.l2).
Proof.
  split; [exact SlistSample_Repr2|].
  apply (proj2 (@remove_back_errors SlistSample.A SlistSample.w2
                  SlistSample.l2 [2; 1] 0 SlistSample_Repr2)).
  discriminate.
Defined.

Lemma first_element_is_head_witness :
  Slist.Repr SlistSample.w2 SlistSample.l2 [2; 1] /\
  exists el : SlistSample.A,
    Slist.first_element SlistSample.w2 SlistSample.l2 = Slist.Return el /\
    Slist.elements (Slist.heap SlistSample.w2) [2; 1]
    = Some el :: Slist.elements (Slist.heap SlistSample.w2) [1] /\
    fst (fst (Slist.remove_first SlistSample.w2 SlistSample.l2))
    = Slist.Return el.
Proof.
  split; [exact SlistSample_Repr2|].
  exact (@first_element_is_head SlistSample.A SlistSample.w2
           SlistSample.l2 2 [1] SlistSample_Repr2).
Defined.

Lemma push_front_round_trip_witness :
  Slist.Repr SlistSample.w2 SlistSample.l2 [2; 1] /\
  exists node w1 l1 w2,
    Slist.insert_back (Some 7%Z) None SlistSample.w2 SlistSample.l2
    = (Slist.Return node, w1, l1) /\
    Slist.first_element w1 l1 = Slist.Return (Some 7%Z) /\
    Slist.remove_first w1 l1
    = (Slist.Return (Some 7%Z), w2, SlistSample.l2) /\
    Slist.Repr w2 SlistSample.l2 [2; 1] /\
    Slist.elements (Slist.heap w2) [2; 1]
    = Slist.elements (Slist.heap SlistSample.w2) [2; 1].
Proof.
  split; [exact SlistSample_Repr2|].
  exact (@push_front_round_trip SlistSample.A (Some 7%Z) SlistSample.w2
           SlistSample.l2 [2; 1] SlistSample_Repr2).
Defined.

Lemma stale_position_miscounts_witness :
  Slist.Repr SlistSample.w4 SlistSample.l4 [] /\
  Slist.heap SlistSample.w4 1 <> None /\
  ~ In 1 [Slist._sentinel SlistSample.l4] /\
  exists w' l',
    Slist.insert_back (Some 3%Z) (Some 1) SlistSample.w4 SlistSample.l4
    = (Slist.Return 3, w', l') /\
    Slist.holds w' l' [] /\
    Slist.elements (Slist.heap w') [] = [] /\
    Slist.__len__ l' = 1 /\
    ~ Slist.Repr w' l' [].
Proof.
  assert (H1 : Slist.heap SlistSample.w4 1 <> None) by discriminate.
  assert (H2 : ~ In 1 [Slist._sentinel SlistSample.l4])
    by (simpl; intros [H|[]]; discriminate).
  split; [exact SlistSample_Repr4|]. split; [exact H1|].
  split; [exact H2|].
  exact (@stale_position_miscounts SlistSample.A (Some 3%Z) SlistSample.w4
           SlistSample.l4 [] 1 SlistSample_Repr4 H1 H2).
Defined.

Lemma new_list_is_empty_witness :
  Slist.unused (Slist.nothing SlistSample.A) /\
  Slist.Repr (fst SlistSample.sl) (snd SlistSample.sl) [] /\
  Slist.is_empty (snd SlistSample.sl) = true.
Proof.
  assert (H : Slist.unused (Slist.nothing SlistSample.A))
    by (intros p _; reflexivity).
  split; [exact H|].
  pose proof (@new_list_is_empty SlistSample.A None
                (Slist.nothing SlistSample.A) (Slist.mkList 0 0) [] H)
    as (H1 & H2 & _).
  split; [exact H1 | exact H2].
Defined.
